(** * PII leakage scanner: detection, classification and risk scoring

    A shallow embedding of the scanning pipeline of the repository

      - [pii_detection/file_scanner.py]   (lines of a source)
      - [pii_detection/pii_detector.py]   (regular-expression detector)
      - [risk_scoring/pii_classification.py] (policy table)
      - [risk_scoring/pii_risk_scoring.py]   (score and label)

    and of the helpers around it

      - [risk_scoring/pii_spacy_validator.py] (the checks on digit strings)
      - [utils/log_sanitize.py]               (redaction for logs)
      - [utils/temp_storage.py]               (store with time to live)

    together with the theorems that settle the properties stated about it.

    Python values are modelled as follows.
      - [str] is a Rocq [string]; its characters are the code points 0..255,
        classified as Python's Unicode tables classify them.
      - [float] is the primitive binary64 [float] of Rocq, so [+], [-], [*]
        and the comparisons are the IEEE 754 operations Python performs.
      - [dict] is an association list in insertion order with unique keys.
      - an exception is a value of [exn]; a function that may raise returns
        a [result].
      - the module-level list of [temp_storage] is a state passed in and
        out; the readings of the clock and the identifier drawn are
        arguments. *)

From Stdlib Require Import ZArith List String Ascii Bool Lia Floats.
From Stdlib Require Import Strings.Byte.
From Stdlib Require Import Sorting.Sorted.
From Stdlib Require Import Sorting.Permutation.
Import ListNotations.

Set Warnings "-inexact-float".
Set Warnings "-register-all".

Open Scope string_scope.
Open Scope list_scope.

(* ================================================================= *)
(** ** Exceptions *)

Inductive exn : Set :=
| KeyError
| ValueError
| TypeError
| IndexError
| OverflowError
| UnicodeDecodeError.

Inductive result (A : Type) : Type :=
| Ok (a : A)
| Raise (e : exn).

Arguments Ok {A} a.
Arguments Raise {A} e.

Definition bind {A B : Type} (r : result A) (f : A -> result B) : result B :=
  match r with
  | Ok a => f a
  | Raise e => Raise e
  end.

Notation "x <- r ;; k" := (bind r (fun x => k))
  (at level 61, r at next level, right associativity).
Notation "' p <- r ;; k" := (bind r (fun x => match x with p => k end))
  (at level 61, p pattern, r at next level, right associativity).

(** [for x in xs: ys.append(f x)], stopping at the first exception. *)
Fixpoint mapM {A B : Type} (f : A -> result B) (xs : list A) : result (list B) :=
  match xs with
  | [] => Ok []
  | x :: xs' => y <- f x ;; ys <- mapM f xs' ;; Ok (y :: ys)
  end.

(* ================================================================= *)
(** ** Characters and the classes the patterns use *)

Module Chr.

Definition code (c : ascii) : N := N_of_ascii c.

Definition between (lo hi : N) (c : ascii) : bool :=
  (lo <=? code c)%N && (code c <=? hi)%N.

Definition one (x : ascii) (c : ascii) : bool := Ascii.eqb x c.

(** [\d]: the decimal digits; below 256 these are [0-9] only. *)
Definition digit : ascii -> bool := between 48 57.

Definition lower : ascii -> bool := between 97 122.
Definition upper : ascii -> bool := between 65 90.

(** Letters and numeric characters of the range 128..255:
    ª ² ³ µ ¹ º ¼ ½ ¾, À..Ö, Ø..ö, ø..ÿ. *)
Definition latin1_alnum (c : ascii) : bool :=
  one "170" c || one "178" c || one "179" c || one "181" c || one "185" c
  || one "186" c || between 188 190 c || between 192 214 c
  || between 216 246 c || between 248 255 c.

(** [\w]: alphanumeric characters and the underscore. *)
Definition word (c : ascii) : bool :=
  digit c || lower c || upper c || one "_" c || latin1_alnum c.

(** [\s], also what [str.strip()] removes: TAB..CR, FS..US, space,
    NEL and the no-break space. *)
Definition space (c : ascii) : bool :=
  between 9 13 c || between 28 32 c || one "133" c || one "160" c.

(** [[a-z]] under [re.IGNORECASE]. *)
Definition letter_ci (c : ascii) : bool := lower c || upper c.

(** [[a-z0-9._%+\-]] under [re.IGNORECASE]. *)
Definition email_local (c : ascii) : bool :=
  letter_ci c || digit c || one "." c || one "_" c || one "%" c
  || one "+" c || one "-" c.

(** [[a-z0-9.\-]] under [re.IGNORECASE]. *)
Definition email_domain (c : ascii) : bool :=
  letter_ci c || digit c || one "." c || one "-" c.

(** [[\s\-.()]] *)
Definition phone_sep (c : ascii) : bool :=
  space c || one "-" c || one "." c || one "(" c || one ")" c.

(** [[\d\s\-.()]] *)
Definition phone_body (c : ascii) : bool := digit c || phone_sep c.

(** [[\s\-]] *)
Definition id_sep (c : ascii) : bool := space c || one "-" c.

End Chr.

(* ================================================================= *)
(** ** Regular expressions with Python's backtracking semantics *)

Module Re.

(** The fragment of [re] syntax that the three patterns of the detector are
    written in.  Every quantifier of those patterns applies to a single
    character class ([Rep]) or is the [?] of a group ([Opt]); all are
    greedy. *)
Inductive regex : Type :=
| Cls (c : ascii -> bool)                          (* one character of a class *)
| Seq (a b : regex)                                (* a b *)
| Alt (a b : regex)                                (* a|b, left first *)
| Rep (c : ascii -> bool) (lo : nat) (hi : option nat) (* c{lo,hi}, c{lo,} *)
| Opt (a : regex)                                  (* (?:a)? *)
| NotBehind (c : ascii -> bool)                    (* (?<!c) *)
| NotAhead (a : regex)                             (* (?!a) *)
| WordB.                                           (* \b *)

Definition Lit (x : ascii) : regex := Cls (Chr.one x).
Definition Plus (c : ascii -> bool) : regex := Rep c 1 None.
Definition Star (c : ascii -> bool) : regex := Rep c 0 None.
Definition Maybe (c : ascii -> bool) : regex := Rep c 0 (Some 1).
Definition Exactly (n : nat) (c : ascii -> bool) : regex := Rep c n (Some n).
Definition AtLeast (n : nat) (c : ascii -> bool) : regex := Rep c n None.

Declare Scope re_scope.
Delimit Scope re_scope with re.
Infix ";;;" := Seq (at level 60, right associativity) : re_scope.

(** A position in the subject: the character before it (if any), the
    characters from it on, and its index. *)
Record cursor : Type := Cursor {
  prev : option ascii;
  rest : list ascii;
  pos : nat
}.

Definition advance (x : ascii) (l : list ascii) (cu : cursor) : cursor :=
  Cursor (Some x) l (S (pos cu)).

Definition word_before (cu : cursor) : bool :=
  match prev cu with Some x => Chr.word x | None => false end.

Definition word_after (cu : cursor) : bool :=
  match rest cu with x :: _ => Chr.word x | [] => false end.

(** The rest of the match: given the position reached, the end of the
    whole match, if the remainder of the pattern matches there. *)
Definition cont : Type := cursor -> option nat.

(** [a <|> b]: the first alternative if it leads to a match, else the
    second; this is where the matcher backtracks. *)
Notation "a <|> b" := (match a with Some e => Some e | None => b end)
  (at level 55, right associativity, only parsing).

(** Leaving a repetition: allowed once the lower bound is met. *)
Definition leave (lo : nat) (k : cont) (cu : cursor) : option nat :=
  match lo with O => k cu | S _ => None end.

(** Greedy repetition of a class: take a character while allowed and try
    the longer match first, then give characters back one at a time. *)
Fixpoint rep (c : ascii -> bool) (lo : nat) (hi : option nat) (k : cont)
         (p : option ascii) (l : list ascii) (i : nat) {struct l} : option nat :=
  match hi, l with
  | Some O, _ => leave lo k (Cursor p l i)
  | _, x :: l' =>
    if c x
    then rep c (Nat.pred lo) (option_map Nat.pred hi) k (Some x) l' (S i)
         <|> leave lo k (Cursor p l i)
    else leave lo k (Cursor p l i)
  | _, [] => leave lo k (Cursor p l i)
  end.

Fixpoint run (r : regex) (k : cont) (cu : cursor) {struct r} : option nat :=
  match r with
  | Cls c =>
    match rest cu with
    | x :: l' => if c x then k (advance x l' cu) else None
    | [] => None
    end
  | Seq a b => run a (run b k) cu
  | Alt a b => run a k cu <|> run b k cu
  | Rep c lo hi => rep c lo hi k (prev cu) (rest cu) (pos cu)
  | Opt a => run a k cu <|> k cu
  | NotBehind c =>
    match prev cu with
    | Some x => if c x then None else k cu
    | None => k cu
    end
  | NotAhead a =>
    match run a (fun cu' => Some (pos cu')) cu with
    | Some _ => None
    | None => k cu
    end
  | WordB => if xorb (word_before cu) (word_after cu) then k cu else None
  end.

(** [pattern.match] anchored at a cursor: the end of the match. *)
Definition match_at (r : regex) (cu : cursor) : option nat :=
  run r (fun cu' => Some (pos cu')) cu.

(** The least number of characters a match of [r] consumes. *)
Fixpoint min_len (r : regex) : nat :=
  match r with
  | Cls _ => 1%nat
  | Seq a b => (min_len a + min_len b)%nat
  | Alt a b => Nat.min (min_len a) (min_len b)
  | Rep _ lo _ => lo
  | Opt _ | NotBehind _ | NotAhead _ | WordB => 0%nat
  end.

(** [pattern.finditer]: the spans of the successive leftmost matches.  After
    a match ending at [e] the search resumes at [e]; [skip] counts the
    positions still to pass over before trying again.  (A match of the
    patterns used here is never empty.) *)
Fixpoint scan (r : regex) (p : option ascii) (l : list ascii) (i : nat)
         (skip : nat) {struct l} : list (nat * nat) :=
  match skip with
  | S skip' =>
    match l with
    | x :: l' => scan r (Some x) l' (S i) skip'
    | [] => []
    end
  | O =>
    match match_at r (Cursor p l i) with
    | Some e =>
      (i, e) :: match l with
                | x :: l' => scan r (Some x) l' (S i) (e - i - 1)
                | [] => []
                end
    | None =>
      match l with
      | x :: l' => scan r (Some x) l' (S i) 0
      | [] => []
      end
    end
  end.

Definition finditer (r : regex) (line : string) : list (nat * nat) :=
  scan r None (list_ascii_of_string line) 0 0.

(** [line[s:e]] *)
Definition slice (line : string) (span : nat * nat) : string :=
  substring (fst span) (snd span - fst span) line.

End Re.

(* ================================================================= *)
(** ** Strings *)

Module Str.

Fixpoint lstrip (s : string) : string :=
  match s with
  | String c s' => if Chr.space c then lstrip s' else s
  | EmptyString => s
  end.

Definition rev (s : string) : string :=
  string_of_list_ascii (List.rev (list_ascii_of_string s)).

Definition rstrip (s : string) : string := rev (lstrip (rev s)).

(** [s.strip()] *)
Definition strip (s : string) : string := rstrip (lstrip s).

Fixpoint filter (f : ascii -> bool) (s : string) : string :=
  match s with
  | String c s' => if f c then String c (filter f s') else filter f s'
  | EmptyString => EmptyString
  end.

(** [re.sub(r"\D", "", s)] *)
Definition digits_only (s : string) : string := filter Chr.digit s.

End Str.

(* ================================================================= *)
(** ** file_scanner.py *)

Module file_scanner.

Record LineRecord : Type := Build_LineRecord {
  filename : string;
  line_number : Z;
  line : string
}.

(** [s.rstrip("\r\n")]: drop every trailing CR and LF. *)
Definition is_crlf (c : ascii) : bool := Chr.one "013" c || Chr.one "010" c.

Fixpoint lstrip_crlf (s : string) : string :=
  match s with
  | String c s' => if is_crlf c then lstrip_crlf s' else s
  | EmptyString => s
  end.

Definition rstrip_crlf (s : string) : string :=
  Str.rev (lstrip_crlf (Str.rev s)).

(** The loop of [scan_text_stream] from line number [line_no] on. *)
Fixpoint number_lines (filename : string) (keep_newline : bool)
         (line_no : Z) (stream : list string) : list LineRecord :=
  match stream with
  | [] => []
  | raw :: stream' =>
    let line := if keep_newline then raw else rstrip_crlf raw in
    Build_LineRecord filename line_no line
    :: number_lines filename keep_newline (line_no + 1) stream'
  end.

(** [scan_text_stream]; the stream is the list of lines that iterating the
    text stream gives, and the result is the generator run to its end. *)
Definition scan_text_stream (stream : list string) (filename : string)
           (start_line : Z) (keep_newline : bool) : result (list LineRecord) :=
  if (start_line <? 1)%Z then Raise ValueError
  else Ok (number_lines filename keep_newline start_line stream).

(** Line boundaries of [str.splitlines] among the code points 0..255:
    LF, VT, FF, CR, FS, GS, RS and NEL. *)
Definition is_linebreak (c : ascii) : bool :=
  Chr.between 10 13 c || Chr.between 28 30 c || Chr.one "133" c.

(** [text.splitlines(keepends)]; [cur] is the line being read, reversed.
    A CR directly followed by LF is one boundary. *)
Fixpoint splitlines_from (keepends : bool) (cur : list ascii)
         (l : list ascii) {struct l} : list string :=
  match l with
  | [] =>
    match cur with
    | [] => []
    | _ :: _ => [string_of_list_ascii (List.rev cur)]
    end
  | c :: l' =>
    if is_linebreak c then
      match l' with
      | c' :: l'' =>
        if Chr.one "013" c && Chr.one "010" c' then
          string_of_list_ascii
            (List.rev (if keepends then c' :: c :: cur else cur))
          :: splitlines_from keepends [] l''
        else
          string_of_list_ascii (List.rev (if keepends then c :: cur else cur))
          :: splitlines_from keepends [] l'
      | [] =>
        [string_of_list_ascii (List.rev (if keepends then c :: cur else cur))]
      end
    else splitlines_from keepends (c :: cur) l'
  end.

Definition splitlines (text : string) (keepends : bool) : list string :=
  splitlines_from keepends [] (list_ascii_of_string text).

(** [enumerate(lines, start=i)] with the body of the loop of [scan_bytes]. *)
Fixpoint enumerate_lines (filename : string) (keep_newline : bool) (i : Z)
         (lines : list string) : list LineRecord :=
  match lines with
  | [] => []
  | line :: lines' =>
    Build_LineRecord filename i
      (if keep_newline then line else rstrip_crlf line)
    :: enumerate_lines filename keep_newline (i + 1) lines'
  end.

(** [scan_bytes].  [decode] stands for [data.decode(encoding, errors=errors)]
    at the encoding and error policy of the call: the codec they select,
    which may raise. *)
Definition scan_bytes (decode : list byte -> result string) (data : list byte)
           (filename : string) (keep_newline : bool) (start_line : Z)
  : result (list LineRecord) :=
  text <- decode data ;;
  if (start_line <? 1)%Z then Raise ValueError
  else Ok (enumerate_lines filename keep_newline start_line
                           (splitlines text keep_newline)).

(** [data.decode("ascii", errors="strict")] *)
Fixpoint decode_ascii_strict (data : list byte) : result string :=
  match data with
  | [] => Ok EmptyString
  | b :: data' =>
    if (Byte.to_N b <? 128)%N
    then s <- decode_ascii_strict data' ;; Ok (String (ascii_of_byte b) s)
    else Raise UnicodeDecodeError
  end.

End file_scanner.

(* ================================================================= *)
(** ** pii_detector.py *)

Module pii_detector.

Import Re.
Local Open Scope re_scope.

Inductive PiiType : Set := email | phone | aadhaar.

Record PiiMatch : Type := Build_PiiMatch {
  pii_type : PiiType;
  value : string;
  filename : string;
  line_number : Z
}.

(** [\b [a-z0-9._%+\-]+ @ [a-z0-9.\-]+ \. [a-z]{2,} \b], ignoring case. *)
Definition EMAIL_RE : regex :=
  WordB ;;; Plus Chr.email_local ;;; Lit "@" ;;; Plus Chr.email_domain
  ;;; Lit "." ;;; AtLeast 2 Chr.letter_ci ;;; WordB.

(** The pattern, written as in the source in verbose mode (white space
    is not part of it):
<<
    (?<!\w)
    ( (?: \+? \s* \d{1,3} [\s\-.()]* )?
      (?: 0 [\s\-.()]* )?
      (?: (?: [6-9] \d{2} [\s\-.()]* \d{3} [\s\-.()]* \d{4} )
        | (?: [6-9] \d{9} )
        | (?: \d [\d\s\-.()]{6,} \d ) ) )
    (?!\w)
>> *)
Definition PHONE_RE : regex :=
  NotBehind Chr.word
  ;;; Opt (Maybe (Chr.one "+") ;;; Star Chr.space ;;; Rep Chr.digit 1 (Some 3)
           ;;; Star Chr.phone_sep)
  ;;; Opt (Lit "0" ;;; Star Chr.phone_sep)
  ;;; Alt (Cls (Chr.between 54 57) ;;; Exactly 2 Chr.digit ;;; Star Chr.phone_sep
           ;;; Exactly 3 Chr.digit ;;; Star Chr.phone_sep ;;; Exactly 4 Chr.digit)
     (Alt (Cls (Chr.between 54 57) ;;; Exactly 9 Chr.digit)
          (Cls Chr.digit ;;; AtLeast 6 Chr.phone_body ;;; Cls Chr.digit))
  ;;; NotAhead (Cls Chr.word).

(** [(?<!\w) (?!91\d{10}\b) ( [2-9]\d{3} [\s\-]? \d{4} [\s\-]? \d{4} ) (?!\w)] *)
Definition AADHAAR_RE : regex :=
  NotBehind Chr.word
  ;;; NotAhead (Lit "9" ;;; Lit "1" ;;; Exactly 10 Chr.digit ;;; WordB)
  ;;; Cls (Chr.between 50 57) ;;; Exactly 3 Chr.digit
  ;;; Maybe Chr.id_sep ;;; Exactly 4 Chr.digit
  ;;; Maybe Chr.id_sep ;;; Exactly 4 Chr.digit
  ;;; NotAhead (Cls Chr.word).

Definition span : Set := (nat * nat)%type.

(** [overlaps_any], with the list of reserved spans it closes over. *)
Definition overlaps_any (reserved_spans : list span) (sp : span) : bool :=
  let '(s1, e1) := sp in
  existsb (fun '(s2, e2) => (s1 <? e2)%nat && (s2 <? e1)%nat) reserved_spans.

(** A match together with the span it was found at.  In all three patterns
    the capturing group is the whole match between zero-width guards, so
    [m.span(1)] is [m.span(0)]. *)
Record hit : Type := Hit {
  hit_type : PiiType;
  hit_span : span;
  hit_value : string
}.

Definition phone_hit (line : string) (reserved_spans : list span) (sp : span)
  : list hit :=
  if overlaps_any reserved_spans sp then []
  else
    let raw := Str.strip (slice line sp) in
    let digits := Str.digits_only raw in
    if (String.length digits <? 7)%nat then []
    else [Hit phone sp raw].

(** The three loops of [_iter_matches_for_line], in order.  When the phone
    loop starts, [reserved_spans] holds the spans of every email and every
    Aadhaar-like match of the line. *)
Definition line_hits (line : string) : list hit :=
  let emails := finditer EMAIL_RE line in
  let ids := finditer AADHAAR_RE line in
  let reserved_spans := emails ++ ids in
  map (fun sp => Hit email sp (slice line sp)) emails
  ++ map (fun sp => Hit aadhaar sp (slice line sp)) ids
  ++ flat_map (phone_hit line reserved_spans) (finditer PHONE_RE line).

Definition _iter_matches_for_line (filename : string) (line_number : Z)
           (line : string) : list PiiMatch :=
  map (fun h => Build_PiiMatch (hit_type h) (hit_value h) filename line_number)
      (line_hits line).

Definition detect_pii (records : list file_scanner.LineRecord) : list PiiMatch :=
  flat_map (fun r => _iter_matches_for_line (file_scanner.filename r)
                       (file_scanner.line_number r) (file_scanner.line r))
           records.

End pii_detector.

(* ================================================================= *)
(** ** Python values, dictionaries and numbers *)

Inductive RiskLevel : Set := low | medium | high | critical.

(** The order of the tiers, [low < medium < high < critical]. *)
Definition rank (l : RiskLevel) : nat :=
  match l with
  | low => 0
  | medium => 1
  | high => 2
  | critical => 3
  end.

Module Py.

Inductive pyval : Type :=
| PyNone
| PyBool (b : bool)
| PyInt (n : Z)
| PyFloat (x : float)
| PyStr (s : string).

(** A [dict] with [str] keys, in insertion order. *)
Definition dict (V : Type) : Type := list (string * V).

(** [d.get(k)] *)
Fixpoint get {V : Type} (d : dict V) (k : string) : option V :=
  match d with
  | [] => None
  | (k', v) :: d' => if String.eqb k k' then Some v else get d' k
  end.

(** [d.get(k, default)] *)
Definition get_or {V : Type} (d : dict V) (k : string) (default : V) : V :=
  match get d k with
  | Some v => v
  | None => default
  end.

(** [d[k] = v]: a present key keeps its place, a new key goes last. *)
Fixpoint set {V : Type} (d : dict V) (k : string) (v : V) : dict V :=
  match d with
  | [] => [(k, v)]
  | (k', v') :: d' =>
    if String.eqb k k' then (k', v) :: d' else (k', v') :: set d' k v
  end.

(** [d.update(other)] *)
Definition update {V : Type} (d other : dict V) : dict V :=
  fold_left (fun acc kv => set acc (fst kv) (snd kv)) other d.

(** [d[k]] *)
Definition item {V : Type} (d : dict V) (k : string) : result V :=
  match get d k with
  | Some v => Ok v
  | None => Raise KeyError
  end.

(** [float(n)] for an [int]: the nearest binary64 number, ties to even;
    an [int] that rounds beyond the largest one raises. *)
Definition float_of_int (n : Z) : result float :=
  match binary_normalize prec emax n 0 false with
  | S754_infinity _ => Raise OverflowError
  | sf => Ok (SF2Prim sf)
  end.

Section Float.

(** [float(s)] for a [str] is the numeric-literal reader of the Python
    runtime; the model takes it as given.  [None] is a string that is not
    a number. *)
Variable str_to_float : string -> option float.

(** [float(v)] *)
Definition to_float (v : pyval) : result float :=
  match v with
  | PyFloat x => Ok x
  | PyInt n => float_of_int n
  | PyBool b => Ok (if b then 1 else 0)%float
  | PyStr s =>
    match str_to_float s with
    | Some x => Ok x
    | None => Raise ValueError
    end
  | PyNone => Raise TypeError
  end.

End Float.

(** [a / b] rounded to the nearest integer, ties to the even one
    ([0 <= a], [0 < b]). *)
Definition div_half_even (a b : Z) : Z :=
  let q := (a / b)%Z in
  match (2 * (a mod b) ?= b)%Z with
  | Lt => q
  | Gt => (q + 1)%Z
  | Eq => if Z.even q then q else (q + 1)%Z
  end.

(** The binary64 number nearest to [n / d], ties to even, with sign [s]. *)
Definition nearest_ratio (s : bool) (n d : positive) : float :=
  SF2Prim (SFdiv prec emax (S754_finite s n 0) (S754_finite false d 0)).

(** [round(x, 2)]: the exact value of [x] is rounded to two decimal places,
    ties to even, and the nearest binary64 number to that decimal is
    returned; infinities, NaN and zeros are returned as they are. *)
Definition round2 (x : float) : float :=
  match Prim2SF x with
  | S754_finite s m e =>
    match div_half_even (Zpos m * 2 ^ (e + 1074) * 100) (2 ^ 1074) with
    | Zpos n => nearest_ratio s n 100
    | _ => if s then neg_zero else zero
    end
  | _ => x
  end.

(** *** The order of the binary64 numbers

    [fval x] is the exact value of [x] as a multiple of [2^-1074] (the
    spacing of the smallest numbers); the infinities are placed at
    [+-INF], beyond every finite value, and the zeros at [0]. *)
Definition INF : Z := 2 ^ 2100.

Definition fval_SF (x : spec_float) : Z :=
  match x with
  | S754_zero _ => 0
  | S754_nan => 0
  | S754_infinity s => cond_Zopp s INF
  | S754_finite s m e => cond_Zopp s (Zpos m * 2 ^ (e + 1074))
  end.

Definition fval (x : float) : Z := fval_SF (Prim2SF x).

(** The value of [1.0], and a bound (that of [256.0]) under which no
    operation of the score overflows. *)
Definition ONE : Z := 2 ^ 1074.
Definition SMALL : Z := 2 ^ 1082.

(** [x] is a number of the interval [[0, 1]]. *)
Definition unit_float (x : float) : Prop :=
  is_nan x = false /\ (0 <= fval x <= ONE)%Z.

(** Rounding to nearest, ties to even, of an exact value [W] given as a
    multiple of [2^-2148] (where products of two numbers live) to the value
    of a binary64 number: [W] keeps its 53 leading bits, or what lies above
    [2^-1074]. *)
Definition RN (W : Z) : Z :=
  let k := Z.max (Z.log2 W - 52) 1074 in
  (div_half_even W (2 ^ k) * 2 ^ (k - 1074))%Z.

(** What a shift record says of the bits shifted out of [m] by [k] places. *)
Definition shifted (m k : Z) (mrs : shr_record) : Prop :=
  (shr_m mrs = m / 2 ^ k)%Z
  /\ match shr_r mrs, shr_s mrs with
     | false, false => (m mod 2 ^ k = 0)%Z
     | false, true => (0 < m mod 2 ^ k /\ 2 * (m mod 2 ^ k) < 2 ^ k)%Z
     | true, false => (2 * (m mod 2 ^ k) = 2 ^ k)%Z
     | true, true => (2 * (m mod 2 ^ k) > 2 ^ k)%Z
     end.

(** [round2] on the scores: the number of hundredths nearest to a value,
    and the binary64 number nearest to [n] hundredths. *)
Definition to_hundredths (v : Z) : Z := div_half_even (v * 100) (2 ^ 1074).

Definition hundredths (n : Z) : float :=
  match n with
  | Zpos p => nearest_ratio false p 100
  | _ => 0%float
  end.

(** [hundredths k <= hundredths (k + 1)] for [count] values of [k] from [n]. *)
Fixpoint hundredths_ascend (n : Z) (count : nat) : bool :=
  match count with
  | O => true
  | S count' =>
    (hundredths n <=? hundredths (n + 1))%float
    && hundredths_ascend (n + 1) count'
  end.

End Py.

(* ================================================================= *)
(** ** pii_detector.py: matches as dictionaries *)

Module pii_dicts.

Import Py pii_detector.

Definition PiiDict : Type := dict pyval.

Definition type_name (t : PiiType) : string :=
  match t with
  | email => "email"
  | phone => "phone"
  | aadhaar => "aadhaar"
  end.

Definition pii_match_to_dict (m : PiiMatch) : PiiDict :=
  [ ("type", PyStr (type_name (pii_type m)));
    ("value", PyStr (value m));
    ("file", PyStr (filename m));
    ("line_number", PyInt (line_number m)) ].

Definition pii_matches_to_dicts (matches : list PiiMatch) : list PiiDict :=
  map pii_match_to_dict matches.

Definition detect_pii_dicts (records : list file_scanner.LineRecord)
  : list PiiDict :=
  pii_matches_to_dicts (detect_pii records).

End pii_dicts.

(* ================================================================= *)
(** ** pii_classification.py *)

Module pii_classification.

Import Py.
Local Open Scope float_scope.

Record PiiRiskProfile : Type := Build_PiiRiskProfile {
  risk_level : RiskLevel;
  severity_weight : float;
  rationale : string
}.

Definition level_name (l : RiskLevel) : string :=
  match l with
  | low => "low"
  | medium => "medium"
  | high => "high"
  | critical => "critical"
  end.

Definition Policy : Type := dict PiiRiskProfile.

Definition DEFAULT_POLICY : Policy :=
  [ ("email",
     Build_PiiRiskProfile medium 0.50
       "Direct identifier; commonly personal data but typically lower impact than government ID.");
    ("phone",
     Build_PiiRiskProfile high 0.70
       "Direct identifier often tied to accounts, OTP, and contactability.");
    ("aadhaar",
     Build_PiiRiskProfile critical 0.95
       "Government ID-like identifier with high sensitivity and regulatory implications.") ].

Definition _validate_profile (pii_type : string) (profile : PiiRiskProfile)
  : result unit :=
  if negb ((0 <=? severity_weight profile) && (severity_weight profile <=? 1))
  then Raise ValueError
  else if String.eqb (Str.strip (rationale profile)) "" then Raise ValueError
  else Ok tt.

Fixpoint validate_policy (policy : Policy) : result unit :=
  match policy with
  | [] => Ok tt
  | (t, p) :: policy' =>
    _ <- _validate_profile t p ;; validate_policy policy'
  end.

Definition merge_policy (base overrides : Policy) : result Policy :=
  let merged := update base overrides in
  _ <- validate_policy merged ;;
  Ok merged.

(** [policy[item["type"]]]: only a [str] can be a key of the policy. *)
Definition profile_of (item : dict pyval) (policy : Policy)
  : result (string * PiiRiskProfile) :=
  t <- Py.item item "type" ;;
  match t with
  | PyStr name => profile <- Py.item policy name ;; Ok (name, profile)
  | _ => Raise KeyError
  end.

Definition classify_pii_dict (item : dict pyval) (policy : Policy)
  : result (dict pyval) :=
  '(name, profile) <- profile_of item policy ;;
  _ <- _validate_profile name profile ;;
  Ok (set (set (set item
        "risk_level" (PyStr (level_name (risk_level profile))))
        "severity_weight" (PyFloat (severity_weight profile)))
        "rationale" (PyStr (rationale profile))).

Definition classify_pii_dicts (items : list (dict pyval)) (policy : Policy)
  : result (list (dict pyval)) :=
  _ <- validate_policy policy ;;
  mapM (fun x => classify_pii_dict x policy) items.

(** The loop of [classify_pii]; [rank] is [order.index]. *)
Fixpoint classify_loop (items : list (dict pyval)) (policy : Policy)
         (highest : RiskLevel) : result RiskLevel :=
  match items with
  | [] => Ok highest
  | item :: items' =>
    '(name, profile) <- profile_of item policy ;;
    _ <- _validate_profile name profile ;;
    classify_loop items' policy
      (if (rank highest <? rank (risk_level profile))%nat
       then risk_level profile else highest)
  end.

Definition classify_pii (items : list (dict pyval)) (policy : Policy)
  : result RiskLevel :=
  match items with
  | [] => Ok low
  | _ :: _ => classify_loop items policy low
  end.

End pii_classification.

(* ================================================================= *)
(** ** pii_risk_scoring.py *)

Module pii_risk_scoring.

Import Py.
Local Open Scope float_scope.

Definition RiskLabel : Set := RiskLevel.

Record RiskScoreResult : Type := Build_RiskScoreResult {
  score : float;
  label : RiskLabel;
  item_count : nat;
  scored_items : list (dict pyval);
  explanation : string
}.

(** A thresholds mapping: tier to minimum score, in insertion order. *)
Definition Thresholds : Type := list (RiskLabel * float).

Definition DEFAULT_LABEL_THRESHOLDS : Thresholds :=
  [ (low, 0); (medium, 20); (high, 50); (critical, 80) ].

Definition _clamp01 (x : float) : float :=
  if x <? 0 then 0
  else if 1 <? x then 1
  else x.

(** [sorted(thresholds.items(), key=lambda kv: kv[1])].  Python's sort is
    stable and compares keys with [<]; on keys that [<] orders (floats
    other than NaN) the result is the one stable ordering, which inserting
    each item before the first item that is not smaller computes. *)
Fixpoint insert_item (x : RiskLabel * float) (l : list (RiskLabel * float))
  : list (RiskLabel * float) :=
  match l with
  | [] => [x]
  | y :: l' => if snd y <? snd x then y :: insert_item x l' else x :: l
  end.

Definition sorted_items (thresholds : Thresholds) : list (RiskLabel * float) :=
  fold_right insert_item [] thresholds.

(** The loop [for k, v in ordered: if score >= v: label = k]. *)
Definition scan_label (score : float) (label : RiskLabel)
           (ordered : list (RiskLabel * float)) : RiskLabel :=
  fold_left (fun label kv => if snd kv <=? score then fst kv else label)
            ordered label.

Definition risk_label_for_score (score : float) (thresholds : Thresholds)
  : result RiskLabel :=
  let ordered := sorted_items thresholds in
  match ordered with
  | [] => Raise IndexError
  | first :: _ => Ok (scan_label score (fst first) ordered)
  end.

(** *** The label in terms of the mapping

    The definitions below describe the outcome of [risk_label_for_score]
    on the mapping as it is written, without sorting it. *)

Definition entry : Type := (RiskLabel * float)%type.

(** [score >= v] for an entry [(k, v)]. *)
Definition met (score : float) (kv : entry) : bool := snd kv <=? score.

(** The last entry of a list whose threshold the score meets. *)
Fixpoint last_met (score : float) (l : list entry) : option entry :=
  match l with
  | [] => None
  | y :: l' =>
    match last_met score l' with
    | Some b => Some b
    | None => if met score y then Some y else None
    end
  end.

(** Among the entries the score meets, the one of the highest threshold,
    with its position in the mapping; of two entries with equal thresholds
    the later one is taken. *)
Fixpoint best_met (score : float) (l : list entry) : option (nat * entry) :=
  match l with
  | [] => None
  | x :: l' =>
    match best_met score l' with
    | Some (i, b) =>
      if met score x && (snd b <? snd x) then Some (O, x) else Some (S i, b)
    | None => if met score x then Some (O, x) else None
    end
  end.

(** The entry of the lowest threshold, with its position; of two entries
    with equal thresholds the earlier one is taken. *)
Fixpoint lowest (l : list entry) : option (nat * entry) :=
  match l with
  | [] => None
  | x :: l' =>
    match lowest l' with
    | Some (i, y) => if snd y <? snd x then Some (S i, y) else Some (O, x)
    | None => Some (O, x)
    end
  end.

(** No threshold is NaN. *)
Definition numbers (l : list entry) : Prop :=
  forall kv, In kv l -> is_nan (snd kv) = false.

Definition ascending (l : list entry) : Prop :=
  StronglySorted (fun a b => (fval (snd a) <= fval (snd b))%Z) l.

Definition explanation_text : string :=
  "We assign each finding an impact (severity x confidence). " ++
  "We then combine impacts so multiple findings raise the overall risk, " ++
  "with diminishing returns, and the final score is capped at 100.".

Section Scoring.

Variable str_to_float : string -> option float.

(** The body of the loop for one item: its contribution and the item
    with the contribution recorded. *)
Definition score_item (default_confidence : float) (raw : dict pyval)
  : result (float * dict pyval) :=
  match get raw "severity_weight" with
  | None => Raise KeyError
  | Some w =>
    w' <- to_float str_to_float w ;;
    let sev := _clamp01 w' in
    c' <- to_float str_to_float
            (get_or raw "confidence" (PyFloat default_confidence)) ;;
    let conf := _clamp01 c' in
    let contribution := _clamp01 (sev * conf) in
    Ok (contribution, set raw "contribution" (PyFloat contribution))
  end.

(** The loop over the items, from the state [(scored_items,
    product_not_risky)] reached so far. *)
Fixpoint score_loop (default_confidence : float) (items : list (dict pyval))
         (scored_items : list (dict pyval)) (product_not_risky : float)
  : result (list (dict pyval) * float) :=
  match items with
  | [] => Ok (scored_items, product_not_risky)
  | raw :: items' =>
    '(contribution, scored) <- score_item default_confidence raw ;;
    score_loop default_confidence items'
               (scored_items ++ [scored])
               (product_not_risky * (1 - contribution))
  end.

Definition combined_risk_of (product_not_risky : float) : float :=
  1 - _clamp01 product_not_risky.

Definition score_of (product_not_risky : float) : float :=
  round2 (combined_risk_of product_not_risky * 100).

Definition score_pii_findings (items : list (dict pyval))
           (default_confidence : float) (thresholds : Thresholds)
  : result RiskScoreResult :=
  '(scored_items, product_not_risky) <-
     score_loop default_confidence items [] 1 ;;
  let score := score_of product_not_risky in
  label <- risk_label_for_score score thresholds ;;
  Ok (Build_RiskScoreResult score label (List.length scored_items)
                            scored_items explanation_text).

(** What [float()] reads as the severity and the confidence of an item. *)
Definition readings (default_confidence : float) (raw : dict pyval)
  : result (float * float) :=
  match get raw "severity_weight" with
  | None => Raise KeyError
  | Some w =>
    w' <- to_float str_to_float w ;;
    c' <- to_float str_to_float
            (get_or raw "confidence" (PyFloat default_confidence)) ;;
    Ok (w', c')
  end.

(** The item carries a severity, and [float()] accepts both readings. *)
Definition readable_item (default_confidence : float) (raw : dict pyval) : bool :=
  match readings default_confidence raw with
  | Ok _ => true
  | Raise _ => false
  end.

(** Both readings of the item are numbers, that is, not NaN. *)
Definition number_item (default_confidence : float) (raw : dict pyval) : bool :=
  match readings default_confidence raw with
  | Ok (w, c) => negb (is_nan w) && negb (is_nan c)
  | Raise _ => false
  end.

(** [severity_weight > 0] and [confidence > 0]. *)
Definition positive_item (default_confidence : float) (raw : dict pyval) : bool :=
  match readings default_confidence raw with
  | Ok (w, c) => (0 <? w) && (0 <? c)
  | Raise _ => false
  end.

(** The local [combined_risk] of [score_pii_findings]. *)
Definition combined_risk (items : list (dict pyval))
           (default_confidence : float) : result float :=
  '(_, product_not_risky) <- score_loop default_confidence items [] 1 ;;
  Ok (combined_risk_of product_not_risky).

End Scoring.

End pii_risk_scoring.

Import Py pii_detector pii_dicts pii_classification pii_risk_scoring.

(** A reader that takes no string for a number.  It stands in for
    [float(str)] in the concrete runs below, whose numeric fields hold no
    string. *)
Definition not_a_number : string -> option float := fun _ => None.


Definition is_type (t : PiiType) (h : hit) : bool :=
  match t, hit_type h with
  | email, email | phone, phone | aadhaar, aadhaar => true
  | _, _ => false
  end.

(** The line of the contact scenario. *)
Definition contact_line : string :=
  "Contact dummy.user@example.com or call 555-123-4567".

(* ================================================================= *)
(** ** Predicates on strings *)

(** Every character of [s] satisfies [f]. *)
Fixpoint str_all (f : ascii -> bool) (s : string) : bool :=
  match s with
  | String c s' => f c && str_all f s'
  | EmptyString => true
  end.

(** The last character of [s], if [s] is not empty. *)
Fixpoint last_char (s : string) : option ascii :=
  match s with
  | EmptyString => None
  | String c EmptyString => Some c
  | String _ s' => last_char s'
  end.

(** [s] is not empty and its last character satisfies [f]. *)
Definition ends_with (f : ascii -> bool) (s : string) : bool :=
  match last_char s with
  | Some c => f c
  | None => false
  end.

(** [s] is not empty and its first character satisfies [f]. *)
Definition starts_with (f : ascii -> bool) (s : string) : bool :=
  match s with
  | String c _ => f c
  | EmptyString => false
  end.

(** [c] is no line boundary of [str.splitlines]. *)
Definition not_linebreak (c : ascii) : bool := negb (file_scanner.is_linebreak c).

(** Carriage return and line feed. *)
Definition CR : ascii := "013"%char.
Definition LF : ascii := "010"%char.

(* ================================================================= *)
(** ** The patterns read declaratively *)

Module ReSpec.
Import Re.

(** The character before the position reached after reading [w] from a
    position whose previous character is [p]. *)
Fixpoint last_of (w : list ascii) (p : option ascii) : option ascii :=
  match w with
  | [] => p
  | x :: w' => last_of w' (Some x)
  end.

(** The cursor reached from [cu] after the characters [w]. *)
Definition after (cu : cursor) (w : list ascii) : cursor :=
  Cursor (last_of w (prev cu)) (skipn (List.length w) (rest cu))
         (pos cu + List.length w).

(** The cursor at index [s] of a subject. *)
Definition cursor_at (subject : list ascii) (s : nat) : cursor :=
  Cursor (last_of (firstn s subject) None) (skipn s subject) s.

(** [derives r cu w]: read from the cursor [cu], the characters [w] are a
    match of [r] in the usual declarative sense, the zero-width assertions
    being evaluated where they stand. *)
Fixpoint derives (r : regex) (cu : cursor) (w : list ascii) {struct r} : Prop :=
  match r with
  | Cls c => exists x, w = [x] /\ c x = true
  | Seq a b =>
    exists w1 w2, w = w1 ++ w2 /\ derives a cu w1 /\ derives b (after cu w1) w2
  | Alt a b => derives a cu w \/ derives b cu w
  | Rep c lo hi =>
    forallb c w = true /\ (lo <= List.length w)%nat
    /\ match hi with Some h => (List.length w <= h)%nat | None => True end
  | Opt a => derives a cu w \/ w = []
  | NotBehind c =>
    w = [] /\ match prev cu with Some x => c x = false | None => True end
  | NotAhead a => w = [] /\ match_at a cu = None
  | WordB => w = [] /\ xorb (word_before cu) (word_after cu) = true
  end.

(** Every character class a pattern reads from lies within [P]. *)
Fixpoint reads_within (P : ascii -> bool) (r : regex) : Prop :=
  match r with
  | Cls c | Rep c _ _ => forall x, c x = true -> P x = true
  | Seq a b | Alt a b => reads_within P a /\ reads_within P b
  | Opt a => reads_within P a
  | NotBehind _ | NotAhead _ | WordB => True
  end.

End ReSpec.

(** The characters a phone match is made of: [+] and [[\d\s\-.()]]. *)
Definition phone_char (c : ascii) : bool := Chr.one "+" c || Chr.phone_body c.

(** [m.pii_type == t] *)
Definition has_type (t : PiiType) (m : PiiMatch) : bool :=
  match t, pii_type m with
  | email, email | phone, phone | aadhaar, aadhaar => true
  | _, _ => false
  end.

(** All 256 characters. *)
Definition every_char : list ascii := map ascii_of_nat (seq 0 256).

(** [f] holds of every character. *)
Definition for_every_char (f : ascii -> bool) : bool := forallb f every_char.

(** The guards of the phone pattern and of the Aadhaar-like pattern: no
    word character stands directly before or after a match. *)
Definition unguarded (p : option ascii) (post : list ascii) : Prop :=
  match p with Some x => Chr.word x = false | None => True end
  /\ match post with x :: _ => Chr.word x = false | [] => True end.

(** The span [a] ends where the span [b] starts, or earlier. *)
Definition before (a b : nat * nat) : Prop := (snd a <= fst b)%nat.

(* ================================================================= *)
(** ** pii_classification.py and pii_risk_scoring.py: predicates on items *)

(** The item names a type that the policy has a profile for. *)
Definition typed_in (policy : Policy) (item : dict pyval) : bool :=
  match get item "type" with
  | Some (PyStr name) =>
    match get policy name with Some _ => true | None => false end
  | _ => false
  end.

(** The keys that classification writes. *)
Definition classification_key (k : string) : bool :=
  String.eqb k "risk_level" || String.eqb k "severity_weight"
  || String.eqb k "rationale".

(** The level that [classify_pii] reads for one item. *)
Definition level_of (policy : Policy) (item : dict pyval) : result RiskLevel :=
  '(name, profile) <- profile_of item policy ;;
  _ <- _validate_profile name profile ;;
  Ok (risk_level profile).

(** [severity_weight >= 1] and [confidence >= 1]. *)
Definition certain_item (str_to_float : string -> option float)
           (default_confidence : float) (raw : dict pyval) : bool :=
  match readings str_to_float default_confidence raw with
  | Ok (w, c) => ((1 <=? w) && (1 <=? c))%float
  | Raise _ => false
  end.

(** One of the two readings of the item is NaN. *)
Definition nan_item (str_to_float : string -> option float)
           (default_confidence : float) (raw : dict pyval) : bool :=
  match readings str_to_float default_confidence raw with
  | Ok (w, c) => is_nan w || is_nan c
  | Raise _ => false
  end.

(** The bands of the default thresholds. *)
Definition default_band (score : float) : RiskLabel :=
  if (80 <=? score)%float then critical
  else if (50 <=? score)%float then high
  else if (20 <=? score)%float then medium
  else low.

(* ================================================================= *)
(** ** pii_spacy_validator.py: the checks on digit strings *)

Module pii_spacy_validator.

(** [sub in s] *)
Fixpoint contains (sub s : string) : bool :=
  String.prefix sub s
  || match s with
     | String _ s' => contains sub s'
     | EmptyString => false
     end.

(** [len(set(s)) == 1]: [s] is not empty and all its characters are equal. *)
Definition one_distinct_char (s : string) : bool :=
  match s with
  | String c s' => str_all (Ascii.eqb c) s'
  | EmptyString => false
  end.

(** [re.sub(r"\D", "", s)] *)
Definition _digits_only (s : string) : string := Str.filter Chr.digit s.

(** [_looks_like_dummy_number], test by test. *)
Definition _looks_like_dummy_number (digits : string) : bool :=
  if (String.length digits <? 7)%nat then true
  else if one_distinct_char digits then true
  else if contains "000000" digits || contains "123456" digits
          || contains "987654" digits then true
  else if String.eqb digits "1234567890" || String.eqb digits "0987654321"
  then true
  else false.

End pii_spacy_validator.

(* ================================================================= *)
(** ** utils/log_sanitize.py *)

Module log_sanitize.
Import Py.

(** The objects the sanitizer distinguishes: mappings (with [str] keys),
    lists, tuples, and everything else. *)
Inductive obj : Type :=
| Atom (v : pyval)
| Dict (items : dict obj)
| PyList (elems : list obj)
| PyTuple (elems : list obj).

Definition PII_VALUE_KEY : string := "value".
Definition REDACTED_PLACEHOLDER : string := "[REDACTED]".

(** [sanitize_for_log].  For a mapping the loop
    [for k, v in obj.items(): out[k] = ...] fills a new [dict] from the
    empty one; a list gives a list, a tuple a tuple, anything else is
    returned as it is. *)
Fixpoint sanitize_for_log (o : obj) : obj :=
  match o with
  | Dict items =>
    Dict (fold_left
            (fun out kv =>
               set out (fst kv)
                   (if String.eqb (fst kv) PII_VALUE_KEY
                    then Atom (PyStr REDACTED_PLACEHOLDER)
                    else sanitize_for_log (snd kv)))
            items [])
  | PyList elems => PyList (map sanitize_for_log elems)
  | PyTuple elems => PyTuple (map sanitize_for_log elems)
  | Atom v => Atom v
  end.

(** The object is the string [REDACTED_PLACEHOLDER]. *)
Definition is_placeholder (o : obj) : bool :=
  match o with
  | Atom (PyStr s) => String.eqb s REDACTED_PLACEHOLDER
  | _ => false
  end.

(** No mapping of the object, at any depth, holds anything but the
    placeholder under the key ["value"]. *)
Fixpoint redacted (o : obj) : bool :=
  match o with
  | Atom _ => true
  | Dict items =>
    forallb (fun kv => if String.eqb (fst kv) PII_VALUE_KEY
                       then is_placeholder (snd kv) else redacted (snd kv))
            items
  | PyList elems | PyTuple elems => forallb redacted elems
  end.

(** No mapping of the object, at any depth, has the key ["value"]. *)
Fixpoint value_free (o : obj) : bool :=
  match o with
  | Atom _ => true
  | Dict items =>
    forallb (fun kv => negb (String.eqb (fst kv) PII_VALUE_KEY)
                       && value_free (snd kv))
            items
  | PyList elems | PyTuple elems => forallb value_free elems
  end.

(** The keys of every mapping of the object are distinct, as the keys of a
    [dict] are. *)
Fixpoint distinct_keys (o : obj) : Prop :=
  match o with
  | Atom _ => True
  | Dict items =>
    NoDup (map fst items)
    /\ (fix all (l : dict obj) : Prop :=
          match l with
          | [] => True
          | kv :: l' => distinct_keys (snd kv) /\ all l'
          end) items
  | PyList elems | PyTuple elems =>
    (fix all (l : list obj) : Prop :=
       match l with
       | [] => True
       | x :: l' => distinct_keys x /\ all l'
       end) elems
  end.

(** A flat [dict] of plain values as an object. *)
Definition of_dict (d : dict pyval) : obj :=
  Dict (map (fun kv => (fst kv, Atom (snd kv))) d).

(** The entry the loop writes for [(k, v)]. *)
Definition written (kv : string * obj) : obj :=
  if String.eqb (fst kv) PII_VALUE_KEY
  then Atom (PyStr REDACTED_PLACEHOLDER)
  else sanitize_for_log (snd kv).

(** An entry as [redacted] wants it. *)
Definition entry_ok (kv : string * obj) : bool :=
  if String.eqb (fst kv) PII_VALUE_KEY
  then is_placeholder (snd kv) else redacted (snd kv).

End log_sanitize.

(* ================================================================= *)
(** ** utils/temp_storage.py *)

Module temp_storage.

Local Open Scope float_scope.

Definition DEFAULT_TTL_SECONDS : float := 600.

Section Store.

(** The type of the payloads. *)
Variable Payload : Type.

Record entry : Type := Build_entry {
  scan_id : string;
  stored_at : float;
  ttl_seconds : float;
  payload : Payload
}.

(** The module-level list [_storage]. *)
Definition storage : Type := list entry.

(** [_is_expired]; [now] is the reading of the clock that [_now()] gives. *)
Definition _is_expired (now stored_at ttl_seconds : float) : bool :=
  ttl_seconds <=? now - stored_at.

(** The filter of [_prune_expired]: [(now - e["stored_at"]) < e["ttl_seconds"]]. *)
Definition live (now : float) (e : entry) : bool :=
  now - stored_at e <? ttl_seconds e.

(** [_prune_expired]: the store is replaced by its entries that are live
    at the reading [now] of the clock. *)
Definition _prune_expired (now : float) (st : storage) : storage :=
  filter (live now) st.

(** [add]: the clock is read twice, by [_prune_expired] and for
    [stored_at]; [fresh] is the identifier [uuid.uuid4()] draws, used when
    no [scan_id] is given.  Returns the identifier and the new store. *)
Definition add (now_prune now_store : float) (fresh : string)
           (payload : Payload) (scan_id : option string) (ttl_seconds : float)
           (st : storage) : string * storage :=
  let st := _prune_expired now_prune st in
  let sid := match scan_id with Some s => s | None => fresh end in
  (sid, st ++ [Build_entry sid now_store ttl_seconds payload]).

(** [get]: the payload of the first entry with this identifier that has
    not expired, and the pruned store. *)
Definition get (now : float) (sid : string) (st : storage)
  : option Payload * storage :=
  let st := _prune_expired now st in
  (option_map payload (find (fun e => String.eqb (scan_id e) sid) st), st).

(** [get_all_non_expired]: the pairs of the live entries, in the order in
    which they were stored, and the pruned store. *)
Definition get_all_non_expired (now : float) (st : storage)
  : list (string * Payload) * storage :=
  let st := _prune_expired now st in
  (map (fun e => (scan_id e, payload e)) st, st).

(** [clear] *)
Definition clear (st : storage) : storage := [].

End Store.

Arguments scan_id {Payload} e.
Arguments stored_at {Payload} e.
Arguments ttl_seconds {Payload} e.
Arguments payload {Payload} e.
Arguments live {Payload} now e.
Arguments _prune_expired {Payload} now st.
Arguments add {Payload} now_prune now_store fresh payload scan_id ttl_seconds st.
Arguments get {Payload} now sid st.
Arguments get_all_non_expired {Payload} now st.
Arguments clear {Payload} st.

End temp_storage.

(* ================================================================= *)
(** ** Inputs of the examples *)

(** The bytes of ["a\nb"]. *)
Definition two_lines : list byte := [Byte.x61; Byte.x0a; Byte.x62].

(** A line with a 12-digit number in three groups. *)
Definition id_line : string := "id 2345 6789 0123.".

(** An override for one type, and two detected items. *)
Definition email_override : Policy :=
  [("email", Build_PiiRiskProfile high 0.9 "Contact data of customers.")].

Definition email_item : dict pyval :=
  [("type", PyStr "email"); ("value", PyStr "a@b.io")].

Definition phone_item : dict pyval :=
  [("type", PyStr "phone"); ("value", PyStr "555-123-4567")].

(** [["a@b.io", {"file": "f", "n": 3}]] *)
Definition plain_object : log_sanitize.obj :=
  log_sanitize.PyList
    [ log_sanitize.Atom (PyStr "a@b.io");
      log_sanitize.Dict [ ("file", log_sanitize.Atom (PyStr "f"));
                          ("n", log_sanitize.Atom (PyInt 3)) ] ].

(** [{"value": "a@b.io", "context": ({"value": [1]},)}] *)
Definition nested_object : log_sanitize.obj :=
  log_sanitize.Dict
    [ ("value", log_sanitize.Atom (PyStr "a@b.io"));
      ("context",
       log_sanitize.PyTuple
         [ log_sanitize.Dict
             [ ("value", log_sanitize.PyList [log_sanitize.Atom (PyInt 1)]) ] ]) ].

(* ================================================================= *)
(** * Theorems *)

(* ----------------------------------------------------------------- *)
(** ** Dictionaries *)

Lemma get_set_same {V : Type} (d : dict V) (k : string) (v : V) :
  get (set d k v) k = Some v.
Proof.
  induction d as [|[k' v'] d IH]; simpl.
  - now rewrite String.eqb_refl.
  - destruct (String.eqb k k') eqn:E; simpl; rewrite E; auto.
Qed.

Lemma get_set_other {V : Type} (d : dict V) (k k' : string) (v : V) :
  k' <> k -> get (set d k v) k' = get d k'.
Proof.
  intros Hne. induction d as [|[k0 v0] d IH]; simpl.
  - destruct (String.eqb k' k) eqn:E; auto.
    apply String.eqb_eq in E. contradiction.
  - destruct (String.eqb k k0) eqn:E; simpl.
    + apply String.eqb_eq in E. subst k0.
      destruct (String.eqb k' k) eqn:E'; auto.
      apply String.eqb_eq in E'. contradiction.
    + now rewrite IH.
Qed.

(* ----------------------------------------------------------------- *)
(** ** Matches consume characters *)

(** A match of [r] at a position ends at least [Re.min_len r] characters
    further; the three patterns of the detector never match the empty
    string, which is what [Re.scan] relies on when it resumes the search at
    the end of a match. *)

Section Advance.
Local Close Scope float_scope.
Local Close Scope Z_scope.
Local Open Scope nat_scope.

Lemma leave_advances (lo : nat) (k : Re.cont) (cu : Re.cursor) (e : nat) :
  Re.leave lo k cu = Some e -> lo = 0 /\ k cu = Some e.
Proof. destruct lo; [auto|discriminate]. Qed.

Lemma rep_advances (c : ascii -> bool) (k : Re.cont) (l : list ascii) :
  forall (lo : nat) (hi : option nat) (p : option ascii) (i e : nat),
    Re.rep c lo hi k p l i = Some e ->
    exists cu', k cu' = Some e /\ i + lo <= Re.pos cu'.
Proof.
  induction l as [|x l IH]; intros lo hi p i e H.
  - assert (L : Re.leave lo k (Re.Cursor p [] i) = Some e)
      by (destruct hi as [[|h]|]; exact H).
    apply leave_advances in L as [-> L]. exists (Re.Cursor p [] i).
    split; [exact L|simpl; lia].
  - assert (L : Re.leave lo k (Re.Cursor p (x :: l) i) = Some e
                \/ Re.rep c (Nat.pred lo) (option_map Nat.pred hi) k (Some x) l (S i)
                   = Some e).
    { cbn [Re.rep] in H. destruct hi as [[|h]|]; [now left| |];
        (destruct (c x); [|now left]);
        match type of H with
        | match ?r with _ => _ end = _ => destruct r eqn:E; [right; congruence|now left]
        end. }
    destruct L as [L|L].
    + apply leave_advances in L as [-> L]. exists (Re.Cursor p (x :: l) i).
      split; [exact L|simpl; lia].
    + apply IH in L as (cu' & Hk & Hpos). exists cu'. split; [exact Hk|lia].
Qed.

Lemma run_advances (r : Re.regex) :
  forall (k : Re.cont) (cu : Re.cursor) (e : nat),
    Re.run r k cu = Some e ->
    exists cu', k cu' = Some e /\ Re.pos cu + Re.min_len r <= Re.pos cu'.
Proof.
  induction r as [c|a IHa b IHb|a IHa b IHb|c lo hi|a IHa|c|a IHa|];
    intros k cu e H; cbn [Re.run Re.min_len] in *.
  - destruct (Re.rest cu) as [|x l]; [discriminate|].
    destruct (c x); [|discriminate].
    exists (Re.advance x l cu). split; [exact H|simpl; lia].
  - apply IHa in H as (cu1 & H & P1). apply IHb in H as (cu2 & H & P2).
    exists cu2. split; [exact H|lia].
  - destruct (Re.run a k cu) eqn:E.
    + injection H as ->. apply IHa in E as (cu' & Hk & P). exists cu'. split; [exact Hk|lia].
    + apply IHb in H as (cu' & Hk & P). exists cu'. split; [exact Hk|lia].
  - apply rep_advances in H as (cu' & Hk & P). exists cu'. split; [exact Hk|lia].
  - destruct (Re.run a k cu) eqn:E.
    + injection H as ->. apply IHa in E as (cu' & Hk & P). exists cu'. split; [exact Hk|lia].
    + exists cu. split; [exact H|lia].
  - exists cu. split; [|lia]. destruct (Re.prev cu) as [x|]; [|exact H].
    destruct (c x); [discriminate|exact H].
  - exists cu. split; [|lia].
    destruct (Re.run a (fun cu' => Some (Re.pos cu')) cu); [discriminate|exact H].
  - exists cu. split; [|lia].
    destruct (xorb (Re.word_before cu) (Re.word_after cu)); [exact H|discriminate].
Qed.

Lemma match_at_advances (r : Re.regex) (cu : Re.cursor) (e : nat) :
  Re.match_at r cu = Some e -> Re.pos cu + Re.min_len r <= e.
Proof.
  intros H. apply run_advances in H as (cu' & [= <-] & P). exact P.
Qed.

Lemma patterns_least_length :
  Re.min_len EMAIL_RE = 6 /\ Re.min_len PHONE_RE = 8 /\ Re.min_len AADHAAR_RE = 12.
Proof. repeat split; reflexivity. Qed.

Lemma scan_spans (r : Re.regex) (l : list ascii) :
  forall (p : option ascii) (i skip s e : nat),
    In (s, e) (Re.scan r p l i skip) -> i <= s /\ s + Re.min_len r <= e.
Proof.
  induction l as [|x l IH]; intros p i skip s e H.
  - destruct skip as [|skip]; cbn [Re.scan] in H; [|destruct H].
    destruct (Re.match_at r (Re.Cursor p [] i)) eqn:E; [|destruct H].
    destruct H as [[= <- <-]|[]]. apply match_at_advances in E. simpl in E. lia.
  - destruct skip as [|skip]; cbn [Re.scan] in H.
    + destruct (Re.match_at r (Re.Cursor p (x :: l) i)) eqn:E.
      * destruct H as [[= <- <-]|H].
        -- apply match_at_advances in E. simpl in E. lia.
        -- apply IH in H. lia.
      * apply IH in H. lia.
    + apply IH in H. lia.
Qed.

End Advance.

(* ----------------------------------------------------------------- *)
(** ** The detector on single lines *)


(** C1: on the line "Contact dummy.user@example.com or call 555-123-4567"
    the detector yields exactly the email dummy.user@example.com and one phone
    match whose digits are 5551234567; classified under the default policy
    (severities 0.5 and 0.7) and scored with confidence 1 they give
    combined_risk = 1 - (1-0.5)(1-0.7) = 0.85, score 85.0 and the label
    "critical" under the default thresholds. *)
Theorem C1_contact_line_scores_85_critical :
  forall (str_to_float : string -> option float)
         (filename : string) (line_number : Z),
    let found := _iter_matches_for_line filename line_number contact_line in
    found = [ Build_PiiMatch email "dummy.user@example.com" filename line_number;
              Build_PiiMatch phone "555-123-4567" filename line_number ]
    /\ Str.digits_only "555-123-4567" = "5551234567"
    /\ (1 - (1 - 0.5) * (1 - 0.7) = 0.85)%float
    /\ exists classified r,
         classify_pii_dicts (pii_matches_to_dicts found) DEFAULT_POLICY
         = Ok classified
         /\ map (fun d => get d "severity_weight") classified
            = [Some (PyFloat 0.5); Some (PyFloat 0.7)]
         /\ map (fun d => get d "risk_level") classified
            = [Some (PyStr "medium"); Some (PyStr "high")]
         /\ combined_risk str_to_float classified 1 = Ok 0.85%float
         /\ score_pii_findings str_to_float classified 1
                               DEFAULT_LABEL_THRESHOLDS = Ok r
         /\ score r = 85%float
         /\ label r = critical
         /\ item_count r = 2%nat.
Proof.
  intros str_to_float filename line_number found.
  assert (Hfound : found
          = [ Build_PiiMatch email "dummy.user@example.com" filename line_number;
              Build_PiiMatch phone "555-123-4567" filename line_number ])
    by (vm_compute; reflexivity).
  split; [exact Hfound|].
  split; [vm_compute; reflexivity|].
  split; [vm_compute; reflexivity|].
  rewrite Hfound.
  eexists. eexists.
  split; [vm_compute; reflexivity|].
  repeat split; vm_compute; reflexivity.
Qed.

(** C7: the 12-digit line "912345678901" (91 followed by ten digits) gives
    no national-ID match, and gives a phone match for the whole span, which
    has more than 7 digits. *)
Theorem C7_calling_code_number_is_phone_not_id :
  forall (filename : string) (line_number : Z),
    Re.finditer AADHAAR_RE "912345678901" = []
    /\ Re.finditer PHONE_RE "912345678901" = [(0, 12)%nat]
    /\ String.length (Str.digits_only "912345678901") = 12%nat
    /\ _iter_matches_for_line filename line_number "912345678901"
       = [Build_PiiMatch phone "912345678901" filename line_number].
Proof.
  intros filename line_number. repeat split; vm_compute; reflexivity.
Qed.

(* ----------------------------------------------------------------- *)
(** ** Overlapping matches *)


Lemma phone_hit_inv (line : string) (reserved : list span) (sp : span) (h : hit) :
  In h (phone_hit line reserved sp) ->
  hit_type h = phone /\ hit_span h = sp /\ overlaps_any reserved sp = false.
Proof.
  unfold phone_hit. destruct (overlaps_any reserved sp); [intros []|].
  destruct (String.length _ <? 7)%nat; [intros []|].
  intros [<-|[]]. auto.
Qed.



Lemma filter_all {A : Type} (f : A -> bool) (l : list A) :
  (forall x, In x l -> f x = true) -> filter f l = l.
Proof.
  induction l as [|a l IH]; simpl; intros H; auto.
  rewrite (H a) by auto. f_equal. apply IH. auto.
Qed.

Lemma filter_none {A : Type} (f : A -> bool) (l : list A) :
  (forall x, In x l -> f x = false) -> filter f l = [].
Proof.
  induction l as [|a l IH]; simpl; intros H; auto.
  rewrite (H a) by auto. apply IH. auto.
Qed.

Lemma phone_hits_type (line : string) (reserved : list span) (l : list span)
      (h : hit) :
  In h (flat_map (phone_hit line reserved) l) -> hit_type h = phone.
Proof.
  intros H. apply in_flat_map in H as (sp & _ & H).
  now apply phone_hit_inv in H.
Qed.




(* ----------------------------------------------------------------- *)
(** ** Policies *)

(** C8: an override that sets the email severity_weight to 0.10 (with any
    risk level and a rationale that is not blank) merges with the default
    policy into a policy that validates; an email finding classified under
    it reports severity_weight 0.10, and every other type keeps its default
    profile. *)
Theorem C8_email_override_merges_and_classifies :
  forall (level : RiskLevel) (why : string) (item : dict pyval),
    String.eqb (Str.strip why) "" = false ->
    get item "type" = Some (PyStr "email") ->
    exists merged classified,
      merge_policy DEFAULT_POLICY
                   [("email", Build_PiiRiskProfile level 0.10 why)] = Ok merged
      /\ validate_policy merged = Ok tt
      /\ classify_pii_dict item merged = Ok classified
      /\ get classified "severity_weight" = Some (PyFloat 0.10)
      /\ (forall t, t <> "email" -> get merged t = get DEFAULT_POLICY t).
Proof.
  intros level why item Hwhy Htype.
  set (override := Build_PiiRiskProfile level 0.10 why).
  set (merged := ("email", override) :: tl DEFAULT_POLICY).
  assert (Hval : validate_policy merged = Ok tt).
  { unfold merged, validate_policy, _validate_profile, bind; simpl.
    rewrite Hwhy. reflexivity. }
  exists merged.
  eexists.
  split.
  { unfold merge_policy.
    change (update DEFAULT_POLICY [("email", override)]) with merged.
    rewrite Hval. reflexivity. }
  split; [exact Hval|].
  split.
  { unfold classify_pii_dict, profile_of, Py.item, bind. rewrite Htype.
    unfold merged, _validate_profile; simpl. rewrite Hwhy. reflexivity. }
  split.
  { rewrite get_set_other by discriminate. apply get_set_same. }
  intros t Ht. unfold merged, DEFAULT_POLICY; simpl.
  destruct (String.eqb t "email") eqn:E; auto.
  apply String.eqb_eq in E. contradiction.
Qed.

Lemma C8_email_override_witness :
  exists merged classified,
    merge_policy DEFAULT_POLICY
      [("email", Build_PiiRiskProfile low 0.10 "Internal test corpus")]
    = Ok merged
    /\ validate_policy merged = Ok tt
    /\ classify_pii_dict
         [("type", PyStr "email"); ("value", PyStr "dummy.user@example.com");
          ("file", PyStr "dummy.txt"); ("line_number", PyInt 1)] merged
       = Ok classified
    /\ get classified "severity_weight" = Some (PyFloat 0.10)
    /\ (forall t, t <> "email" -> get merged t = get DEFAULT_POLICY t).
Proof.
  apply (C8_email_override_merges_and_classifies low "Internal test corpus");
    reflexivity.
Defined.

(* ----------------------------------------------------------------- *)
(** ** The line scanner *)

(** The claim of C9 as stated fails for [scan_bytes]: the buffer is decoded
    before the starting line number is checked, so with a strict codec and a
    byte it rejects the failure is the decode error, not the configuration
    error, although the starting line number is 0. *)
Lemma C9_decode_error_comes_first :
  file_scanner.scan_bytes file_scanner.decode_ascii_strict [xff] "<bytes>" false 0
  = Raise UnicodeDecodeError.
Proof. reflexivity. Qed.

(** C9 (amended): with a starting line number below 1, [scan_text_stream]
    fails with the configuration error, and so does [scan_bytes] whenever
    the buffer decodes (decoding comes first).  With a starting line number
    of at least 1, the empty stream gives the empty sequence, and so does the
    empty buffer under every codec that decodes it to the empty text. *)
Theorem C9_start_line_and_empty_input :
  forall (decode : list byte -> result string) (data : list byte)
         (stream : list string) (filename : string) (keep_newline : bool)
         (start_line : Z),
    ((start_line < 1)%Z ->
       file_scanner.scan_text_stream stream filename start_line keep_newline
       = Raise ValueError
       /\ (forall text, decode data = Ok text ->
             file_scanner.scan_bytes decode data filename keep_newline start_line
             = Raise ValueError))
    /\ ((1 <= start_line)%Z ->
          file_scanner.scan_text_stream [] filename start_line keep_newline
          = Ok []
          /\ (decode [] = Ok "" ->
                file_scanner.scan_bytes decode [] filename keep_newline start_line
                = Ok [])).
Proof.
  intros decode data stream filename keep_newline start_line.
  unfold file_scanner.scan_text_stream, file_scanner.scan_bytes.
  split; intros H.
  - apply Z.ltb_lt in H. rewrite H. split; [reflexivity|].
    intros text ->. reflexivity.
  - apply Z.ltb_ge in H. rewrite H. split; [reflexivity|].
    intros ->. reflexivity.
Qed.

Lemma C9_start_line_and_empty_input_witness :
  (file_scanner.scan_text_stream ["a"; "b"] "f" 0 false = Raise ValueError
   /\ file_scanner.scan_bytes file_scanner.decode_ascii_strict [x61; x0a; x62]
                              "f" false 0 = Raise ValueError)
  /\ (file_scanner.scan_text_stream [] "f" 1 false = Ok []
      /\ file_scanner.scan_bytes file_scanner.decode_ascii_strict []
                                 "f" false 1 = Ok []).
Proof.
  pose proof (C9_start_line_and_empty_input file_scanner.decode_ascii_strict
                [x61; x0a; x62] ["a"; "b"] "f" false 0) as [H0 _].
  pose proof (C9_start_line_and_empty_input file_scanner.decode_ascii_strict
                [] [] "f" false 1) as [_ H1].
  split.
  - destruct (H0 ltac:(lia)) as [Ha Hb]. split; [exact Ha|].
    apply (Hb _ eq_refl).
  - destruct (H1 ltac:(lia)) as [Ha Hb]. split.
    + exact Ha.
    + exact (Hb eq_refl).
Defined.

(* ----------------------------------------------------------------- *)
(** ** Labels: the mapping must not be empty *)

Lemma insert_item_in (x y : RiskLabel * float) (l : list (RiskLabel * float)) :
  In x (insert_item y l) <-> x = y \/ In x l.
Proof.
  induction l as [|z l IH]; simpl.
  - intuition congruence.
  - destruct (snd z <? snd y)%float; simpl; rewrite ?IH; intuition congruence.
Qed.

Lemma sorted_items_in (x : RiskLabel * float) (thresholds : Thresholds) :
  In x (sorted_items thresholds) <-> In x thresholds.
Proof.
  induction thresholds as [|y l IH]; simpl; [tauto|].
  rewrite insert_item_in, IH. intuition congruence.
Qed.

Lemma scan_label_in (score : float) (ordered : list (RiskLabel * float))
      (label : RiskLabel) :
  scan_label score label ordered = label
  \/ In (scan_label score label ordered) (map fst ordered).
Proof.
  revert label. induction ordered as [|[k v] l IH]; intros label; simpl; auto.
  unfold scan_label in *. simpl.
  destruct (v <=? score)%float.
  - destruct (IH k) as [-> | H]; auto.
  - destruct (IH label) as [-> | H]; auto.
Qed.

(** C10: on every non-empty thresholds mapping and for every score,
    [risk_label_for_score] returns one of the keys of the mapping; on the
    empty mapping it fails, because the sorted list has no first element. *)
Theorem C10_label_needs_nonempty_thresholds :
  forall (score : float) (thresholds : Thresholds),
    thresholds <> [] ->
    (exists k, risk_label_for_score score thresholds = Ok k
               /\ In k (map fst thresholds))
    /\ risk_label_for_score score [] = Raise IndexError.
Proof.
  intros score thresholds Hne. split; [|reflexivity].
  unfold risk_label_for_score.
  destruct (sorted_items thresholds) as [|first rest] eqn:E.
  - destruct thresholds as [|x l]; [contradiction|].
    assert (H : In x (sorted_items (x :: l))) by (apply sorted_items_in; now left).
    rewrite E in H. destruct H.
  - eexists. split; [reflexivity|].
    assert (Hin : forall k, In k (map fst (first :: rest)) ->
                            In k (map fst thresholds)).
    { intros k Hk. apply in_map_iff in Hk as (kv & <- & Hkv).
      apply in_map. apply sorted_items_in. now rewrite E. }
    destruct (scan_label_in score (first :: rest) (fst first)) as [-> | H].
    + apply Hin. now left.
    + apply Hin. exact H.
Qed.

Lemma C10_label_needs_nonempty_witness :
  (exists k, risk_label_for_score 85 DEFAULT_LABEL_THRESHOLDS = Ok k
             /\ In k (map fst DEFAULT_LABEL_THRESHOLDS))
  /\ risk_label_for_score 85 [] = Raise IndexError.
Proof.
  apply (C10_label_needs_nonempty_thresholds 85 DEFAULT_LABEL_THRESHOLDS).
  discriminate.
Defined.

(* ----------------------------------------------------------------- *)
(** ** Binary64 numbers: the order *)

(** The comparisons of [float] are those of the exact values: the lemmas
    below derive this from the specification of the primitive operations
    ([FloatAxioms]), for every number that is not NaN. *)

Open Scope Z_scope.

Lemma digits2_log2 (p : positive) : Zpos (digits2_pos p) = Z.log2 (Zpos p) + 1.
Proof.
  assert (H : forall q, digits2_pos q = Pos.size q).
  { induction q; simpl; congruence. }
  rewrite H. destruct p; simpl; try reflexivity; rewrite Pos.add_1_r; reflexivity.
Qed.

Lemma digits2_bounds (p : positive) :
  2 ^ (Zpos (digits2_pos p) - 1) <= Zpos p < 2 ^ Zpos (digits2_pos p).
Proof.
  rewrite digits2_log2.
  replace (Z.log2 (Zpos p) + 1 - 1) with (Z.log2 (Zpos p)) by lia.
  pose proof (Z.log2_spec (Zpos p) ltac:(lia)) as H.
  unfold Z.succ in H. exact H.
Qed.


Lemma valid_finite (s : bool) (m : positive) (e : Z) :
  valid_binary (S754_finite s m e) = true ->
  -1074 <= e <= 971
  /\ Zpos (digits2_pos m) <= 53
  /\ (e = -1074 \/ Zpos (digits2_pos m) = 53).
Proof.
  unfold SpecFloat.valid_binary, bounded, canonical_mantissa, fexp, SpecFloat.emin, prec, emax.
  intros H. apply andb_true_iff in H as [H1 H2].
  apply Z.eqb_eq in H1. apply Z.leb_le in H2. lia.
Qed.

Lemma pow2_pos (k : Z) : 0 <= k -> 0 < 2 ^ k.
Proof. intros. apply Z.pow_pos_nonneg; lia. Qed.

Lemma pow2_le (a b : Z) : 0 <= a <= b -> 2 ^ a <= 2 ^ b.
Proof. intros. apply Z.pow_le_mono_r; lia. Qed.

Lemma pow2_lt (a b : Z) : 0 <= a < b -> 2 ^ a < 2 ^ b.
Proof. intros. apply Z.pow_lt_mono_r; lia. Qed.

Lemma finite_range (s : bool) (m : positive) (e : Z) :
  valid_binary (S754_finite s m e) = true ->
  0 < Zpos m * 2 ^ (e + 1074) < INF.
Proof.
  intros H. apply valid_finite in H as (He & Hd & _).
  pose proof (digits2_bounds m) as [_ Hm].
  pose proof (pow2_pos (e + 1074) ltac:(lia)) as Hp.
  split; [lia|].
  assert (Zpos m < 2 ^ 53).
  { eapply Z.lt_le_trans; [exact Hm|]. apply pow2_le. lia. }
  apply Z.lt_le_trans with (2 ^ 53 * 2 ^ (e + 1074)).
  - apply Z.mul_lt_mono_pos_r; lia.
  - rewrite <- Z.pow_add_r by lia. apply pow2_le. lia.
Qed.

(* two valid positive finite numbers: the exponent decides *)
Lemma exponent_decides (m1 m2 : positive) (e1 e2 : Z) :
  valid_binary (S754_finite false m1 e1) = true ->
  valid_binary (S754_finite false m2 e2) = true ->
  e1 < e2 ->
  Zpos m1 * 2 ^ (e1 + 1074) < Zpos m2 * 2 ^ (e2 + 1074).
Proof.
  intros H1 H2 Hlt.
  apply valid_finite in H1 as (He1 & Hd1 & _).
  apply valid_finite in H2 as (He2 & Hd2 & Hc2).
  destruct Hc2 as [Hc2|Hc2]; [lia|].
  pose proof (digits2_bounds m1) as [_ Hm1].
  pose proof (digits2_bounds m2) as [Hm2 _]. rewrite Hc2 in Hm2. simpl in Hm2.
  assert (Zpos m1 < 2 ^ 53).
  { eapply Z.lt_le_trans; [exact Hm1|]. apply pow2_le. lia. }
  apply Z.lt_le_trans with (2 ^ 53 * 2 ^ (e1 + 1074)).
  - apply Z.mul_lt_mono_pos_r; [apply pow2_pos|]; lia.
  - apply Z.le_trans with (2 ^ 52 * 2 ^ (e2 + 1074)).
    + rewrite <- !Z.pow_add_r by lia. apply pow2_le. lia.
    + apply Z.mul_le_mono_nonneg_r; [|exact Hm2].
      apply Z.lt_le_incl, pow2_pos. lia.
Qed.

Ltac cmp_Z :=
  f_equal; symmetry;
  first [ apply Z.compare_eq_iff; lia
        | apply Z.compare_lt_iff; lia
        | apply Z.compare_gt_iff; lia ].

Lemma SFcompare_fval (x y : spec_float) :
  valid_binary x = true -> valid_binary y = true ->
  x <> S754_nan -> y <> S754_nan ->
  SFcompare x y = Some (fval_SF x ?= fval_SF y).
Proof.
  intros Vx Vy Nx Ny.
  assert (HI : 0 < INF) by (apply pow2_pos; lia).
  destruct x as [sx|sx| |sx mx ex], y as [sy|sy| |sy my ey];
    try congruence;
    try pose proof (finite_range _ _ _ Vx) as Rx;
    try pose proof (finite_range _ _ _ Vy) as Ry;
    try (destruct sx); try (destruct sy);
    cbn [fval_SF cond_Zopp SFcompare]; try cmp_Z.
  - (* both negative *)
    f_equal. destruct (Z.compare_spec ex ey) as [E|E|E].
    + subst ey. change (Pos.compare_cont Eq mx my) with (Pos.compare mx my).
      rewrite Z.compare_opp.
      pose proof (valid_finite _ _ _ Vx) as (? & _).
      rewrite <- Zmult_compare_compat_r by (apply Z.lt_gt, pow2_pos; lia).
      change (Z.pos my ?= Z.pos mx) with (Pos.compare my mx).
      now rewrite (Pos.compare_antisym mx my).
    + symmetry. apply Z.compare_gt_iff.
      pose proof (exponent_decides mx my ex ey Vx Vy E). lia.
    + symmetry. apply Z.compare_lt_iff.
      pose proof (exponent_decides my mx ey ex Vy Vx ltac:(lia)). lia.
  - f_equal. destruct (Z.compare_spec ex ey) as [E|E|E].
    + subst ey. change (Pos.compare_cont Eq mx my) with (Pos.compare mx my).
      pose proof (valid_finite _ _ _ Vx) as (? & _).
      rewrite <- Zmult_compare_compat_r by (apply Z.lt_gt, pow2_pos; lia). reflexivity.
    + symmetry. apply Z.compare_lt_iff.
      apply (exponent_decides mx my ex ey Vx Vy E).
    + symmetry. apply Z.compare_gt_iff.
      pose proof (exponent_decides my mx ey ex Vy Vx ltac:(lia)). lia.
Qed.


Open Scope float_scope.

Lemma is_nan_SF (x : float) : is_nan x = false <-> Prim2SF x <> S754_nan.
Proof.
  unfold is_nan. rewrite eqb_spec. unfold SFeqb.
  destruct (Prim2SF x) eqn:E.
  1,2,4: rewrite <- E; rewrite SFcompare_fval, Z.compare_refl by
      (try apply Prim2SF_valid; rewrite E; discriminate);
    simpl; split; [rewrite E; discriminate | reflexivity].
  simpl. split; [discriminate | congruence].
Qed.

Lemma compare_fval (x y : float) :
  is_nan x = false -> is_nan y = false ->
  SFcompare (Prim2SF x) (Prim2SF y) = Some (fval x ?= fval y)%Z.
Proof.
  intros Hx Hy. apply SFcompare_fval; try apply Prim2SF_valid; now apply is_nan_SF.
Qed.

Lemma leb_fval (x y : float) :
  is_nan x = false -> is_nan y = false -> (x <=? y) = (fval x <=? fval y)%Z.
Proof.
  intros Hx Hy. rewrite leb_spec. unfold SFleb. rewrite compare_fval by assumption.
  unfold Z.leb. destruct (fval x ?= fval y)%Z; reflexivity.
Qed.

Lemma ltb_fval (x y : float) :
  is_nan x = false -> is_nan y = false -> (x <? y) = (fval x <? fval y)%Z.
Proof.
  intros Hx Hy. rewrite ltb_spec. unfold SFltb. rewrite compare_fval by assumption.
  unfold Z.ltb. destruct (fval x ?= fval y)%Z; reflexivity.
Qed.

Lemma compare_nan (x y : float) :
  is_nan x = true \/ is_nan y = true ->
  SFcompare (Prim2SF x) (Prim2SF y) = None.
Proof.
  intros H.
  assert (Hn : forall z, is_nan z = true -> Prim2SF z = S754_nan).
  { intros z Hz. destruct (Prim2SF z) eqn:E; auto;
      assert (is_nan z = false) by (apply is_nan_SF; rewrite E; discriminate);
      congruence. }
  destruct H as [H|H]; rewrite (Hn _ H); [reflexivity|].
  destruct (Prim2SF x); reflexivity.
Qed.

Lemma leb_nan (x y : float) :
  is_nan x = true \/ is_nan y = true -> (x <=? y) = false.
Proof. intros H. rewrite leb_spec. unfold SFleb. now rewrite compare_nan. Qed.

Lemma ltb_nan (x y : float) :
  is_nan x = true \/ is_nan y = true -> (x <? y) = false.
Proof. intros H. rewrite ltb_spec. unfold SFltb. now rewrite compare_nan. Qed.

Lemma leb_true_number (x y : float) :
  (x <=? y) = true -> is_nan x = false /\ is_nan y = false.
Proof.
  intros H. destruct (is_nan x) eqn:Ex.
  - rewrite leb_nan in H by auto. discriminate.
  - destruct (is_nan y) eqn:Ey; auto.
    rewrite leb_nan in H by auto. discriminate.
Qed.

(* ----------------------------------------------------------------- *)
(** ** Binary64 numbers: rounding *)

(** [binary_round_aux], through which every operation of the specification
    rounds, computes [RN] of the exact result; [RN] is monotone and leaves
    the values of binary64 numbers unchanged. *)

Open Scope Z_scope.

(* iteration *)
Lemma iter_pos_nat {A : Type} (f : A -> A) (p : positive) (x : A) :
  iter_pos f p x = Nat.iter (Pos.to_nat p) f x.
Proof.
  revert x. induction p as [p IH|p IH|]; intros x; simpl iter_pos.
  - rewrite !IH, Pos2Nat.inj_xI.
    replace (S (2 * Pos.to_nat p))%nat with (S (Pos.to_nat p + Pos.to_nat p))%nat by lia.
    now rewrite Nat.iter_succ_r, Nat.iter_add.
  - rewrite !IH, Pos2Nat.inj_xO.
    replace (2 * Pos.to_nat p)%nat with (Pos.to_nat p + Pos.to_nat p)%nat by lia.
    now rewrite Nat.iter_add.
  - reflexivity.
Qed.


Lemma shr_1_spec (m : Z) (r s : bool) :
  0 <= m ->
  shr_1 (Build_shr_record m r s)
  = Build_shr_record (m / 2) (Z.odd m) (r || s).
Proof.
  intros Hm. unfold shr_1.
  destruct m as [|p|p]; [reflexivity| |lia].
  destruct p as [p|p|]; try reflexivity.
  - replace (Z.pos p~1 / 2) with (Z.pos p); [reflexivity|].
    apply Z.div_unique with 1; lia.
  - replace (Z.pos p~0 / 2) with (Z.pos p); [reflexivity|].
    apply Z.div_unique with 0; lia.
Qed.

Lemma shifted_step (m k : Z) (mrs : shr_record) :
  0 <= m -> 0 <= k -> shifted m k mrs -> shifted m (k + 1) (shr_1 mrs).
Proof.
  intros Hm Hk [Hq Hr]. destruct mrs as [q r s].
  cbn [shr_m shr_r shr_s] in Hq, Hr. subst q.
  assert (Hp : 0 < 2 ^ k) by (apply pow2_pos; lia).
  rewrite shr_1_spec by (apply Z.div_pos; lia).
  unfold shifted; cbn [shr_m shr_r shr_s].
  assert (E1 : 2 ^ (k + 1) = 2 ^ k * 2) by (rewrite Z.pow_add_r; lia).
  rewrite E1.
  split.
  - rewrite Z.div_div by lia. reflexivity.
  - rewrite Z.rem_mul_r by lia.
    pose proof (Z.mod_pos_bound m (2 ^ k) Hp) as Hb.
    set (rho := m mod 2 ^ k) in *.
    rewrite (Zmod_odd (m / 2 ^ k)).
    destruct (Z.odd (m / 2 ^ k)), r, s; cbn [orb] in *; lia.
Qed.

Lemma shifted_iter (m : Z) (n : nat) :
  0 <= m ->
  shifted m (Z.of_nat n) (Nat.iter n shr_1 (Build_shr_record m false false)).
Proof.
  intros Hm. induction n as [|n IH].
  - unfold shifted; cbn [Nat.iter nat_rect shr_m shr_r shr_s Z.of_nat].
    rewrite Z.pow_0_r, Z.div_1_r, Z.mod_1_r. auto.
  - rewrite Nat2Z.inj_succ. unfold Z.succ. simpl Nat.iter.
    apply shifted_step; auto. lia.
Qed.

(* rounding to nearest even of the record = half-even division *)
Lemma round_shifted (m k : Z) (mrs : shr_record) :
  0 <= m -> 0 <= k -> shifted m k mrs ->
  round_nearest_even (shr_m mrs) (loc_of_shr_record mrs)
  = div_half_even m (2 ^ k).
Proof.
  intros Hm Hk [Hq Hr]. unfold div_half_even.
  destruct mrs as [q r s]. cbn [shr_m shr_r shr_s] in *. subst q.
  assert (Hp : 0 < 2 ^ k) by (apply pow2_pos; lia).
  destruct r, s; cbn [loc_of_shr_record round_nearest_even].
  - destruct (Z.compare_spec (2 * (m mod 2 ^ k)) (2 ^ k)); first [lia | reflexivity].
  - rewrite Hr, Z.compare_refl. reflexivity.
  - destruct (Z.compare_spec (2 * (m mod 2 ^ k)) (2 ^ k)); first [lia | reflexivity].
  - rewrite Hr. rewrite Z.mul_0_r.
    destruct (Z.compare_spec 0 (2 ^ k)); first [lia | reflexivity].
Qed.

(* the first shift of [binary_round_aux] *)
Lemma shr_spec (m e n : Z) :
  0 <= m -> 0 <= n ->
  let '(mrs, e') := shr (Build_shr_record m false false) e n in
  e' = e + n /\ shifted m n mrs.
Proof.
  intros Hm Hn. unfold shr. destruct n as [|p|p]; [| |lia].
  - split; [lia|]. apply (shifted_iter m 0 Hm).
  - split; [reflexivity|]. rewrite iter_pos_nat.
    rewrite <- (positive_nat_Z p). apply shifted_iter. exact Hm.
Qed.


Lemma div_half_even_scale (a b c : Z) :
  0 < b -> 0 < c ->
  div_half_even (a * c) (b * c) = div_half_even a b.
Proof.
  intros Hb Hc. unfold div_half_even.
  rewrite Z.div_mul_cancel_r by lia.
  rewrite Z.mul_mod_distr_r by lia.
  replace (2 * (a mod b * c)) with (2 * (a mod b) * c) by lia.
  rewrite <- Zmult_compare_compat_r by lia. reflexivity.
Qed.

Lemma div_half_even_bounds (a b : Z) :
  0 <= a -> 0 < b ->
  a / b <= div_half_even a b <= a / b + 1.
Proof.
  intros Ha Hb. unfold div_half_even.
  destruct (2 * (a mod b) ?= b); try destruct (Z.even (a / b)); lia.
Qed.

Lemma div_half_even_exact (q b : Z) :
  0 < b -> div_half_even (q * b) b = q.
Proof.
  intros Hb. unfold div_half_even.
  rewrite Z.div_mul, Z.mod_mul by lia.
  destruct (Z.compare_spec (2 * 0) b); first [lia | reflexivity].
Qed.

Lemma Zdigits2_log2 (m : Z) : 0 < m -> Zdigits2 m = Z.log2 m + 1.
Proof. intros H. destruct m; try lia. apply digits2_log2. Qed.

Lemma bra_value (s : bool) (m : positive) (e : Z) :
  -2148 <= e ->
  e <= fexp prec emax (Zpos (digits2_pos m) + e) ->
  Zpos (digits2_pos m) + e <= 1023 ->
  let r := binary_round_aux prec emax s (Zpos m) e loc_Exact in
  r <> S754_nan
  /\ fval_SF r = cond_Zopp s (RN (Zpos m * 2 ^ (e + 2148))).
Proof.
  intros He Hn Hov.
  unfold binary_round_aux, shr_fexp.
  cbn [shr_record_of_loc Zdigits2].
  pose proof (digits2_bounds m) as [Hm1 Hm2].
  pose proof (digits2_log2 m) as Hlog.
  remember (Zpos (digits2_pos m)) as d eqn:Ed.
  assert (Hd : 1 <= d) by lia. clear Ed.
  remember (fexp prec emax (d + e)) as fe eqn:Efe.
  assert (Hfe : fe = Z.max (d + e - 53) (-1074)) by (rewrite Efe; reflexivity).
  clear Efe.
  assert (Hn' : 0 <= fe - e) by lia.
  pose proof (shr_spec (Zpos m) e (fe - e) (Pos2Z.is_nonneg m) Hn') as H1.
  destruct (shr {| shr_m := Z.pos m; shr_r := false; shr_s := false |} e (fe - e))
    as [mrs e'] eqn:E1.
  destruct H1 as [He' Hsh]. replace (e + (fe - e)) with fe in He' by lia. subst e'.
  rewrite (round_shifted _ _ _ (Pos2Z.is_nonneg m) Hn' Hsh).
  set (q1 := div_half_even (Zpos m) (2 ^ (fe - e))).
  (* the fval the rounding function gives *)
  assert (Hp : 0 < 2 ^ (fe - e)) by (apply pow2_pos; lia).
  assert (Hc : 0 < 2 ^ (e + 2148)) by (apply pow2_pos; lia).
  assert (HRN : RN (Zpos m * 2 ^ (e + 2148)) = q1 * 2 ^ (fe + 1074)).
  { unfold RN. rewrite Z.log2_mul_pow2 by lia.
    replace (Z.max (e + 2148 + Z.log2 (Z.pos m) - 52) 1074) with (fe + 2148)
      by lia.
    replace (fe + 2148 - 1074) with (fe + 1074) by lia.
    replace (2 ^ (fe + 2148)) with (2 ^ (fe - e) * 2 ^ (e + 2148))
      by (rewrite <- Z.pow_add_r by lia; f_equal; lia).
    rewrite div_half_even_scale by lia. reflexivity. }
  rewrite HRN.
  (* the rounded mantissa has at most 53 bits, or is 2^53 *)
  assert (Hq1 : 0 <= q1 <= 2 ^ 53).
  { pose proof (div_half_even_bounds (Zpos m) (2 ^ (fe - e)) ltac:(lia) Hp) as Hb.
    fold q1 in Hb.
    assert (Zpos m / 2 ^ (fe - e) < 2 ^ 53).
    { apply Z.div_lt_upper_bound; [lia|].
      rewrite <- Z.pow_add_r by lia.
      eapply Z.lt_le_trans; [exact Hm2|]. apply pow2_le. lia. }
    pose proof (Z.div_pos (Zpos m) (2 ^ (fe - e)) ltac:(lia) Hp). lia. }
  assert (Hfe2 : 0 < 2 ^ (fe + 1074)) by (apply pow2_pos; lia).
  destruct (Z.eq_dec q1 0) as [Z0|NZ].
  { (* underflow to zero *)
    rewrite Z0. cbn [shr_record_of_loc Zdigits2].
    unfold shr.
    destruct (fexp prec emax (0 + fe) - fe) eqn:En.
    - cbn [shr_m fst]. split; [discriminate|]. destruct s; reflexivity.
    - exfalso. revert En. unfold fexp, SpecFloat.emin, prec, emax. lia.
    - cbn [shr_m fst]. split; [discriminate|]. destruct s; reflexivity. }
  destruct (Z.eq_dec q1 (2 ^ 53)) as [Top|NTop].
  { (* the mantissa overflowed to 2^53: one more shift, exactly *)
    rewrite Top.
    replace (fexp prec emax (Zdigits2 (2 ^ 53) + fe) - fe) with 1
      by (change (Zdigits2 (2 ^ 53)) with 54;
          unfold fexp, SpecFloat.emin, prec, emax; lia).
    cbn [shr_record_of_loc shr iter_pos].
    change (shr_1 {| shr_m := 2 ^ 53; shr_r := false; shr_s := false |})
      with {| shr_m := 4503599627370496; shr_r := false; shr_s := false |}.
    cbn [shr_m].
    replace (fe + 1 <=? emax - prec) with true
      by (symmetry; apply Z.leb_le; unfold emax, prec; lia).
    split; [discriminate|]. cbn [fval_SF]. f_equal.
    replace (fe + 1 + 1074) with (1 + (fe + 1074)) by lia.
    rewrite (Z.pow_add_r 2 1) by lia.
    change (2 ^ 53) with (4503599627370496 * 2 ^ 1). lia. }
  (* the ordinary case *)
  assert (Hpos : 0 < q1 < 2 ^ 53) by lia.
  destruct q1 as [|q|q] eqn:Eq1; try lia.
  assert (Hdq : Zpos (digits2_pos q) <= 53).
  { rewrite digits2_log2.
    assert (Z.log2 (Zpos q) < 53); [|lia].
    apply Z.log2_lt_pow2; lia. }
  cbn [shr_record_of_loc Zdigits2]. unfold shr.
  destruct (fexp prec emax (Z.pos (digits2_pos q) + fe) - fe) eqn:En.
  2: { exfalso. revert En. unfold fexp, SpecFloat.emin, prec, emax. lia. }
  all: cbn [shr_m];
    replace (fe <=? emax - prec) with true
      by (symmetry; apply Z.leb_le; unfold emax, prec; lia);
    split; [discriminate|reflexivity].
Qed.

Lemma div_half_even_mono (a1 a2 b : Z) :
  0 <= a1 <= a2 -> 0 < b ->
  div_half_even a1 b <= div_half_even a2 b.
Proof.
  intros Ha Hb.
  assert (Hq : a1 / b <= a2 / b) by (apply Z.div_le_mono; lia).
  destruct (Z.eq_dec (a1 / b) (a2 / b)) as [E|NE].
  - unfold div_half_even. rewrite <- E.
    pose proof (Z.div_mod a1 b ltac:(lia)) as D1.
    pose proof (Z.div_mod a2 b ltac:(lia)) as D2.
    rewrite <- E in D2.
    assert (Hr : a1 mod b <= a2 mod b) by lia.
    destruct (Z.compare_spec (2 * (a1 mod b)) b);
      destruct (Z.compare_spec (2 * (a2 mod b)) b);
      try destruct (Z.even (a1 / b)); lia.
  - pose proof (div_half_even_bounds a1 b ltac:(lia) Hb).
    pose proof (div_half_even_bounds a2 b ltac:(lia) Hb). lia.
Qed.

Lemma RN_0 : RN 0 = 0.
Proof. reflexivity. Qed.

Lemma RN_nonneg (W : Z) : 0 <= W -> 0 <= RN W.
Proof.
  intros HW. unfold RN.
  set (k := Z.max (Z.log2 W - 52) 1074).
  assert (0 < 2 ^ k) by (apply pow2_pos; lia).
  assert (0 < 2 ^ (k - 1074)) by (apply pow2_pos; lia).
  pose proof (div_half_even_bounds W (2 ^ k) HW ltac:(lia)).
  pose proof (Z.div_pos W (2 ^ k) HW ltac:(lia)).
  apply Z.mul_nonneg_nonneg; lia.
Qed.

Lemma RN_mono (W1 W2 : Z) : 0 <= W1 <= W2 -> RN W1 <= RN W2.
Proof.
  intros [H1 H12]. unfold RN.
  pose proof (Z.log2_le_mono W1 W2 H12) as Hlog.
  remember (Z.max (Z.log2 W1 - 52) 1074) as k1 eqn:E1.
  remember (Z.max (Z.log2 W2 - 52) 1074) as k2 eqn:E2.
  assert (Hk : 1074 <= k1 <= k2) by lia.
  assert (P1 : 0 < 2 ^ k1) by (apply pow2_pos; lia).
  assert (P2 : 0 < 2 ^ k2) by (apply pow2_pos; lia).
  destruct (Z.eq_dec k1 k2) as [E|NE].
  - subst k2. rewrite <- E.
    apply Z.mul_le_mono_nonneg_r.
    + apply Z.lt_le_incl, pow2_pos. lia.
    + apply div_half_even_mono; lia.
  - assert (Hlt : k1 < k2) by lia.
    assert (Hk2 : k2 = Z.log2 W2 - 52) by lia.
    assert (HW2 : 0 < W2).
    { destruct (Z.eq_dec W2 0) as [Z0|]; [|lia].
      subst W2. change (Z.log2 0) with 0 in *. lia. }
    (* the larger one has a full mantissa *)
    assert (L2 : 2 ^ 52 <= div_half_even W2 (2 ^ k2)).
    { pose proof (div_half_even_bounds W2 (2 ^ k2) ltac:(lia) P2).
      assert (2 ^ 52 <= W2 / 2 ^ k2); [|lia].
      apply Z.div_le_lower_bound; [lia|].
      rewrite <- Z.pow_add_r by lia.
      replace (k2 + 52) with (Z.log2 W2) by lia.
      apply Z.log2_spec. lia. }
    (* the smaller one has a mantissa of at most 2^53 *)
    assert (L1 : div_half_even W1 (2 ^ k1) <= 2 ^ 53).
    { pose proof (div_half_even_bounds W1 (2 ^ k1) ltac:(lia) P1).
      assert (W1 / 2 ^ k1 < 2 ^ 53); [|lia].
      apply Z.div_lt_upper_bound; [lia|].
      rewrite <- Z.pow_add_r by lia.
      destruct (Z.eq_dec W1 0) as [Z0|NZ].
      - subst W1. apply pow2_pos. lia.
      - pose proof (Z.log2_spec W1 ltac:(lia)) as [_ Hs].
        eapply Z.lt_le_trans; [exact Hs|]. apply pow2_le.
        pose proof (Z.log2_nonneg W1). lia. }
    apply Z.le_trans with (2 ^ 53 * 2 ^ (k1 - 1074)).
    + apply Z.mul_le_mono_nonneg_r; [apply Z.lt_le_incl, pow2_pos; lia | exact L1].
    + apply Z.le_trans with (2 ^ 52 * 2 ^ (k2 - 1074)).
      * rewrite <- !Z.pow_add_r by lia. apply pow2_le. lia.
      * apply Z.mul_le_mono_nonneg_r; [apply Z.lt_le_incl, pow2_pos; lia | exact L2].
Qed.

(* representable numbers are fixed points *)
Lemma RN_fixes_SF (x : spec_float) :
  valid_binary x = true -> 0 <= fval_SF x < INF ->
  RN (fval_SF x * 2 ^ 1074) = fval_SF x.
Proof.
  intros V R. destruct x as [s|s| |s m e]; try reflexivity.
  - destruct s; simpl in R; unfold INF in *; lia.
  - pose proof (finite_range _ _ _ V) as Rf.
    destruct s; cbn [fval_SF cond_Zopp] in *; [lia|].
    apply valid_finite in V as (He & Hd & Hc).
    pose proof (digits2_log2 m) as Hlog.
    unfold RN.
    replace (Z.pos m * 2 ^ (e + 1074) * 2 ^ 1074) with (Z.pos m * 2 ^ (e + 2148))
      by (rewrite <- Z.mul_assoc, <- Z.pow_add_r by lia; do 2 f_equal; lia).
    rewrite Z.log2_mul_pow2 by lia.
    replace (Z.max (e + 2148 + Z.log2 (Z.pos m) - 52) 1074) with (e + 2148) by lia.
    rewrite div_half_even_exact by (apply pow2_pos; lia).
    do 2 f_equal. lia.
Qed.


Lemma INF_gt_SMALL : SMALL < INF.
Proof. unfold SMALL, INF. apply pow2_lt. lia. Qed.

Lemma pow2_le_inv (a b : Z) : 0 <= a -> 0 <= b -> 2 ^ a <= 2 ^ b -> a <= b.
Proof. intros Ha Hb H. apply (Z.pow_le_mono_r_iff 2); lia. Qed.

Lemma small_digits (m : positive) (e : Z) :
  -1074 <= e ->
  Zpos m * 2 ^ (e + 1074) <= SMALL ->
  Zpos (digits2_pos m) + e <= 9.
Proof.
  intros He H. pose proof (digits2_bounds m) as [Hm _].
  remember (Zpos (digits2_pos m)) as d eqn:Ed.
  assert (Hd : 1 <= d) by lia. clear Ed.
  assert (X : 2 ^ (d - 1 + (e + 1074)) <= 2 ^ 1082).
  { rewrite Z.pow_add_r by lia.
    eapply Z.le_trans; [|exact H].
    apply Z.mul_le_mono_nonneg_r; [apply Z.lt_le_incl, pow2_pos; lia|exact Hm]. }
  apply pow2_le_inv in X; lia.
Qed.

Lemma nonneg_SF (x : spec_float) :
  valid_binary x = true -> x <> S754_nan -> 0 <= fval_SF x <= SMALL ->
  (exists s, x = S754_zero s) \/ (exists m e, x = S754_finite false m e).
Proof.
  intros V N R. pose proof INF_gt_SMALL.
  destruct x as [s|s| |s m e]; try congruence.
  - left. eauto.
  - assert (0 < INF) by (apply pow2_pos; lia).
    destruct s; cbn [fval_SF cond_Zopp] in R; lia.
  - pose proof (finite_range _ _ _ V).
    destruct s; cbn [fval_SF cond_Zopp] in R; [lia|]. right. eauto.
Qed.

Lemma digits2_mul (m1 m2 : positive) :
  Zpos (digits2_pos m1) + Zpos (digits2_pos m2) - 1
  <= Zpos (digits2_pos (m1 * m2))
  <= Zpos (digits2_pos m1) + Zpos (digits2_pos m2).
Proof.
  pose proof (digits2_bounds m1) as [A1 B1].
  pose proof (digits2_bounds m2) as [A2 B2].
  pose proof (digits2_bounds (m1 * m2)) as [A B].
  rewrite Pos2Z.inj_mul in A, B.
  remember (Zpos (digits2_pos m1)) as d1 eqn:E1.
  remember (Zpos (digits2_pos m2)) as d2 eqn:E2.
  remember (Zpos (digits2_pos (m1 * m2))) as d eqn:E.
  assert (1 <= d1 /\ 1 <= d2 /\ 1 <= d) as (? & ? & ?) by lia.
  clear E1 E2 E.
  split.
  - assert (X : 2 ^ (d1 - 1 + (d2 - 1)) < 2 ^ d).
    { rewrite Z.pow_add_r by lia.
      eapply Z.le_lt_trans; [|exact B].
      apply Z.mul_le_mono_nonneg; try lia;
        apply Z.lt_le_incl, pow2_pos; lia. }
    apply Z.pow_lt_mono_r_iff in X; lia.
  - assert (X : 2 ^ (d - 1) < 2 ^ (d1 + d2)).
    { rewrite Z.pow_add_r by lia.
      eapply Z.le_lt_trans; [exact A|].
      apply Z.mul_lt_mono_nonneg; lia. }
    apply Z.pow_lt_mono_r_iff in X; lia.
Qed.

Lemma mul_SF_value (x y : spec_float) :
  valid_binary x = true -> valid_binary y = true ->
  x <> S754_nan -> y <> S754_nan ->
  0 <= fval_SF x <= SMALL -> 0 <= fval_SF y <= SMALL ->
  SFmul prec emax x y <> S754_nan
  /\ fval_SF (SFmul prec emax x y) = RN (fval_SF x * fval_SF y).
Proof.
  intros Vx Vy Nx Ny Rx Ry.
  destruct (nonneg_SF x Vx Nx Rx) as [[sx ->]|(mx & ex & ->)];
    destruct (nonneg_SF y Vy Ny Ry) as [[sy ->]|(my & ey & ->)];
    cbn [SFmul fval_SF cond_Zopp xorb];
    rewrite ?Z.mul_0_l, ?Z.mul_0_r, ?RN_0;
    try (split; [discriminate|reflexivity]).
  cbn [fval_SF cond_Zopp] in Rx, Ry.
  pose proof (valid_finite _ _ _ Vx) as (Hex & Hdx & Hcx).
  pose proof (valid_finite _ _ _ Vy) as (Hey & Hdy & Hcy).
  pose proof (small_digits mx ex ltac:(lia) ltac:(lia)) as Sx.
  pose proof (small_digits my ey ltac:(lia) ltac:(lia)) as Sy.
  pose proof (digits2_mul mx my) as Hd.
  pose proof (digits2_bounds mx) as [Bx _].
  pose proof (digits2_bounds my) as [By _].
  assert (1 <= Zpos (digits2_pos mx) /\ 1 <= Zpos (digits2_pos my)) as [? ?] by lia.
  destruct (bra_value false (mx * my) (ex + ey)) as [Hnn Hv].
  - lia.
  - unfold fexp, SpecFloat.emin, prec, emax. lia.
  - lia.
  - split; [exact Hnn|]. rewrite Hv. cbn [cond_Zopp]. f_equal.
    rewrite Pos2Z.inj_mul.
    replace (ex + ey + 2148) with ((ex + 1074) + (ey + 1074)) by lia.
    rewrite Z.pow_add_r by lia. ring.
Qed.

Lemma iter_xO (m d : positive) : Zpos (Pos.iter xO m d) = Zpos m * 2 ^ Zpos d.
Proof.
  induction d as [|d IH] using Pos.peano_ind.
  - simpl. lia.
  - rewrite Pos.iter_succ, Pos2Z.inj_xO, IH, Pos2Z.inj_succ.
    unfold Z.succ. rewrite Z.pow_add_r by lia. lia.
Qed.

Lemma shl_align_spec (m : positive) (e e0 : Z) :
  snd (shl_align m e e0) = Z.min e e0
  /\ Zpos (fst (shl_align m e e0)) = Zpos m * 2 ^ (e - Z.min e e0).
Proof.
  unfold shl_align. destruct (e0 - e) as [|d|d] eqn:E; cbn [fst snd].
  - rewrite Z.min_l by lia. rewrite Z.sub_diag. simpl. lia.
  - rewrite Z.min_l by lia. rewrite Z.sub_diag. simpl. lia.
  - rewrite Z.min_r by lia. split; [reflexivity|].
    rewrite iter_xO. do 2 f_equal. lia.
Qed.

Lemma digits2_shift (m m' : positive) (k : Z) :
  0 <= k -> Zpos m' = Zpos m * 2 ^ k ->
  Zpos (digits2_pos m') = Zpos (digits2_pos m) + k.
Proof.
  intros Hk E. rewrite !digits2_log2, E, Z.log2_mul_pow2 by lia. lia.
Qed.

Lemma binary_round_value (m : positive) (e : Z) :
  -1074 <= e ->
  Zpos (digits2_pos m) + e <= 1023 ->
  binary_round prec emax false m e <> S754_nan
  /\ fval_SF (binary_round prec emax false m e) = RN (Zpos m * 2 ^ (e + 2148)).
Proof.
  intros He Hov. unfold binary_round.
  pose proof (shl_align_spec m e (fexp prec emax (Zpos (digits2_pos m) + e)))
    as [Hs Hf].
  destruct (shl_align m e (fexp prec emax (Zpos (digits2_pos m) + e)))
    as [mz ez] eqn:E. cbn [fst snd] in Hs, Hf.
  remember (fexp prec emax (Zpos (digits2_pos m) + e)) as fe eqn:Efe.
  assert (Hfe : -1074 <= fe).
  { rewrite Efe. unfold fexp, SpecFloat.emin, prec, emax. lia. }
  assert (Hd : Zpos (digits2_pos mz) + ez = Zpos (digits2_pos m) + e).
  { rewrite (digits2_shift m mz (e - Z.min e fe)) by (auto; lia). lia. }
  destruct (bra_value false mz ez) as [Hnn Hv].
  - lia.
  - rewrite Hd, <- Efe. lia.
  - lia.
  - split; [exact Hnn|]. rewrite Hv. cbn [cond_Zopp]. f_equal.
    rewrite Hf, Hs, <- Z.mul_assoc, <- Z.pow_add_r by lia.
    do 2 f_equal. lia.
Qed.

Lemma sub_SF_value (x y : spec_float) :
  valid_binary x = true -> valid_binary y = true ->
  x <> S754_nan -> y <> S754_nan ->
  0 <= fval_SF y <= fval_SF x -> fval_SF x <= SMALL ->
  SFsub prec emax x y <> S754_nan
  /\ fval_SF (SFsub prec emax x y) = RN ((fval_SF x - fval_SF y) * 2 ^ 1074).
Proof.
  intros Vx Vy Nx Ny Ryx Rx.
  pose proof INF_gt_SMALL as HI.
  destruct (nonneg_SF x Vx Nx ltac:(lia)) as [[sx Ex]|(mx & ex & Ex)];
    destruct (nonneg_SF y Vy Ny ltac:(lia)) as [[sy Ey]|(my & ey & Ey)].
  - subst. cbn [SFsub]. destruct sx, sy; cbn [fval_SF]; split;
      first [discriminate | reflexivity].
  - subst. pose proof (finite_range _ _ _ Vy).
    cbn [fval_SF cond_Zopp] in Ryx. lia.
  - rewrite Ey at 1 3. rewrite Ex at 1 2. cbn [SFsub]. rewrite <- Ex.
    split; [exact Nx|].
    rewrite Ey. cbn [fval_SF]. rewrite Z.sub_0_r.
    symmetry. apply RN_fixes_SF; [exact Vx|lia].
  - subst. cbn [SFsub cond_Zopp fval_SF] in *.
    pose proof (valid_finite _ _ _ Vx) as (Hex & _).
    pose proof (valid_finite _ _ _ Vy) as (Hey & _).
    remember (Z.min ex ey) as ez eqn:Eez.
    pose proof (shl_align_spec mx ex ez) as [_ Fx].
    pose proof (shl_align_spec my ey ez) as [_ Fy].
    rewrite Z.min_r in Fx, Fy by lia.
    remember (Zpos (fst (shl_align mx ex ez))) as ax eqn:Eax.
    remember (Zpos (fst (shl_align my ey ez))) as ay eqn:Eay.
    clear Eax Eay.
    assert (Hdiff : Z.pos mx * 2 ^ (ex + 1074) - Z.pos my * 2 ^ (ey + 1074)
                    = (ax - ay) * 2 ^ (ez + 1074)).
    { rewrite Fx, Fy, Z.mul_sub_distr_r.
      rewrite <- !Z.mul_assoc, <- !Z.pow_add_r by lia.
      f_equal; do 2 f_equal; lia. }
    rewrite Hdiff.
    assert (Hp : 0 < 2 ^ (ez + 1074)) by (apply pow2_pos; lia).
    assert (Hnonneg : 0 <= ax - ay) by nia.
    destruct (ax - ay) as [|md|md] eqn:ED; [| |lia].
    + cbn [binary_normalize fval_SF]. split; [discriminate|reflexivity].
    + cbn [binary_normalize].
      destruct (binary_round_value md ez) as [Hnn Hv].
      * lia.
      * pose proof (small_digits md ez ltac:(lia) ltac:(lia)). lia.
      * split; [exact Hnn|]. rewrite Hv. f_equal.
        rewrite <- Z.mul_assoc, <- Z.pow_add_r by lia. do 2 f_equal. lia.
Qed.

(* ----------------------------------------------------------------- *)
(** ** Binary64 numbers: products and complements in the unit interval *)

Open Scope Z_scope.

Lemma fval_0 : fval 0 = 0. Proof. reflexivity. Qed.
Lemma fval_1 : fval 1 = ONE. Proof. vm_compute. reflexivity. Qed.
Lemma fval_100 : fval 100 = 100 * ONE. Proof. vm_compute. reflexivity. Qed.

Lemma ord_finite_or_not (x : float) : is_nan x = false -> - INF <= fval x <= INF.
Proof.
  intros H. unfold fval. pose proof (Prim2SF_valid x) as V.
  assert (0 < INF) by (apply pow2_pos; lia).
  destruct (Prim2SF x) as [s|s| |s m e]; cbn [fval_SF]; try lia.
  - destruct s; cbn [cond_Zopp]; lia.
  - pose proof (finite_range _ _ _ V). destruct s; cbn [cond_Zopp]; lia.
Qed.


Lemma ONE_small : ONE <= SMALL.
Proof. unfold ONE, SMALL. apply pow2_le. lia. Qed.

Lemma ONE_pos : 0 < ONE.
Proof. apply pow2_pos. lia. Qed.

Lemma mul_value (x y : float) :
  is_nan x = false -> is_nan y = false ->
  0 <= fval x <= SMALL -> 0 <= fval y <= SMALL ->
  is_nan (x * y) = false /\ fval (x * y) = RN (fval x * fval y).
Proof.
  intros Nx Ny Rx Ry. unfold fval in *.
  destruct (mul_SF_value (Prim2SF x) (Prim2SF y)) as [Hn Hv];
    try apply Prim2SF_valid; try (now apply is_nan_SF); auto.
  rewrite mul_spec. split; [|exact Hv].
  apply is_nan_SF. rewrite mul_spec. exact Hn.
Qed.

Lemma sub_value (x y : float) :
  is_nan x = false -> is_nan y = false ->
  0 <= fval y <= fval x -> fval x <= SMALL ->
  is_nan (x - y) = false /\ fval (x - y) = RN ((fval x - fval y) * 2 ^ 1074).
Proof.
  intros Nx Ny Ryx Rx. unfold fval in *.
  destruct (sub_SF_value (Prim2SF x) (Prim2SF y)) as [Hn Hv];
    try apply Prim2SF_valid; try (now apply is_nan_SF); auto.
  rewrite sub_spec. split; [|exact Hv].
  apply is_nan_SF. rewrite sub_spec. exact Hn.
Qed.

Lemma RN_fixes (x : float) :
  is_nan x = false -> 0 <= fval x <= SMALL -> RN (fval x * 2 ^ 1074) = fval x.
Proof.
  intros N R. apply RN_fixes_SF; [apply Prim2SF_valid|].
  pose proof INF_gt_SMALL. unfold fval in R. lia.
Qed.

Lemma unit_mul (x y : float) :
  unit_float x -> unit_float y ->
  unit_float (x * y) /\ fval (x * y) <= fval x.
Proof.
  intros [Nx Rx] [Ny Ry]. pose proof ONE_small. pose proof ONE_pos.
  destruct (mul_value x y Nx Ny ltac:(lia) ltac:(lia)) as [Hn Hv].
  assert (Hle : fval (x * y) <= fval x).
  { rewrite Hv. rewrite <- (RN_fixes x Nx ltac:(lia)) at 2.
    apply RN_mono. split; [apply Z.mul_nonneg_nonneg; lia|].
    apply Z.mul_le_mono_nonneg_l; [lia|]. exact (proj2 Ry). }
  split; [|exact Hle]. split; [exact Hn|].
  split; [|lia]. rewrite Hv. apply RN_nonneg. apply Z.mul_nonneg_nonneg; lia.
Qed.

Lemma unit_1 : unit_float 1.
Proof. split; [reflexivity|]. rewrite fval_1. pose proof ONE_pos. lia. Qed.

Lemma unit_0 : unit_float 0.
Proof. split; [reflexivity|]. rewrite fval_0. pose proof ONE_pos. lia. Qed.

Lemma one_minus_value (c : float) :
  unit_float c ->
  is_nan (1 - c) = false /\ fval (1 - c) = RN ((ONE - fval c) * 2 ^ 1074).
Proof.
  intros [Nc Rc]. pose proof ONE_small.
  rewrite <- fval_1. apply sub_value; auto; rewrite ?fval_1; lia.
Qed.

Lemma unit_one_minus (c : float) : unit_float c -> unit_float (1 - c).
Proof.
  intros Hc. destruct (one_minus_value c Hc) as [Hn Hv].
  destruct Hc as [Nc Rc]. pose proof ONE_small. pose proof ONE_pos.
  split; [exact Hn|]. rewrite Hv. split.
  - apply RN_nonneg. apply Z.mul_nonneg_nonneg; [lia|].
    apply Z.lt_le_incl, pow2_pos. lia.
  - rewrite <- fval_1 at 2. rewrite <- (RN_fixes 1 eq_refl) by (rewrite fval_1; lia).
    apply RN_mono. rewrite fval_1. split.
    + apply Z.mul_nonneg_nonneg; [lia|]. apply Z.lt_le_incl, pow2_pos. lia.
    + apply Z.mul_le_mono_nonneg_r; [apply Z.lt_le_incl, pow2_pos; lia | lia].
Qed.

Lemma one_minus_antitone (p p' : float) :
  unit_float p -> unit_float p' -> fval p' <= fval p ->
  fval (1 - p) <= fval (1 - p').
Proof.
  intros Hp Hp' Hle.
  destruct (one_minus_value p Hp) as [_ ->].
  destruct (one_minus_value p' Hp') as [_ ->].
  destruct Hp as [_ Rp]. destruct Hp' as [_ Rp'].
  apply RN_mono. split.
  - apply Z.mul_nonneg_nonneg; [lia|]. apply Z.lt_le_incl, pow2_pos. lia.
  - apply Z.mul_le_mono_nonneg_r; [apply Z.lt_le_incl, pow2_pos; lia | lia].
Qed.

Lemma times_100_value (x : float) :
  unit_float x ->
  is_nan (x * 100) = false /\ fval (x * 100) = RN (fval x * (100 * ONE)).
Proof.
  intros [Nx Rx]. pose proof ONE_small. rewrite <- fval_100.
  assert (H100 : 0 <= 100 * ONE <= SMALL).
  { pose proof ONE_pos. split; [lia|]. unfold ONE, SMALL.
    change (2 ^ 1082) with (2 ^ 8 * 2 ^ 1074).
    apply Z.mul_le_mono_nonneg_r; [lia|]. vm_compute. discriminate. }
  apply mul_value; auto; rewrite ?fval_100; lia.
Qed.





Open Scope float_scope.

Lemma hundredths_ascend_spec (count : nat) (n k : Z) :
  hundredths_ascend n count = true ->
  (n <= k < n + Z.of_nat count)%Z ->
  (hundredths k <=? hundredths (k + 1)) = true.
Proof.
  revert n. induction count as [|c IH]; intros n H Hk.
  - simpl in Hk. lia.
  - cbn [hundredths_ascend] in H. apply andb_true_iff in H as [H0 H1].
    destruct (Z.eq_dec k n) as [->|NE]; [exact H0|].
    apply (IH (n + 1)%Z H1). lia.
Qed.

Lemma hundredths_table : hundredths_ascend 0 (Z.to_nat 10000) = true.
Proof. vm_compute. reflexivity. Qed.

Lemma hundredths_step (k : Z) :
  (0 <= k < 10000)%Z -> (hundredths k <=? hundredths (k + 1)) = true.
Proof.
  intros H. apply (hundredths_ascend_spec _ 0 k hundredths_table).
  rewrite Z2Nat.id; lia.
Qed.

Lemma hundredths_top : hundredths 10000 = 100.
Proof. vm_compute. reflexivity. Qed.

Lemma hundredths_number (k : Z) :
  (0 <= k <= 10000)%Z -> is_nan (hundredths k) = false.
Proof.
  intros H. destruct (Z.eq_dec k 10000) as [->|NE].
  - rewrite hundredths_top. reflexivity.
  - apply (leb_true_number _ _ (hundredths_step k ltac:(lia))).
Qed.

Lemma hundredths_mono (a b : Z) :
  (0 <= a <= b)%Z -> (b <= 10000)%Z ->
  (fval (hundredths a) <= fval (hundredths b))%Z.
Proof.
  intros Hab Hb.
  replace b with (a + Z.of_nat (Z.to_nat (b - a)))%Z by (rewrite Z2Nat.id; lia).
  assert (Hd : (a + Z.of_nat (Z.to_nat (b - a)) <= 10000)%Z)
    by (rewrite Z2Nat.id; lia).
  revert Hd. generalize (Z.to_nat (b - a)) as d.
  induction d as [|d IH]; intros Hd.
  - rewrite Z.add_0_r. lia.
  - rewrite Nat2Z.inj_succ in *.
    eapply Z.le_trans; [apply IH; lia|].
    pose proof (hundredths_step (a + Z.of_nat d) ltac:(lia)) as S.
    rewrite leb_fval in S by (apply hundredths_number; lia).
    apply Z.leb_le in S.
    replace (a + Z.succ (Z.of_nat d))%Z with (a + Z.of_nat d + 1)%Z by lia.
    exact S.
Qed.

Lemma to_hundredths_range (v : Z) :
  (0 <= v <= 100 * ONE)%Z -> (0 <= to_hundredths v <= 10000)%Z.
Proof.
  intros H. unfold to_hundredths.
  assert (P : (0 < 2 ^ 1074)%Z) by (apply pow2_pos; lia).
  split.
  - pose proof (div_half_even_bounds (v * 100) (2 ^ 1074) ltac:(lia) P).
    pose proof (Z.div_pos (v * 100) (2 ^ 1074) ltac:(lia) P). lia.
  - rewrite <- (div_half_even_exact 10000 (2 ^ 1074) P).
    apply div_half_even_mono; [|exact P]. unfold ONE in H. lia.
Qed.

Lemma to_hundredths_mono (v w : Z) :
  (0 <= v <= w)%Z -> (to_hundredths v <= to_hundredths w)%Z.
Proof.
  intros H. apply div_half_even_mono; [lia|]. apply pow2_pos. lia.
Qed.

Lemma round2_value (x : float) :
  is_nan x = false -> (0 <= fval x <= 100 * ONE)%Z ->
  is_nan (round2 x) = false
  /\ fval (round2 x) = fval (hundredths (to_hundredths (fval x))).
Proof.
  intros N R.
  assert (Hs : (0 <= fval x <= SMALL)%Z).
  { split; [lia|]. eapply Z.le_trans; [exact (proj2 R)|].
    unfold ONE, SMALL. change (2 ^ 1082)%Z with (2 ^ 8 * 2 ^ 1074)%Z.
    apply Z.mul_le_mono_nonneg_r; [|lia]. apply Z.lt_le_incl, pow2_pos. lia. }
  pose proof (to_hundredths_range (fval x) R) as Hr.
  assert (Hnum : is_nan (hundredths (to_hundredths (fval x))) = false)
    by (apply hundredths_number; lia).
  revert Hr Hnum. unfold fval in *.
  destruct (nonneg_SF (Prim2SF x) (Prim2SF_valid x) (proj1 (is_nan_SF x) N) Hs)
    as [[s E]|(m & e & E)].
  - intros _ _. unfold round2. rewrite E. split; [exact N|].
    rewrite E. reflexivity.
  - unfold round2. rewrite E. cbn [fval_SF cond_Zopp].
    unfold to_hundredths.
    destruct (div_half_even (Z.pos m * 2 ^ (e + 1074) * 100) (2 ^ 1074))
      as [|n|n]; intros Hr Hnum.
    + split; reflexivity.
    + split; [exact Hnum|reflexivity].
    + lia.
Qed.

Lemma round2_mono (x y : float) :
  is_nan x = false -> is_nan y = false ->
  (0 <= fval x <= fval y)%Z -> (fval y <= 100 * ONE)%Z ->
  (fval (round2 x) <= fval (round2 y) <= 100 * ONE)%Z.
Proof.
  intros Nx Ny Rxy Ry.
  destruct (round2_value x Nx ltac:(lia)) as [_ ->].
  destruct (round2_value y Ny ltac:(lia)) as [_ ->].
  pose proof (to_hundredths_range (fval x) ltac:(lia)) as Hx.
  pose proof (to_hundredths_range (fval y) ltac:(lia)) as Hy.
  pose proof (to_hundredths_mono (fval x) (fval y) ltac:(lia)) as Hm.
  split.
  - apply hundredths_mono; lia.
  - rewrite <- fval_100, <- hundredths_top.
    apply hundredths_mono; lia.
Qed.

(* ----------------------------------------------------------------- *)
(** ** Clamping and the score of a product *)

Lemma clamp_unit (x : float) : is_nan x = false -> unit_float (_clamp01 x).
Proof.
  intros N. unfold _clamp01.
  rewrite !ltb_fval by (auto; reflexivity).
  rewrite fval_0, fval_1.
  destruct (Z.ltb_spec (fval x) 0); [apply unit_0|].
  destruct (Z.ltb_spec ONE (fval x)); [apply unit_1|].
  split; [exact N|lia].
Qed.

Lemma clamp_id (x : float) : unit_float x -> _clamp01 x = x.
Proof.
  intros [N R]. unfold _clamp01.
  rewrite !ltb_fval by (auto; reflexivity).
  rewrite fval_0, fval_1.
  destruct (Z.ltb_spec (fval x) 0); [lia|].
  destruct (Z.ltb_spec ONE (fval x)); [lia|]. reflexivity.
Qed.

Lemma leb_of_fval (x y : float) :
  is_nan x = false -> is_nan y = false -> (fval x <= fval y)%Z ->
  (x <=? y) = true.
Proof. intros Nx Ny H. rewrite leb_fval by assumption. now apply Z.leb_le. Qed.

(* the score as a function of the running product *)
Lemma score_of_unit (p : float) :
  unit_float p ->
  is_nan (score_of p) = false /\ (0 <= fval (score_of p) <= 100 * ONE)%Z.
Proof.
  intros Hp. unfold score_of, combined_risk_of. rewrite (clamp_id p Hp).
  pose proof (unit_one_minus p Hp) as Hc.
  destruct (times_100_value (1 - p) Hc) as [Hn Hv].
  assert (Hr : (0 <= fval ((1 - p) * 100) <= 100 * ONE)%Z).
  { rewrite Hv. destruct Hc as [_ Rc]. pose proof ONE_pos. split.
    - apply RN_nonneg. apply Z.mul_nonneg_nonneg; lia.
    - rewrite <- fval_100 at 2.
      rewrite <- (RN_fixes 100 eq_refl).
      + apply RN_mono. rewrite fval_100. split.
        * apply Z.mul_nonneg_nonneg; lia.
        * fold ONE. rewrite (Z.mul_comm (100 * ONE) ONE).
          apply Z.mul_le_mono_nonneg_r; lia.
      + rewrite fval_100. unfold ONE, SMALL.
        change (2 ^ 1082)%Z with (2 ^ 8 * 2 ^ 1074)%Z.
        split; [|apply Z.mul_le_mono_nonneg_r; [|lia]];
          try (apply Z.lt_le_incl, pow2_pos; lia).
        apply Z.mul_nonneg_nonneg; [lia|apply Z.lt_le_incl, pow2_pos; lia]. }
  destruct (round2_value _ Hn Hr) as [Hn2 _].
  split; [exact Hn2|].
  destruct (round2_mono _ _ Hn Hn) as [_ M]; [lia|lia|].
  split; [|exact M].
  destruct (round2_value _ Hn Hr) as [_ E]. rewrite E.
  pose proof (to_hundredths_range _ Hr) as Hh.
  rewrite <- fval_0. change 0%float with (hundredths 0).
  apply hundredths_mono; lia.
Qed.

Lemma score_of_antitone (p p' : float) :
  unit_float p -> unit_float p' -> (fval p' <= fval p)%Z ->
  (fval (score_of p) <= fval (score_of p'))%Z.
Proof.
  intros Hp Hp' Hle. unfold score_of, combined_risk_of.
  rewrite (clamp_id p Hp), (clamp_id p' Hp').
  pose proof (unit_one_minus p Hp) as Hc.
  pose proof (unit_one_minus p' Hp') as Hc'.
  pose proof (one_minus_antitone p p' Hp Hp' Hle) as Ha.
  destruct (times_100_value (1 - p) Hc) as [Hn Hv].
  destruct (times_100_value (1 - p') Hc') as [Hn' Hv'].
  pose proof (score_of_unit p' Hp') as [_ Hr'].
  unfold score_of, combined_risk_of in Hr'. rewrite (clamp_id p' Hp') in Hr'.
  pose proof ONE_pos. destruct Hc as [_ Rc]. destruct Hc' as [_ Rc'].
  assert (Hm : (fval ((1 - p) * 100) <= fval ((1 - p') * 100))%Z).
  { rewrite Hv, Hv'. apply RN_mono. split.
    - apply Z.mul_nonneg_nonneg; lia.
    - apply Z.mul_le_mono_nonneg_r; lia. }
  assert (Hb : (fval ((1 - p') * 100) <= 100 * ONE)%Z).
  { rewrite Hv'. rewrite <- fval_100 at 2.
    rewrite <- (RN_fixes 100 eq_refl).
    - apply RN_mono. rewrite fval_100. split.
      + apply Z.mul_nonneg_nonneg; lia.
      + fold ONE. rewrite (Z.mul_comm (100 * ONE) ONE).
        apply Z.mul_le_mono_nonneg_r; lia.
    - rewrite fval_100. unfold ONE, SMALL.
      change (2 ^ 1082)%Z with (2 ^ 8 * 2 ^ 1074)%Z.
      split; [|apply Z.mul_le_mono_nonneg_r; [|lia]];
        try (apply Z.lt_le_incl, pow2_pos; lia).
      apply Z.mul_nonneg_nonneg; [lia|apply Z.lt_le_incl, pow2_pos; lia]. }
  assert (H0 : (0 <= fval ((1 - p) * 100))%Z).
  { rewrite Hv. apply RN_nonneg. apply Z.mul_nonneg_nonneg; lia. }
  apply (round2_mono _ _ Hn Hn'); lia.
Qed.

(* ----------------------------------------------------------------- *)
(** ** The loop of score_pii_findings *)

Lemma ltb_true_number (x y : float) :
  (x <? y) = true -> is_nan x = false /\ is_nan y = false.
Proof.
  intros H. destruct (is_nan x) eqn:Ex.
  - rewrite ltb_nan in H by auto. discriminate.
  - destruct (is_nan y) eqn:Ey; auto.
    rewrite ltb_nan in H by auto. discriminate.
Qed.

Lemma risk_label_defined (score : float) (thresholds : Thresholds) :
  thresholds <> [] -> exists k, risk_label_for_score score thresholds = Ok k.
Proof.
  intros Hne. unfold risk_label_for_score.
  destruct (sorted_items thresholds) as [|first rest] eqn:E; [|eauto].
  destruct thresholds as [|x l]; [contradiction|].
  assert (H : In x (sorted_items (x :: l))) by (apply sorted_items_in; now left).
  rewrite E in H. destruct H.
Qed.

Section Loop.

Variable str : string -> option float.

Lemma score_item_readings (dc : float) (raw : dict pyval) :
  score_item str dc raw
  = '(w, c) <- readings str dc raw ;;
    Ok (_clamp01 (_clamp01 w * _clamp01 c),
        set raw "contribution" (PyFloat (_clamp01 (_clamp01 w * _clamp01 c)))).
Proof.
  unfold score_item, readings.
  destruct (get raw "severity_weight") as [w|]; [|reflexivity].
  destruct (to_float str w) as [w'|e]; [|reflexivity]. cbn [bind].
  destruct (to_float str (get_or raw "confidence" (PyFloat dc))); reflexivity.
Qed.

Lemma positive_is_number (dc : float) (raw : dict pyval) :
  positive_item str dc raw = true -> number_item str dc raw = true.
Proof.
  unfold positive_item, number_item.
  destruct (readings str dc raw) as [[w c]|]; [|discriminate].
  intros H. apply andb_true_iff in H as [Hw Hc].
  apply ltb_true_number in Hw as [_ ->].
  apply ltb_true_number in Hc as [_ ->]. reflexivity.
Qed.

Lemma score_item_number (dc : float) (raw : dict pyval) :
  number_item str dc raw = true ->
  exists c scored, score_item str dc raw = Ok (c, scored) /\ unit_float c.
Proof.
  unfold number_item. rewrite score_item_readings.
  destruct (readings str dc raw) as [[w c]|]; [|discriminate].
  intros H. apply andb_true_iff in H as [Hw Hc].
  apply negb_true_iff in Hw, Hc.
  eexists. eexists. split; [reflexivity|].
  pose proof (unit_mul _ _ (clamp_unit w Hw) (clamp_unit c Hc)) as [[Hn _] _].
  apply clamp_unit. exact Hn.
Qed.

Lemma score_loop_app (dc : float) (l1 l2 : list (dict pyval))
      (acc : list (dict pyval)) (p : float) :
  score_loop str dc (l1 ++ l2) acc p
  = '(acc', p') <- score_loop str dc l1 acc p ;; score_loop str dc l2 acc' p'.
Proof.
  revert acc p. induction l1 as [|raw l1 IH]; intros acc p; [reflexivity|].
  cbn [app score_loop].
  destruct (score_item str dc raw) as [[c scored]|e]; [|reflexivity].
  cbn [bind]. apply IH.
Qed.

Lemma score_loop_number (dc : float) (items : list (dict pyval))
      (acc : list (dict pyval)) (p : float) :
  forallb (number_item str dc) items = true -> unit_float p ->
  exists acc' p',
    score_loop str dc items acc p = Ok (acc', p')
    /\ unit_float p' /\ (fval p' <= fval p)%Z
    /\ List.length acc' = (List.length acc + List.length items)%nat.
Proof.
  revert acc p. induction items as [|raw items IH]; intros acc p Hall Hp.
  - exists acc, p. cbn [score_loop List.length]. repeat split; try apply Hp; lia.
  - cbn [forallb] in Hall. apply andb_true_iff in Hall as [Hraw Hall].
    destruct (score_item_number dc raw Hraw) as (c & scored & Hitem & Hc).
    cbn [score_loop]. rewrite Hitem. cbn [bind].
    pose proof (unit_mul p (1 - c) Hp (unit_one_minus c Hc)) as [Hp1 Hle].
    destruct (IH (acc ++ [scored]) (p * (1 - c)) Hall Hp1)
      as (acc' & p' & Hloop & Hp' & Hle' & Hlen).
    exists acc', p'. repeat split; try apply Hp'; auto; try lia.
    rewrite Hlen, length_app. cbn [List.length]. lia.
Qed.

End Loop.

(** The claim of C3 as stated fails when a finding of the list carries NaN:
    the product and both scores are NaN, which is neither at most the other
    score nor at most 100, although the extra finding has severity 0.5 and
    confidence 1. *)
Lemma C3_nan_finding_breaks_order :
  exists r r',
    score_pii_findings not_a_number
      [[("severity_weight", PyFloat nan)]] 1 DEFAULT_LABEL_THRESHOLDS = Ok r
    /\ score_pii_findings not_a_number
         ([[("severity_weight", PyFloat nan)]]
          ++ [[("severity_weight", PyFloat 0.5); ("confidence", PyFloat 1)]])
         1 DEFAULT_LABEL_THRESHOLDS = Ok r'
    /\ positive_item not_a_number 1
         [("severity_weight", PyFloat 0.5); ("confidence", PyFloat 1)] = true
    /\ (score r <=? score r') = false
    /\ (score r' <=? 100) = false.
Proof.
  eexists. eexists. split; [vm_compute; reflexivity|].
  split; [vm_compute; reflexivity|].
  repeat split; vm_compute; reflexivity.
Qed.

(** C3 (amended): for every list of findings whose severity_weight and
    confidence (given, or the default) read as floats other than NaN, every
    extra finding with severity_weight > 0 and confidence > 0, and every
    non-empty thresholds mapping, [score_pii_findings] returns on the list
    and on the list extended with the extra finding, the second score is
    greater than or equal to the first, and both are at most 100. *)
Theorem C3_score_monotone_and_bounded :
  forall (str_to_float : string -> option float)
         (items : list (dict pyval)) (extra : dict pyval)
         (default_confidence : float) (thresholds : Thresholds),
    thresholds <> [] ->
    forallb (number_item str_to_float default_confidence) items = true ->
    positive_item str_to_float default_confidence extra = true ->
    exists r r',
      score_pii_findings str_to_float items default_confidence thresholds = Ok r
      /\ score_pii_findings str_to_float (items ++ [extra]) default_confidence
                            thresholds = Ok r'
      /\ (score r <=? score r') = true
      /\ (score r <=? 100) = true
      /\ (score r' <=? 100) = true.
Proof.
  intros str items extra dc th Hth Hitems Hextra.
  apply positive_is_number in Hextra.
  destruct (score_loop_number str dc items [] 1 Hitems unit_1)
    as (acc & p & Hloop & Hp & _ & _).
  assert (Hx : forallb (number_item str dc) [extra] = true)
    by (cbn [forallb]; now rewrite Hextra).
  destruct (score_loop_number str dc [extra] acc p Hx Hp)
    as (acc' & p' & Hloop' & Hp' & Hle & _).
  destruct (risk_label_defined (score_of p) th Hth) as [k Hk].
  destruct (risk_label_defined (score_of p') th Hth) as [k' Hk'].
  unfold score_pii_findings.
  rewrite score_loop_app, Hloop. cbn [bind]. rewrite Hloop'. cbn [bind].
  rewrite Hk, Hk'. cbn [bind].
  eexists. eexists. split; [reflexivity|]. split; [reflexivity|].
  cbn [score].
  destruct (score_of_unit p Hp) as [N R].
  destruct (score_of_unit p' Hp') as [N' R'].
  pose proof (score_of_antitone p p' Hp Hp' Hle) as Hmono.
  repeat split; apply leb_of_fval; auto; rewrite ?fval_100; lia.
Qed.

Lemma C3_score_monotone_witness :
  exists r r',
    score_pii_findings not_a_number
      [[("type", PyStr "email"); ("severity_weight", PyFloat 0.5);
        ("confidence", PyFloat 1)]] 1 DEFAULT_LABEL_THRESHOLDS = Ok r
    /\ score_pii_findings not_a_number
         ([[("type", PyStr "email"); ("severity_weight", PyFloat 0.5);
            ("confidence", PyFloat 1)]]
          ++ [[("type", PyStr "phone"); ("severity_weight", PyFloat 0.7);
               ("confidence", PyFloat 1)]])
         1 DEFAULT_LABEL_THRESHOLDS = Ok r'
    /\ (score r <=? score r') = true
    /\ (score r <=? 100) = true
    /\ (score r' <=? 100) = true.
Proof.
  apply (C3_score_monotone_and_bounded not_a_number).
  - discriminate.
  - reflexivity.
  - reflexivity.
Defined.

(* ----------------------------------------------------------------- *)
(** ** Missing fields, values that are not numbers, values out of range *)

Section Errors.

Variable str : string -> option float.




Lemma score_item_readable (dc : float) (raw : dict pyval) :
  readable_item str dc raw = true ->
  exists c scored, score_item str dc raw = Ok (c, scored).
Proof.
  unfold readable_item. rewrite score_item_readings.
  destruct (readings str dc raw) as [[w c]|]; [|discriminate].
  intros _. cbn [bind]. eauto.
Qed.



End Errors.




(* ----------------------------------------------------------------- *)
(** ** The label in terms of the mapping *)

Lemma scan_label_last_met (score : float) (l : list entry) (label : RiskLabel) :
  scan_label score label l
  = match last_met score l with Some b => fst b | None => label end.
Proof.
  revert label. induction l as [|y l IH]; intros label; [reflexivity|].
  unfold scan_label in *. cbn [fold_left last_met]. rewrite IH.
  unfold met. destruct (last_met score l); [reflexivity|].
  destruct (snd y <=? score); reflexivity.
Qed.

Lemma last_met_in (score : float) (l : list entry) (b : entry) :
  last_met score l = Some b -> In b l /\ met score b = true.
Proof.
  induction l as [|y l IH]; cbn [last_met]; [discriminate|].
  destruct (last_met score l) as [b'|].
  - intros [= <-]. destruct (IH eq_refl). split; [now right|assumption].
  - destruct (met score y) eqn:E; [|discriminate].
    intros [= <-]. split; [now left|assumption].
Qed.

Lemma last_met_none (score : float) (l : list entry) :
  (forall b, In b l -> met score b = false) -> last_met score l = None.
Proof.
  induction l as [|y l IH]; intros H; [reflexivity|].
  cbn [last_met]. rewrite IH by (intros; apply H; now right).
  rewrite (H y) by now left. reflexivity.
Qed.

Lemma met_downward (score : float) (a b : entry) :
  is_nan (snd a) = false -> is_nan (snd b) = false ->
  (fval (snd a) <= fval (snd b))%Z -> met score b = true -> met score a = true.
Proof.
  unfold met. intros Na Nb Hab Hb.
  destruct (leb_true_number _ _ Hb) as [_ Ns].
  rewrite leb_fval in * by assumption.
  apply Z.leb_le in Hb. apply Z.leb_le. lia.
Qed.

Lemma insert_item_cons (x y : entry) (l : list entry) :
  insert_item x (y :: l)
  = if snd y <? snd x then y :: insert_item x l else x :: y :: l.
Proof. reflexivity. Qed.

Lemma insert_ascending (x : entry) (l : list entry) :
  is_nan (snd x) = false -> numbers l -> ascending l ->
  ascending (insert_item x l).
Proof.
  intros Nx Nl Hs. induction l as [|y l IH].
  - repeat constructor.
  - rewrite insert_item_cons.
    assert (Ny : is_nan (snd y) = false) by (apply Nl; now left).
    assert (Nl' : numbers l) by (intros kv Hkv; apply Nl; now right).
    inversion Hs as [|? ? Hs' Hall]; subst.
    rewrite ltb_fval by assumption.
    destruct (Z.ltb_spec (fval (snd y)) (fval (snd x))) as [Hlt|Hge].
    + constructor; [apply IH; assumption|].
      apply Forall_forall. intros z Hz.
      apply insert_item_in in Hz as [->|Hz]; [lia|].
      rewrite Forall_forall in Hall. now apply Hall.
    + constructor; [exact Hs|].
      constructor; [exact Hge|].
      rewrite Forall_forall in Hall |- *. intros z Hz.
      specialize (Hall z Hz). lia.
Qed.

Lemma last_met_insert (score : float) (x : entry) (l : list entry) :
  is_nan (snd x) = false -> numbers l -> ascending l ->
  last_met score (insert_item x l)
  = if met score x then
      match last_met score l with
      | Some b => if snd b <? snd x then Some x else Some b
      | None => Some x
      end
    else last_met score l.
Proof.
  intros Nx Nl Hs. induction l as [|y l IH].
  - cbn [insert_item last_met]. destruct (met score x); reflexivity.
  - assert (Ny : is_nan (snd y) = false) by (apply Nl; now left).
    assert (Nl' : numbers l) by (intros kv Hkv; apply Nl; now right).
    inversion Hs as [|? ? Hs' Hall]; subst.
    rewrite insert_item_cons.
    destruct (snd y <? snd x) eqn:Eyx.
    + cbn [last_met]. rewrite (IH Nl' Hs').
      destruct (met score x) eqn:Ex.
      * destruct (last_met score l) as [b|].
        -- destruct (snd b <? snd x); reflexivity.
        -- destruct (met score y); [rewrite Eyx|]; reflexivity.
      * reflexivity.
    + rewrite ltb_fval in Eyx by assumption. apply Z.ltb_ge in Eyx.
      assert (Hall' : forall b, In b (y :: l) -> is_nan (snd b) = false
                                /\ (fval (snd x) <= fval (snd b))%Z).
      { intros b [<-|Hb]; [auto|]. split; [apply Nl; now right|].
        rewrite Forall_forall in Hall. specialize (Hall b Hb). lia. }
      change (last_met score (x :: y :: l))
        with (match last_met score (y :: l) with
              | Some b => Some b
              | None => if met score x then Some x else None
              end).
      destruct (met score x) eqn:Ex.
      * destruct (last_met score (y :: l)) as [b|] eqn:Eb; [|reflexivity].
        apply last_met_in in Eb as [Hb _].
        destruct (Hall' b Hb) as [Nb Hxb].
        rewrite ltb_fval by assumption.
        destruct (Z.ltb_spec (fval (snd b)) (fval (snd x))); [lia|reflexivity].
      * rewrite last_met_none; [reflexivity|].
        intros b Hb. destruct (Hall' b Hb) as [Nb Hxb].
        destruct (met score b) eqn:Eb; [|reflexivity].
        rewrite (met_downward score x b Nx Nb Hxb Eb) in Ex. discriminate.
Qed.

Lemma sorted_items_ascending (l : list entry) :
  numbers l -> ascending (sorted_items l).
Proof.
  induction l as [|x l IH]; intros Nl; [constructor|].
  cbn [sorted_items fold_right].
  apply insert_ascending.
  - apply Nl. now left.
  - intros kv Hkv. apply Nl. right. now apply sorted_items_in.
  - apply IH. intros kv Hkv. apply Nl. now right.
Qed.

Lemma last_met_sorted (score : float) (l : list entry) :
  numbers l ->
  last_met score (sorted_items l) = option_map snd (best_met score l).
Proof.
  induction l as [|x l IH]; intros Nl; [reflexivity|].
  assert (Nl' : numbers l) by (intros kv Hkv; apply Nl; now right).
  change (sorted_items (x :: l)) with (insert_item x (sorted_items l)).
  rewrite last_met_insert.
  - rewrite (IH Nl'). cbn [best_met].
    destruct (best_met score l) as [[i b]|]; cbn [option_map snd].
    + destruct (met score x); cbn [andb]; [|reflexivity].
      destruct (snd b <? snd x); reflexivity.
    + destruct (met score x); reflexivity.
  - apply Nl. now left.
  - intros kv Hkv. apply Nl'. now apply sorted_items_in.
  - now apply sorted_items_ascending.
Qed.

Lemma hd_sorted (l : list entry) :
  hd_error (sorted_items l) = option_map snd (lowest l).
Proof.
  induction l as [|x l IH]; [reflexivity|].
  change (sorted_items (x :: l)) with (insert_item x (sorted_items l)).
  cbn [lowest]. destruct (lowest l) as [[i y]|]; cbn [option_map snd] in *.
  - destruct (sorted_items l) as [|y' s]; [discriminate|].
    cbn [hd_error] in IH. injection IH as ->.
    rewrite insert_item_cons. destruct (snd y <? snd x); reflexivity.
  - destruct (sorted_items l); [reflexivity|discriminate].
Qed.

(* the label in terms of the mapping itself *)
Lemma risk_label_spec (score : float) (l : Thresholds) :
  numbers l ->
  risk_label_for_score score l
  = match best_met score l, lowest l with
    | Some (_, b), _ => Ok (fst b)
    | None, Some (_, y) => Ok (fst y)
    | None, None => Raise IndexError
    end.
Proof.
  intros Nl. unfold risk_label_for_score.
  pose proof (hd_sorted l) as Hh. pose proof (last_met_sorted score l Nl) as Hm.
  destruct (sorted_items l) as [|first rest] eqn:E.
  - destruct (lowest l) as [[i y]|]; [discriminate|].
    destruct (best_met score l) as [[i b]|]; [discriminate|reflexivity].
  - rewrite scan_label_last_met, Hm.
    destruct (best_met score l) as [[i b]|]; [reflexivity|].
    destruct (lowest l) as [[i y]|]; [|discriminate].
    cbn [hd_error option_map snd] in Hh. now injection Hh as ->.
Qed.

Lemma eqb_fval (x y : float) :
  is_nan x = false -> is_nan y = false -> (x =? y) = (fval x =? fval y)%Z.
Proof.
  intros Hx Hy. rewrite eqb_spec. unfold SFeqb. rewrite compare_fval by assumption.
  destruct (Z.compare_spec (fval x) (fval y)) as [E|E|E].
  - rewrite E. now rewrite Z.eqb_refl.
  - symmetry. apply Z.eqb_neq. lia.
  - symmetry. apply Z.eqb_neq. lia.
Qed.

Lemma best_met_spec (score : float) (l : list entry) (i : nat) (b : entry) :
  numbers l -> best_met score l = Some (i, b) ->
  nth_error l i = Some b /\ met score b = true
  /\ forall j kv, nth_error l j = Some kv -> met score kv = true ->
       (fval (snd kv) < fval (snd b))%Z
       \/ (fval (snd kv) = fval (snd b) /\ (j <= i)%nat).
Proof.
  revert i b. induction l as [|x l IH]; intros i b Nl; cbn [best_met]; [discriminate|].
  assert (Nx : is_nan (snd x) = false) by (apply Nl; now left).
  assert (Nl' : numbers l) by (intros kv Hkv; apply Nl; now right).
  destruct (best_met score l) as [[i' b']|] eqn:E.
  - destruct (IH i' b' Nl' eq_refl) as (Hn & Hm & Hbest).
    assert (Nb' : is_nan (snd b') = false)
      by (apply Nl'; eapply nth_error_In; exact Hn).
    destruct (met score x) eqn:Ex; cbn [andb].
    + rewrite ltb_fval by assumption.
      destruct (Z.ltb_spec (fval (snd b')) (fval (snd x))) as [Hlt|Hge];
        intros [= <- <-].
      * split; [reflexivity|]. split; [exact Ex|].
        intros [|j] kv Hj Hkv; cbn [nth_error] in Hj.
        -- injection Hj as <-. right. split; lia.
        -- destruct (Hbest j kv Hj Hkv) as [H|[H _]]; left; lia.
      * split; [exact Hn|]. split; [exact Hm|].
        intros [|j] kv Hj Hkv; cbn [nth_error] in Hj.
        -- injection Hj as <-.
           destruct (Z.eq_dec (fval (snd x)) (fval (snd b'))); [right|left]; lia.
        -- destruct (Hbest j kv Hj Hkv) as [H|[H H']]; [left|right]; lia.
    + intros [= <- <-].
      split; [exact Hn|]. split; [exact Hm|].
      intros [|j] kv Hj Hkv; cbn [nth_error] in Hj.
      * injection Hj as <-. congruence.
      * destruct (Hbest j kv Hj Hkv) as [H|[H H']]; [left|right]; lia.
  - destruct (met score x) eqn:Ex; [|discriminate].
    intros [= <- <-]. split; [reflexivity|]. split; [exact Ex|].
    intros [|j] kv Hj Hkv; cbn [nth_error] in Hj.
    + injection Hj as <-. right. split; lia.
    + exfalso. clear IH. revert j kv Hj Hkv E. clear.
      induction l as [|y l IH]; intros j kv Hj Hkv E; [destruct j; discriminate|].
      cbn [best_met] in E.
      destruct (best_met score l) as [[i b]|] eqn:E'.
      * destruct (met score y && (snd b <? snd y)); discriminate.
      * destruct (met score y) eqn:Ey; [discriminate|].
        destruct j as [|j]; cbn [nth_error] in Hj.
        -- injection Hj as <-. congruence.
        -- exact (IH j kv Hj Hkv eq_refl).
Qed.

Lemma best_met_none (score : float) (l : list entry) :
  best_met score l = None -> forall kv, In kv l -> met score kv = false.
Proof.
  induction l as [|y l IH]; intros E kv Hkv; [destruct Hkv|].
  cbn [best_met] in E.
  destruct (best_met score l) as [[i b]|] eqn:E'.
  - destruct (met score y && (snd b <? snd y)); discriminate.
  - destruct (met score y) eqn:Ey; [discriminate|].
    destruct Hkv as [<-|Hkv]; [exact Ey|]. now apply IH.
Qed.

Lemma lowest_spec (l : list entry) (i : nat) (y : entry) :
  numbers l -> lowest l = Some (i, y) ->
  nth_error l i = Some y
  /\ forall j kv, nth_error l j = Some kv ->
       (fval (snd y) < fval (snd kv))%Z
       \/ (fval (snd kv) = fval (snd y) /\ (i <= j)%nat).
Proof.
  revert i y. induction l as [|x l IH]; intros i y Nl; cbn [lowest]; [discriminate|].
  assert (Nx : is_nan (snd x) = false) by (apply Nl; now left).
  assert (Nl' : numbers l) by (intros kv Hkv; apply Nl; now right).
  destruct (lowest l) as [[i' y']|] eqn:E.
  - destruct (IH i' y' Nl' eq_refl) as (Hn & Hlow).
    assert (Ny' : is_nan (snd y') = false)
      by (apply Nl'; eapply nth_error_In; exact Hn).
    rewrite ltb_fval by assumption.
    destruct (Z.ltb_spec (fval (snd y')) (fval (snd x))) as [Hlt|Hge];
      intros [= <- <-].
    + split; [exact Hn|].
      intros [|j] kv Hj; cbn [nth_error] in Hj.
      * injection Hj as <-. left. lia.
      * destruct (Hlow j kv Hj) as [H|[H H']]; [left|right]; lia.
    + split; [reflexivity|].
      intros [|j] kv Hj; cbn [nth_error] in Hj.
      * injection Hj as <-. right. split; lia.
      * destruct (Hlow j kv Hj) as [H|[H H']].
        -- left. lia.
        -- destruct (Z.eq_dec (fval (snd x)) (fval (snd y'))); [right|left]; lia.
  - intros [= <- <-]. split; [reflexivity|].
    intros [|j] kv Hj; cbn [nth_error] in Hj.
    + injection Hj as <-. right. split; lia.
    + destruct l; [destruct j; discriminate|].
      cbn [lowest] in E. destruct (lowest l) as [[? ?]|];
        [destruct (_ <? _)|]; discriminate.
Qed.

Lemma lowest_defined (l : list entry) :
  l <> [] -> exists i y, lowest l = Some (i, y).
Proof.
  destruct l as [|x l]; [contradiction|]. intros _. cbn [lowest].
  destruct (lowest l) as [[i y]|]; [destruct (snd y <? snd x)|]; eauto.
Qed.

(** The claim of C5 as stated fails on ties: of two tiers with equal
    thresholds the one written later in the mapping is returned, here "low"
    although "critical" ranks higher. *)
Lemma C5_tie_goes_to_later_entry :
  risk_label_for_score 60 [(critical, 50); (low, 50)] = Ok low
  /\ (rank low < rank critical)%nat.
Proof. split; [vm_compute; reflexivity|]. cbn. lia. Qed.

(** C5 (amended): for every score and every non-empty thresholds mapping
    without NaN, [risk_label_for_score] returns the tier of an entry of the
    mapping such that either the score meets its threshold, and every other
    threshold the score meets is lower, or equal and written no later in the
    mapping; or the score meets no threshold, and the entry has the lowest
    threshold, every other threshold being higher, or equal and written no
    earlier. *)
Theorem C5_label_is_highest_met_threshold :
  forall (score : float) (thresholds : Thresholds),
    thresholds <> [] ->
    (forall kv, In kv thresholds -> is_nan (snd kv) = false) ->
    exists (i : nat) (k : RiskLabel) (v : float),
      risk_label_for_score score thresholds = Ok k
      /\ nth_error thresholds i = Some (k, v)
      /\ (((v <=? score) = true
           /\ forall j k' v',
                nth_error thresholds j = Some (k', v') ->
                (v' <=? score) = true ->
                (v' <? v) = true \/ ((v' =? v) = true /\ (j <= i)%nat))
          \/ ((forall k' v', In (k', v') thresholds -> (v' <=? score) = false)
              /\ forall j k' v',
                   nth_error thresholds j = Some (k', v') ->
                   (v <? v') = true \/ ((v' =? v) = true /\ (i <= j)%nat))).
Proof.
  intros score l Hne Nl.
  rewrite (risk_label_spec score l Nl).
  destruct (best_met score l) as [[i [k v]]|] eqn:Eb.
  - destruct (best_met_spec score l i (k, v) Nl Eb) as (Hn & Hm & Hbest).
    assert (Nv : is_nan v = false)
      by (apply (Nl (k, v)); eapply nth_error_In; exact Hn).
    exists i, k, v. split; [reflexivity|]. split; [exact Hn|].
    left. split; [exact Hm|].
    intros j k' v' Hj Hmet.
    assert (Nv' : is_nan v' = false)
      by (apply (Nl (k', v')); eapply nth_error_In; exact Hj).
    rewrite ltb_fval, eqb_fval by assumption.
    destruct (Hbest j (k', v') Hj Hmet) as [H|[H H']]; cbn [snd] in *.
    + left. now apply Z.ltb_lt.
    + right. split; [now apply Z.eqb_eq|exact H'].
  - destruct (lowest_defined l Hne) as (i & [k v] & El). rewrite El.
    destruct (lowest_spec l i (k, v) Nl El) as (Hn & Hlow).
    assert (Nv : is_nan v = false)
      by (apply (Nl (k, v)); eapply nth_error_In; exact Hn).
    exists i, k, v. split; [reflexivity|]. split; [exact Hn|].
    right. split.
    + intros k' v' Hin. exact (best_met_none score l Eb (k', v') Hin).
    + intros j k' v' Hj.
      assert (Nv' : is_nan v' = false)
        by (apply (Nl (k', v')); eapply nth_error_In; exact Hj).
      rewrite ltb_fval, eqb_fval by assumption.
      destruct (Hlow j (k', v') Hj) as [H|[H H']]; cbn [snd] in *.
      * left. now apply Z.ltb_lt.
      * right. split; [now apply Z.eqb_eq|exact H'].
Qed.

Lemma default_thresholds_numbers :
  forall kv, In kv DEFAULT_LABEL_THRESHOLDS -> is_nan (snd kv) = false.
Proof.
  intros kv H. cbn [In DEFAULT_LABEL_THRESHOLDS] in H.
  repeat (destruct H as [<-|H]; [reflexivity|]). destruct H.
Qed.

Lemma C5_label_is_highest_met_witness :
  exists (i : nat) (k : RiskLabel) (v : float),
    risk_label_for_score 85 DEFAULT_LABEL_THRESHOLDS = Ok k
    /\ nth_error DEFAULT_LABEL_THRESHOLDS i = Some (k, v)
    /\ (((v <=? 85) = true
         /\ forall j k' v',
              nth_error DEFAULT_LABEL_THRESHOLDS j = Some (k', v') ->
              (v' <=? 85) = true ->
              (v' <? v) = true \/ ((v' =? v) = true /\ (j <= i)%nat))
        \/ ((forall k' v', In (k', v') DEFAULT_LABEL_THRESHOLDS ->
                           (v' <=? 85) = false)
            /\ forall j k' v',
                 nth_error DEFAULT_LABEL_THRESHOLDS j = Some (k', v') ->
                 (v <? v') = true \/ ((v' =? v) = true /\ (i <= j)%nat))).
Proof.
  apply (C5_label_is_highest_met_threshold 85 DEFAULT_LABEL_THRESHOLDS).
  - discriminate.
  - exact default_thresholds_numbers.
Defined.

(* ----------------------------------------------------------------- *)
(** ** The empty list of findings *)

(** The claim of C4 as stated fails for thresholds mappings in which a tier
    other than the lowest has a threshold of at most 0: the label of score 0
    is then that tier, here "medium" although "low" has the lowest
    threshold. *)
Lemma C4_label_of_zero_is_not_lowest_tier :
  score_pii_findings not_a_number [] 1
    [(low, -1); (medium, 0); (high, 50); (critical, 80)]
  = Ok (Build_RiskScoreResult 0 medium 0 [] explanation_text)
  /\ (-1 <? 0) = true.
Proof. split; vm_compute; reflexivity. Qed.

(** C4 (amended): on the empty list the running product stays 1 and, for
    every non-empty thresholds mapping without NaN, [score_pii_findings]
    returns score 0, item_count 0 and the label [risk_label_for_score] gives
    to 0; that label is a tier of lowest threshold whenever every threshold
    that is at most 0 is a lowest one, and it is "low" under the default
    thresholds. *)
Theorem C4_empty_findings_score_zero :
  forall (str_to_float : string -> option float) (default_confidence : float)
         (thresholds : Thresholds),
    thresholds <> [] ->
    (forall kv, In kv thresholds -> is_nan (snd kv) = false) ->
    score_loop str_to_float default_confidence [] [] 1 = Ok ([], 1)
    /\ score_pii_findings str_to_float [] default_confidence
                          DEFAULT_LABEL_THRESHOLDS
       = Ok (Build_RiskScoreResult 0 low 0 [] explanation_text)
    /\ exists lbl,
         risk_label_for_score 0 thresholds = Ok lbl
         /\ score_pii_findings str_to_float [] default_confidence thresholds
            = Ok (Build_RiskScoreResult 0 lbl 0 [] explanation_text)
         /\ ((forall k v, In (k, v) thresholds -> (v <=? 0) = true ->
                forall k' v', In (k', v') thresholds -> (v <=? v') = true) ->
             exists v, In (lbl, v) thresholds
                       /\ forall k' v', In (k', v') thresholds ->
                                        (v <=? v') = true).
Proof.
  intros str dc l Hne Nl.
  split; [reflexivity|]. split; [vm_compute; reflexivity|].
  assert (Hscore : forall lbl, risk_label_for_score 0 l = Ok lbl ->
            score_pii_findings str [] dc l
            = Ok (Build_RiskScoreResult 0 lbl 0 [] explanation_text)).
  { intros lbl H. unfold score_pii_findings. cbn [score_loop bind].
    change (score_of 1) with 0. rewrite H. reflexivity. }
  pose proof (risk_label_spec 0 l Nl) as Hspec.
  destruct (best_met 0 l) as [[i [k v]]|] eqn:Eb.
  - destruct (best_met_spec 0 l i (k, v) Nl Eb) as (Hn & Hm & _).
    exists k. split; [exact Hspec|]. split; [apply Hscore; exact Hspec|].
    intros Hmin. exists v. split; [eapply nth_error_In; exact Hn|].
    apply (Hmin k v); [eapply nth_error_In; exact Hn|exact Hm].
  - destruct (lowest_defined l Hne) as (i & [k v] & El). rewrite El in Hspec.
    destruct (lowest_spec l i (k, v) Nl El) as (Hn & Hlow).
    exists k. split; [exact Hspec|]. split; [apply Hscore; exact Hspec|].
    intros _. exists v. split; [eapply nth_error_In; exact Hn|].
    intros k' v' Hin. apply In_nth_error in Hin as [j Hj].
    apply leb_of_fval.
    + apply (Nl (k, v)). eapply nth_error_In; exact Hn.
    + apply (Nl (k', v')). eapply nth_error_In; exact Hj.
    + destruct (Hlow j (k', v') Hj) as [H|[H _]]; cbn [snd] in *; lia.
Qed.

Lemma C4_empty_findings_witness :
  score_loop not_a_number 1 [] [] 1 = Ok ([], 1)
  /\ score_pii_findings not_a_number [] 1 DEFAULT_LABEL_THRESHOLDS
     = Ok (Build_RiskScoreResult 0 low 0 [] explanation_text)
  /\ exists lbl,
       risk_label_for_score 0 DEFAULT_LABEL_THRESHOLDS = Ok lbl
       /\ score_pii_findings not_a_number [] 1 DEFAULT_LABEL_THRESHOLDS
          = Ok (Build_RiskScoreResult 0 lbl 0 [] explanation_text)
       /\ ((forall k v, In (k, v) DEFAULT_LABEL_THRESHOLDS -> (v <=? 0) = true ->
              forall k' v', In (k', v') DEFAULT_LABEL_THRESHOLDS ->
                            (v <=? v') = true) ->
           exists v, In (lbl, v) DEFAULT_LABEL_THRESHOLDS
                     /\ forall k' v', In (k', v') DEFAULT_LABEL_THRESHOLDS ->
                                      (v <=? v') = true).
Proof.
  apply (C4_empty_findings_score_zero not_a_number 1 DEFAULT_LABEL_THRESHOLDS).
  - discriminate.
  - exact default_thresholds_numbers.
Defined.

(* ================================================================= *)
(** * Further properties of the code *)

Close Scope float_scope.
Close Scope Z_scope.

(* ----------------------------------------------------------------- *)
(** ** file_scanner.py: numbering and line ends *)

Section Scanner.

Import file_scanner.

Lemma string_of_app (a b : list ascii) :
  string_of_list_ascii (a ++ b) = (string_of_list_ascii a ++ string_of_list_ascii b)%string.
Proof. induction a as [|x a IH]; simpl; [reflexivity|now rewrite IH]. Qed.

Lemma list_of_app (a b : string) :
  list_ascii_of_string (a ++ b) = (list_ascii_of_string a ++ list_ascii_of_string b)%list.
Proof. induction a as [|x a IH]; simpl; [reflexivity|now rewrite IH]. Qed.

Lemma str_all_list (f : ascii -> bool) (s : string) :
  str_all f s = forallb f (list_ascii_of_string s).
Proof. induction s as [|c s IH]; simpl; [reflexivity|now rewrite IH]. Qed.

Lemma str_all_of_list (f : ascii -> bool) (l : list ascii) :
  str_all f (string_of_list_ascii l) = forallb f l.
Proof. now rewrite str_all_list, list_ascii_of_string_of_list_ascii. Qed.

Lemma forallb_rev' {A : Type} (f : A -> bool) (l : list A) :
  forallb f (List.rev l) = forallb f l.
Proof.
  induction l as [|x l IH]; simpl; [reflexivity|].
  rewrite forallb_app, IH. simpl. rewrite andb_true_r. apply andb_comm.
Qed.

Lemma last_char_snoc (l : list ascii) (c : ascii) :
  last_char (string_of_list_ascii (l ++ [c])) = Some c.
Proof.
  induction l as [|x l IH]; simpl; [reflexivity|].
  rewrite IH. destruct (string_of_list_ascii (l ++ [c])) eqn:E; [|reflexivity].
  destruct l; discriminate.
Qed.

Lemma ends_with_rev (f : ascii -> bool) (l : list ascii) :
  ends_with f (string_of_list_ascii (List.rev l))
  = match l with x :: _ => f x | [] => false end.
Proof.
  destruct l as [|x l]; [reflexivity|].
  unfold ends_with. simpl List.rev. now rewrite last_char_snoc.
Qed.

(** [lstrip_crlf] on lists of characters. *)
Lemma lstrip_crlf_split (s : string) :
  exists pre, s = (string_of_list_ascii pre ++ lstrip_crlf s)%string
              /\ forallb is_crlf pre = true
              /\ match list_ascii_of_string (lstrip_crlf s) with
                 | x :: _ => is_crlf x = false
                 | [] => True
                 end.
Proof.
  induction s as [|c s (pre & E & A & H)]; simpl.
  - exists []. auto.
  - destruct (is_crlf c) eqn:C.
    + exists (c :: pre). simpl. rewrite C, A. split; [now rewrite <- E|auto].
    + exists []. simpl. rewrite C. auto.
Qed.

Lemma rstrip_crlf_spec (raw : string) :
  exists tail, raw = (rstrip_crlf raw ++ tail)%string
               /\ str_all is_crlf tail = true
               /\ ends_with is_crlf (rstrip_crlf raw) = false.
Proof.
  unfold rstrip_crlf, Str.rev.
  destruct (lstrip_crlf_split (string_of_list_ascii (List.rev (list_ascii_of_string raw))))
    as (pre & E & A & H).
  remember (lstrip_crlf (string_of_list_ascii (List.rev (list_ascii_of_string raw)))) as kept.
  exists (string_of_list_ascii (List.rev pre)). split; [|split].
  - apply (f_equal list_ascii_of_string) in E.
    rewrite list_of_app, !list_ascii_of_string_of_list_ascii in E.
    apply (f_equal (@List.rev ascii)) in E. rewrite rev_involutive, rev_app_distr in E.
    rewrite <- string_of_app, <- E. symmetry. apply string_of_list_ascii_of_string.
  - rewrite str_all_of_list, forallb_rev'. exact A.
  - rewrite ends_with_rev. destruct (list_ascii_of_string kept); auto.
Qed.

Lemma number_lines_nth (filename : string) (keep : bool) (stream : list string) :
  forall (line_no : Z) (i : nat) (r : LineRecord),
    nth_error (number_lines filename keep line_no stream) i = Some r ->
    file_scanner.filename r = filename
    /\ line_number r = (line_no + Z.of_nat i)%Z
    /\ exists raw, nth_error stream i = Some raw
                   /\ line r = if keep then raw else rstrip_crlf raw.
Proof.
  induction stream as [|raw stream IH]; intros line_no i r H; simpl in H.
  - destruct i; discriminate.
  - destruct i as [|i]; simpl in H.
    + injection H as <-. simpl. repeat split; [lia|]. exists raw. auto.
    + apply IH in H as (F & N & raw' & R & L). repeat split; [exact F|lia|].
      exists raw'. auto.
Qed.

Lemma number_lines_length (filename : string) (keep : bool) (stream : list string) :
  forall line_no, List.length (number_lines filename keep line_no stream) = List.length stream.
Proof. induction stream; intros; simpl; [reflexivity|now rewrite IHstream]. Qed.

(** X1: with a start line of at least 1, scan_text_stream yields one record
    per line of the stream, in order: the i-th record (counting from 0)
    carries the given file name, the line number start_line + i, and the
    i-th line of the stream, as it is when keep_newline is set and without
    its trailing CR and LF characters otherwise. *)
Theorem scan_text_stream_numbers_every_line :
  forall (stream : list string) (filename : string) (start_line : Z)
         (keep_newline : bool),
    (1 <= start_line)%Z ->
    exists records,
      scan_text_stream stream filename start_line keep_newline = Ok records
      /\ List.length records = List.length stream
      /\ forall (i : nat) (r : LineRecord),
           nth_error records i = Some r ->
           file_scanner.filename r = filename
           /\ line_number r = (start_line + Z.of_nat i)%Z
           /\ exists raw,
                nth_error stream i = Some raw
                /\ line r = if keep_newline then raw else rstrip_crlf raw.
Proof.
  intros stream filename start_line keep H.
  exists (number_lines filename keep start_line stream).
  unfold scan_text_stream.
  destruct (start_line <? 1)%Z eqn:E; [apply Z.ltb_lt in E; lia|].
  split; [reflexivity|]. split; [apply number_lines_length|].
  intros i r Hr. now apply number_lines_nth in Hr.
Qed.

Lemma scan_text_stream_numbers_witness :
  exists records,
    scan_text_stream ["a" ; "b"] "f" 5 false = Ok records
    /\ List.length records = List.length ["a"; "b"]
    /\ forall (i : nat) (r : LineRecord),
         nth_error records i = Some r ->
         file_scanner.filename r = "f"
         /\ line_number r = (5 + Z.of_nat i)%Z
         /\ exists raw,
              nth_error ["a"; "b"] i = Some raw
              /\ line r = if false then raw else rstrip_crlf raw.
Proof.
  apply (scan_text_stream_numbers_every_line ["a"; "b"] "f" 5 false). lia.
Defined.

(** X2: with keep_newline false, the line of each record is the raw line
    without its trailing carriage returns and line feeds: the raw line is
    the record's line followed by CR and LF characters only, and the
    record's line does not end in CR or LF. *)
Theorem scan_text_stream_strips_line_ends :
  forall (stream : list string) (filename : string) (start_line : Z)
         (records : list LineRecord),
    scan_text_stream stream filename start_line false = Ok records ->
    forall (i : nat) (r : LineRecord),
      nth_error records i = Some r ->
      exists raw tail,
        nth_error stream i = Some raw
        /\ raw = (line r ++ tail)%string
        /\ str_all is_crlf tail = true
        /\ ends_with is_crlf (line r) = false.
Proof.
  intros stream filename start_line records H i r Hr.
  unfold scan_text_stream in H. destruct (start_line <? 1)%Z; [discriminate|].
  injection H as <-. apply number_lines_nth in Hr as (_ & _ & raw & R & L).
  destruct (rstrip_crlf_spec raw) as (tail & E & A & N).
  exists raw, tail. rewrite L. auto.
Qed.

Lemma scan_text_stream_strips_witness :
  exists raw tail,
    nth_error [String "a" (String CR (String LF ""))] 0 = Some raw
    /\ raw = (line (Build_LineRecord "f" 1 "a") ++ tail)%string
    /\ str_all is_crlf tail = true
    /\ ends_with is_crlf (line (Build_LineRecord "f" 1 "a")) = false.
Proof.
  apply (scan_text_stream_strips_line_ends
           [String "a" (String CR (String LF ""))] "f" 1
           [Build_LineRecord "f" 1 "a"] eq_refl 0 _ eq_refl).
Defined.

(** [scan_bytes] *)

Lemma concat_cons (h : string) (t : list string) :
  String.concat "" (h :: t) = (h ++ String.concat "" t)%string.
Proof.
  destruct t as [|x t]; simpl; [|reflexivity].
  induction h as [|c h IH]; simpl; [reflexivity|now rewrite <- IH].
Qed.

Lemma string_of_rev_cons (c : ascii) (cur l : list ascii) :
  (List.rev (c :: cur) ++ l = List.rev cur ++ c :: l)%list.
Proof. simpl. now rewrite <- app_assoc. Qed.

Lemma splitlines_keepends_concat (n : nat) :
  forall (l cur : list ascii),
    (List.length l <= n)%nat ->
    String.concat "" (splitlines_from true cur l)
    = string_of_list_ascii (List.rev cur ++ l).
Proof.
  induction n as [|n IH]; intros l cur Hn.
  - destruct l; [|simpl in Hn; lia]. simpl. rewrite app_nil_r.
    destruct cur; reflexivity.
  - destruct l as [|c l]; [simpl; rewrite app_nil_r; destruct cur; reflexivity|].
    simpl in Hn. cbn [splitlines_from].
    destruct (is_linebreak c) eqn:B.
    + destruct l as [|c' l].
      * simpl. reflexivity.
      * destruct (Chr.one "013" c && Chr.one "010" c') eqn:E.
        -- rewrite concat_cons, IH by (simpl in *; lia).
           rewrite <- string_of_app. f_equal. simpl.
           now rewrite <- !app_assoc.
        -- rewrite concat_cons, IH by (simpl in *; lia).
           rewrite <- string_of_app. f_equal. simpl.
           now rewrite <- !app_assoc.
    + rewrite IH by lia. now rewrite string_of_rev_cons.
Qed.

Lemma enumerate_lines_lines (filename : string) (keep : bool) (lines : list string) :
  forall i, map line (enumerate_lines filename keep i lines)
            = map (fun l => if keep then l else rstrip_crlf l) lines.
Proof. induction lines; intros; simpl; [reflexivity|now rewrite IHlines]. Qed.

Lemma enumerate_lines_nth (filename : string) (keep : bool) (lines : list string) :
  forall (start : Z) (i : nat) (r : LineRecord),
    nth_error (enumerate_lines filename keep start lines) i = Some r ->
    file_scanner.filename r = filename /\ line_number r = (start + Z.of_nat i)%Z.
Proof.
  induction lines as [|l lines IH]; intros start i r H; simpl in H.
  - destruct i; discriminate.
  - destruct i as [|i]; simpl in H.
    + injection H as <-. simpl. split; [reflexivity|lia].
    + apply IH in H as (F & N). split; [exact F|lia].
Qed.

Lemma enumerate_lines_length (filename : string) (keep : bool) (lines : list string) :
  forall i, List.length (enumerate_lines filename keep i lines) = List.length lines.
Proof. induction lines; intros; simpl; [reflexivity|now rewrite IHlines]. Qed.

Lemma map_id' {A : Type} (l : list A) : map (fun x => x) l = l.
Proof. induction l; simpl; congruence. Qed.

(** X3: with keep_newline true, scan_bytes loses no character: the lines of
    the records, concatenated, are the decoded text. *)
Theorem scan_bytes_keeps_every_character :
  forall (decode : list byte -> result string) (data : list byte)
         (filename : string) (start_line : Z) (text : string),
    decode data = Ok text ->
    (1 <= start_line)%Z ->
    exists records,
      scan_bytes decode data filename true start_line = Ok records
      /\ String.concat "" (map line records) = text.
Proof.
  intros decode data filename start_line text D H.
  unfold scan_bytes. rewrite D. simpl.
  destruct (start_line <? 1)%Z eqn:E; [apply Z.ltb_lt in E; lia|].
  eexists. split; [reflexivity|].
  rewrite enumerate_lines_lines. unfold splitlines.
  rewrite map_id'.
  rewrite (splitlines_keepends_concat _ _ [] (le_n _)). simpl.
  apply string_of_list_ascii_of_string.
Qed.

Lemma scan_bytes_keeps_witness :
  exists records,
    file_scanner.scan_bytes file_scanner.decode_ascii_strict two_lines "f" true 1
    = Ok records
    /\ String.concat "" (map file_scanner.line records)
       = String "a" (String LF (String "b" "")).
Proof.
  apply (scan_bytes_keeps_every_character
           file_scanner.decode_ascii_strict two_lines "f" 1 _ eq_refl).
  lia.
Defined.

(** Lines without their ends *)

Lemma crlf_is_linebreak (c : ascii) : is_crlf c = true -> is_linebreak c = true.
Proof.
  unfold is_crlf, Chr.one. intros H. apply orb_true_iff in H as [H|H];
    apply Ascii.eqb_eq in H; subst c; reflexivity.
Qed.

Lemma forallb_rev_cons (f : ascii -> bool) (c : ascii) (cur : list ascii) :
  f c = true -> forallb f (List.rev cur) = true ->
  forallb f (List.rev (c :: cur)) = true.
Proof. intros. simpl. rewrite forallb_app. simpl. now rewrite H, H0. Qed.

Lemma splitlines_plain (n : nat) :
  forall (l cur : list ascii),
    (List.length l <= n)%nat ->
    forallb not_linebreak (List.rev cur) = true ->
    Forall (fun s => str_all not_linebreak s = true) (splitlines_from false cur l)
    /\ String.concat "" (splitlines_from false cur l)
       = string_of_list_ascii (List.rev cur ++ List.filter not_linebreak l).
Proof.
  induction n as [|n IH]; intros l cur Hn Hc.
  - destruct l; [|simpl in Hn; lia]. simpl. rewrite app_nil_r.
    destruct cur as [|x cur]; [split; [constructor|reflexivity]|].
    split; [|reflexivity]. constructor; [|constructor]. now rewrite str_all_of_list.
  - destruct l as [|c l].
    { simpl. rewrite app_nil_r.
      destruct cur as [|x cur]; [split; [constructor|reflexivity]|].
      split; [|reflexivity]. constructor; [|constructor]. now rewrite str_all_of_list. }
    simpl in Hn. cbn [splitlines_from List.filter].
    change (not_linebreak c) with (negb (is_linebreak c)).
    destruct (is_linebreak c) eqn:B; cbn [negb].
    + destruct l as [|c' l].
      * simpl. split; [|now rewrite app_nil_r].
        constructor; [|constructor]. now rewrite str_all_of_list.
      * destruct (Chr.one "013" c && Chr.one "010" c') eqn:E.
        -- destruct (IH l [] ltac:(simpl in *; lia) eq_refl) as [F C].
           split; [constructor; [now rewrite str_all_of_list|exact F]|].
           rewrite concat_cons, C. rewrite <- string_of_app. f_equal.
           apply andb_true_iff in E as [_ E]. apply Ascii.eqb_eq in E. subst c'.
           reflexivity.
        -- destruct (IH (c' :: l) [] ltac:(simpl in *; lia) eq_refl) as [F C].
           split; [constructor; [now rewrite str_all_of_list|exact F]|].
           rewrite concat_cons, C. rewrite <- string_of_app. reflexivity.
    + assert (Hc' : forallb not_linebreak (List.rev (c :: cur)) = true).
      { apply forallb_rev_cons; [unfold not_linebreak; now rewrite B|exact Hc]. }
      destruct (IH l (c :: cur) ltac:(lia) Hc') as [F C].
      split; [exact F|]. rewrite C. now rewrite string_of_rev_cons.
Qed.

Lemma str_all_app (f : ascii -> bool) (a b : string) :
  str_all f (a ++ b)%string = str_all f a && str_all f b.
Proof. induction a as [|c a IH]; simpl; [reflexivity|now rewrite IH, andb_assoc]. Qed.

Lemma rstrip_crlf_plain (s : string) :
  str_all not_linebreak s = true -> rstrip_crlf s = s.
Proof.
  intros H. destruct (rstrip_crlf_spec s) as (tail & E & A & _).
  rewrite E in H. rewrite str_all_app in H. apply andb_true_iff in H as [_ H].
  destruct tail as [|c tail].
  - rewrite E at 2. clear. induction (rstrip_crlf s); simpl; congruence.
  - simpl in A, H. apply andb_true_iff in A as [A _]. apply andb_true_iff in H as [H _].
    apply crlf_is_linebreak in A. unfold not_linebreak in H. rewrite A in H. discriminate.
Qed.

Lemma filter_list (f : ascii -> bool) (s : string) :
  Str.filter f s = string_of_list_ascii (List.filter f (list_ascii_of_string s)).
Proof.
  induction s as [|c s IH]; simpl; [reflexivity|].
  destruct (f c); simpl; now rewrite IH.
Qed.

(** X4: with keep_newline false, no line that scan_bytes yields contains a
    line boundary of str.splitlines, and the lines, concatenated, are the
    decoded text with exactly the boundary characters removed. *)
Theorem scan_bytes_lines_have_no_line_break :
  forall (decode : list byte -> result string) (data : list byte)
         (filename : string) (start_line : Z) (text : string)
         (records : list LineRecord),
    decode data = Ok text ->
    scan_bytes decode data filename false start_line = Ok records ->
    Forall (fun r => str_all not_linebreak (line r) = true) records
    /\ String.concat "" (map line records) = Str.filter not_linebreak text.
Proof.
  intros decode data filename start_line text records D H.
  unfold scan_bytes in H. rewrite D in H. simpl in H.
  destruct (start_line <? 1)%Z; [discriminate|]. injection H as <-.
  unfold splitlines.
  destruct (splitlines_plain _ (list_ascii_of_string text) [] (le_n _) eq_refl) as [F C].
  assert (M : map line (enumerate_lines filename false start_line
                          (splitlines_from false [] (list_ascii_of_string text)))
              = splitlines_from false [] (list_ascii_of_string text)).
  { rewrite enumerate_lines_lines. clear C.
    induction F as [|s l Hs F IH]; simpl; [reflexivity|].
    rewrite IH. now rewrite rstrip_crlf_plain. }
  split.
  - apply Forall_forall. intros r Hr.
    assert (Hin : In (line r) (splitlines_from false [] (list_ascii_of_string text))).
    { rewrite <- M. now apply in_map. }
    rewrite Forall_forall in F. now apply F.
  - rewrite M, C. simpl. symmetry. apply filter_list.
Qed.

Lemma scan_bytes_no_line_break_witness :
  exists records,
    file_scanner.scan_bytes file_scanner.decode_ascii_strict two_lines "f" false 1
    = Ok records
    /\ Forall (fun r => str_all not_linebreak (file_scanner.line r) = true) records
    /\ String.concat "" (map file_scanner.line records)
       = Str.filter not_linebreak (String "a" (String LF (String "b" ""))).
Proof.
  eexists. split; [reflexivity|].
  apply (scan_bytes_lines_have_no_line_break
           file_scanner.decode_ascii_strict two_lines "f" 1 _ _ eq_refl eq_refl).
Defined.

Lemma splitlines_count (n : nat) :
  forall (l cur cur' : list ascii),
    (List.length l <= n)%nat ->
    (cur = [] <-> cur' = []) ->
    List.length (splitlines_from true cur l) = List.length (splitlines_from false cur' l).
Proof.
  induction n as [|n IH]; intros l cur cur' Hn Hc.
  - destruct l; [|simpl in Hn; lia]. simpl.
    destruct cur, cur'; try reflexivity; destruct Hc as [A B];
      [specialize (A eq_refl)|specialize (B eq_refl)]; discriminate.
  - destruct l as [|c l].
    { simpl. destruct cur, cur'; try reflexivity; destruct Hc as [A B];
        [specialize (A eq_refl)|specialize (B eq_refl)]; discriminate. }
    simpl in Hn. cbn [splitlines_from].
    destruct (is_linebreak c).
    + destruct l as [|c' l]; [reflexivity|].
      destruct (Chr.one "013" c && Chr.one "010" c'); cbn [List.length]; f_equal;
        apply IH; cbn [List.length] in *; try lia; tauto.
    + apply IH; [lia|]. split; discriminate.
Qed.

(** X5: scan_bytes yields the same number of records whether keep_newline is
    set or not, and in both cases the i-th record has the given file name
    and line number start_line + i. *)
Theorem scan_bytes_numbers_lines_alike :
  forall (decode : list byte -> result string) (data : list byte)
         (filename : string) (start_line : Z) (text : string),
    decode data = Ok text ->
    (1 <= start_line)%Z ->
    exists kept stripped,
      scan_bytes decode data filename true start_line = Ok kept
      /\ scan_bytes decode data filename false start_line = Ok stripped
      /\ List.length kept = List.length stripped
      /\ forall (i : nat) (r : LineRecord),
           nth_error kept i = Some r \/ nth_error stripped i = Some r ->
           file_scanner.filename r = filename
           /\ line_number r = (start_line + Z.of_nat i)%Z.
Proof.
  intros decode data filename start_line text D H.
  unfold scan_bytes. rewrite D. simpl.
  destruct (start_line <? 1)%Z eqn:E; [apply Z.ltb_lt in E; lia|].
  eexists. eexists. split; [reflexivity|]. split; [reflexivity|]. split.
  - rewrite !enumerate_lines_length. unfold splitlines.
    apply (splitlines_count _ _ [] [] (le_n _)). tauto.
  - intros i r [Hr|Hr]; now apply enumerate_lines_nth in Hr.
Qed.

Lemma scan_bytes_numbers_witness :
  exists kept stripped,
    file_scanner.scan_bytes file_scanner.decode_ascii_strict two_lines "f" true 7
    = Ok kept
    /\ file_scanner.scan_bytes file_scanner.decode_ascii_strict two_lines "f" false 7
       = Ok stripped
    /\ List.length kept = List.length stripped
    /\ forall (i : nat) (r : file_scanner.LineRecord),
         nth_error kept i = Some r \/ nth_error stripped i = Some r ->
         file_scanner.filename r = "f"
         /\ file_scanner.line_number r = (7 + Z.of_nat i)%Z.
Proof.
  apply (scan_bytes_numbers_lines_alike
           file_scanner.decode_ascii_strict two_lines "f" 7 _ eq_refl).
  lia.
Defined.

End Scanner.

(* ----------------------------------------------------------------- *)
(** ** The matcher is sound for the declarative reading *)

Section Sound.

Import Re ReSpec.
Local Open Scope nat_scope.

Lemma last_of_app (w1 w2 : list ascii) :
  forall p, last_of (w1 ++ w2) p = last_of w2 (last_of w1 p).
Proof. induction w1 as [|x w1 IH]; intros p; simpl; [reflexivity|apply IH]. Qed.

Lemma after_rest (cu : cursor) (w l' : list ascii) :
  rest cu = w ++ l' -> rest (after cu w) = l'.
Proof.
  intros E. unfold after. cbn [rest]. rewrite E.
  rewrite skipn_app, Nat.sub_diag, skipn_all. reflexivity.
Qed.

Lemma after_after (cu : cursor) (w1 w2 : list ascii) :
  after (after cu w1) w2 = after cu (w1 ++ w2).
Proof.
  unfold after. cbn [prev rest pos]. f_equal.
  - now rewrite last_of_app.
  - rewrite skipn_skipn, length_app. f_equal. lia.
  - rewrite length_app. lia.
Qed.

Lemma leave_sound (lo : nat) (k : cont) (cu : cursor) (e : nat) :
  leave lo k cu = Some e -> lo = 0 /\ k cu = Some e.
Proof. destruct lo; [auto|discriminate]. Qed.

Lemma rep_sound (c : ascii -> bool) (k : cont) (l : list ascii) :
  forall (lo : nat) (hi : option nat) (p : option ascii) (i e : nat),
    rep c lo hi k p l i = Some e ->
    exists w l',
      l = w ++ l' /\ forallb c w = true /\ lo <= List.length w
      /\ match hi with Some h => List.length w <= h | None => True end
      /\ k (Cursor (last_of w p) l' (i + List.length w)) = Some e.
Proof.
  induction l as [|x l IH]; intros lo hi p i e H.
  - assert (L : leave lo k (Cursor p [] i) = Some e)
      by (destruct hi as [[|h]|]; exact H).
    apply leave_sound in L as [-> L]. exists [], []. simpl.
    rewrite Nat.add_0_r. repeat split; auto. destruct hi; [lia|exact I].
  - assert (L : leave lo k (Cursor p (x :: l) i) = Some e
                \/ (c x = true /\ hi <> Some 0
                    /\ rep c (Nat.pred lo) (option_map Nat.pred hi) k (Some x) l (S i)
                       = Some e)).
    { cbn [rep] in H. destruct hi as [[|h]|]; [now left| |];
        (destruct (c x); [|now left]);
        match type of H with
        | match ?r with _ => _ end = _ =>
          destruct r eqn:E; [right; split; [reflexivity|split; congruence]|now left]
        end. }
    destruct L as [L|(Cx & Hh & L)].
    + apply leave_sound in L as [-> L]. exists [], (x :: l). simpl.
      rewrite Nat.add_0_r. repeat split; auto. destruct hi; [lia|exact I].
    + apply IH in L as (w & l' & El & Fw & Hlo & Hhi & Hk).
      exists (x :: w), l'. simpl. rewrite Cx, Fw, <- El.
      replace (i + S (List.length w)) with (S i + List.length w) by lia.
      repeat split; auto; [lia|].
      destruct hi as [[|h]|]; simpl in *; [congruence|lia|exact I].
Qed.

Lemma run_sound (r : regex) :
  forall (k : cont) (cu : cursor) (e : nat),
    run r k cu = Some e ->
    exists w l',
      rest cu = w ++ l' /\ derives r cu w /\ k (after cu w) = Some e.
Proof.
  induction r as [c|a IHa b IHb|a IHa b IHb|c lo hi|a IHa|c|a IHa|];
    intros k cu e H; cbn [run derives] in *.
  - destruct (rest cu) as [|x l] eqn:R; [discriminate|].
    destruct (c x) eqn:C; [|discriminate].
    exists [x], l. split; [reflexivity|]. split; [eauto|].
    unfold after. rewrite R. cbn. rewrite Nat.add_1_r. exact H.
  - apply IHa in H as (w1 & l1 & R1 & D1 & H).
    apply IHb in H as (w2 & l2 & R2 & D2 & H).
    rewrite (after_rest _ _ _ R1) in R2. subst l1.
    exists (w1 ++ w2), l2. split; [now rewrite <- app_assoc|].
    split; [eauto|]. now rewrite <- after_after.
  - destruct (run a k cu) eqn:E.
    + injection H as ->. apply IHa in E as (w & l' & R & D & H). eauto 6.
    + apply IHb in H as (w & l' & R & D & H). eauto 6.
  - apply rep_sound in H as (w & l' & R & F & Hlo & Hhi & H).
    exists w, l'. repeat split; auto.
    unfold after. rewrite R, skipn_app, Nat.sub_diag, skipn_all. exact H.
  - destruct (run a k cu) eqn:E.
    + injection H as ->. apply IHa in E as (w & l' & R & D & H). eauto 6.
    + exists [], (rest cu). repeat split; auto.
      unfold after. simpl. rewrite Nat.add_0_r. now destruct cu.
  - exists [], (rest cu).
    assert (A : after cu [] = cu)
      by (unfold after; simpl; rewrite Nat.add_0_r; now destruct cu).
    rewrite A. destruct (prev cu) as [x|]; [|auto].
    destruct (c x); [discriminate|auto].
  - exists [], (rest cu).
    assert (A : after cu [] = cu)
      by (unfold after; simpl; rewrite Nat.add_0_r; now destruct cu).
    rewrite A. unfold match_at.
    destruct (run a (fun cu' => Some (pos cu')) cu); [discriminate|auto].
  - exists [], (rest cu).
    assert (A : after cu [] = cu)
      by (unfold after; simpl; rewrite Nat.add_0_r; now destruct cu).
    rewrite A.
    destruct (xorb (word_before cu) (word_after cu)); [auto|discriminate].
Qed.

(** A match found at a cursor is a declarative match of the characters up
    to its end. *)
Lemma match_at_sound (r : regex) (cu : cursor) (e : nat) :
  match_at r cu = Some e ->
  exists w l', rest cu = w ++ l' /\ derives r cu w /\ e = pos cu + List.length w.
Proof.
  intros H. apply run_sound in H as (w & l' & R & D & [= <-]). eauto.
Qed.

(** The positions [finditer] tries are positions of the subject. *)
Lemma skipn_step (subject : list ascii) (i : nat) (x : ascii) (l : list ascii) :
  skipn i subject = x :: l ->
  skipn (S i) subject = l
  /\ last_of (firstn (S i) subject) None = Some x
  /\ i < List.length subject.
Proof.
  revert i. induction subject as [|y subject IH]; intros i H.
  - destruct i; discriminate.
  - destruct i as [|i].
    + simpl in H. injection H as -> ->. simpl. repeat split. lia.
    + simpl in H. apply IH in H as (S1 & L1 & B). split; [exact S1|].
      split; [|simpl; lia].
      clear - L1. change (firstn (S (S i)) (y :: subject)) with (y :: firstn (S i) subject).
      cbn [last_of]. revert L1. generalize (firstn (S i) subject). intros w.
      assert (G : forall w p q, last_of w p = Some x -> w <> [] -> last_of w q = Some x).
      { clear. induction w as [|z w IH]; intros p q H N; [congruence|].
        simpl in *. exact H. }
      intros L1. destruct w as [|z w]; [simpl in L1; discriminate|].
      simpl in *. exact L1.
Qed.

Lemma scan_sound (r : regex) (subject : list ascii) (l : list ascii) :
  forall (i skip s e : nat),
    l = skipn i subject ->
    i <= List.length subject ->
    In (s, e) (scan r (last_of (firstn i subject) None) l i skip) ->
    match_at r (cursor_at subject s) = Some e
    /\ i + skip <= s <= List.length subject.
Proof.
  induction l as [|x l IH]; intros i skip s e El Hi H.
  - destruct skip as [|skip]; cbn [scan] in H; [|destruct H].
    destruct (match_at r (Cursor _ [] i)) eqn:E; [|destruct H].
    destruct H as [[= <- <-]|[]]. unfold cursor_at. rewrite <- El.
    split; [exact E|lia].
  - symmetry in El. destruct (skipn_step _ _ _ _ El) as (S1 & L1 & B).
    symmetry in S1.
    destruct skip as [|skip]; cbn [scan] in H.
    + destruct (match_at r (Cursor _ (x :: l) i)) eqn:E.
      * destruct H as [[= <- <-]|H].
        -- unfold cursor_at. rewrite El. split; [exact E|lia].
        -- rewrite <- L1 in H. apply (IH _ _ _ _ S1 B) in H. split; [tauto|lia].
      * rewrite <- L1 in H. apply (IH _ _ _ _ S1 B) in H. split; [tauto|lia].
    + rewrite <- L1 in H. apply (IH _ _ _ _ S1 B) in H. split; [tauto|lia].
Qed.

Lemma finditer_sound (r : regex) (line : string) (s e : nat) :
  In (s, e) (finditer r line) ->
  match_at r (cursor_at (list_ascii_of_string line) s) = Some e
  /\ s <= String.length line.
Proof.
  intros H. unfold finditer in H.
  apply (scan_sound r (list_ascii_of_string line) _ 0 0 s e eq_refl (Nat.le_0_l _)) in H.
  destruct H as [M B]. split; [exact M|].
  replace (String.length line) with (List.length (list_ascii_of_string line)); [lia|].
  clear. induction line; simpl; congruence.
Qed.

End Sound.
(* ----------------------------------------------------------------- *)
(** ** The shape of a match of each pattern *)

Section Shapes.

Import Re ReSpec.
Local Open Scope nat_scope.

Lemma for_every_char_spec (f : ascii -> bool) :
  for_every_char f = true -> forall x, f x = true.
Proof.
  intros H x. unfold for_every_char in H. rewrite forallb_forall in H.
  apply H. unfold every_char. rewrite <- (ascii_nat_embedding x).
  apply in_map. apply in_seq. pose proof (nat_ascii_bounded x). lia.
Qed.

Lemma class_within (c P : ascii -> bool) :
  for_every_char (fun x => implb (c x) (P x)) = true ->
  forall x, c x = true -> P x = true.
Proof.
  intros H x Hc. pose proof (for_every_char_spec _ H x) as I. simpl in I.
  rewrite Hc in I. exact I.
Qed.

Lemma class_without (c P : ascii -> bool) :
  for_every_char (fun x => implb (c x) (negb (P x))) = true ->
  forall x, c x = true -> P x = false.
Proof.
  intros H x Hc. pose proof (for_every_char_spec _ H x) as I. simpl in I.
  rewrite Hc in I. simpl in I. now apply negb_true_iff.
Qed.

Lemma forallb_impl (c P : ascii -> bool) (w : list ascii) :
  (forall x, c x = true -> P x = true) -> forallb c w = true -> forallb P w = true.
Proof.
  intros H F. rewrite forallb_forall in *. auto.
Qed.

Lemma derives_within (P : ascii -> bool) (r : regex) :
  reads_within P r ->
  forall cu w, derives r cu w -> forallb P w = true.
Proof.
  induction r as [c|a IHa b IHb|a IHa b IHb|c lo hi|a IHa|c|a IHa|];
    cbn [reads_within derives]; intros R cu w D.
  - destruct D as (x & -> & Hx). simpl. now rewrite (R x Hx).
  - destruct R as [Ra Rb]. destruct D as (w1 & w2 & -> & D1 & D2).
    rewrite forallb_app, (IHa Ra _ _ D1), (IHb Rb _ _ D2). reflexivity.
  - destruct R as [Ra Rb]. destruct D as [D|D]; eauto.
  - destruct D as (F & _). eapply forallb_impl; eauto.
  - destruct D as [D| ->]; eauto.
  - destruct D as [-> _]. reflexivity.
  - destruct D as [-> _]. reflexivity.
  - destruct D as [-> _]. reflexivity.
Qed.

(** Strings and lists of characters. *)

Lemma length_chars (s : string) :
  List.length (list_ascii_of_string s) = String.length s.
Proof. induction s; simpl; congruence. Qed.

Lemma length_str (l : list ascii) :
  String.length (string_of_list_ascii l) = List.length l.
Proof. induction l; simpl; congruence. Qed.

Lemma substring_chars (s : string) :
  forall n m,
    list_ascii_of_string (substring n m s)
    = firstn m (skipn n (list_ascii_of_string s)).
Proof.
  induction s as [|c s IH]; intros n m.
  - destruct n, m; reflexivity.
  - destruct n as [|n].
    + destruct m as [|m]; [reflexivity|]. simpl. f_equal. apply (IH 0 m).
    + simpl. apply IH.
Qed.

Lemma last_of_last_char (l : list ascii) :
  forall p, last_of l p
            = match last_char (string_of_list_ascii l) with
              | Some y => Some y
              | None => p
              end.
Proof.
  induction l as [|x l IH]; intros p; [reflexivity|].
  cbn [last_of]. rewrite IH. cbn [string_of_list_ascii last_char].
  destruct (string_of_list_ascii l) eqn:E; [reflexivity|].
  destruct (last_char (String a s)) eqn:L; [reflexivity|].
  exfalso. clear - L. revert a L. induction s; intros; simpl in *; [discriminate|eauto].
Qed.

Lemma ends_with_chars (f : ascii -> bool) (l : list ascii) :
  ends_with f (string_of_list_ascii l)
  = match last_of l None with Some x => f x | None => false end.
Proof.
  unfold ends_with. rewrite last_of_last_char.
  now destruct (last_char (string_of_list_ascii l)).
Qed.

Lemma starts_with_chars (f : ascii -> bool) (l : list ascii) :
  starts_with f (string_of_list_ascii l)
  = match l with x :: _ => f x | [] => false end.
Proof. now destruct l. Qed.

(** A match reported by [finditer] stands in the line, and is a match in
    the declarative sense at the place where it stands. *)
Lemma finditer_occurs (r : regex) (line : string) (sp : nat * nat) :
  In sp (finditer r line) ->
  exists pre w post,
    list_ascii_of_string line = pre ++ w ++ post
    /\ List.length pre = fst sp
    /\ snd sp = fst sp + List.length w
    /\ slice line sp = string_of_list_ascii w
    /\ derives r (Cursor (last_of pre None) (w ++ post) (fst sp)) w.
Proof.
  destruct sp as [s e]. intros H.
  apply finditer_sound in H as [M B].
  apply match_at_sound in M as (w & post & R & D & E).
  unfold cursor_at in R, D, E. cbn [rest pos] in R, E.
  exists (firstn s (list_ascii_of_string line)), w, post.
  cbn [fst snd]. rewrite <- R. split; [now rewrite firstn_skipn|].
  split; [rewrite length_firstn, length_chars; lia|]. split; [exact E|].
  split; [|exact D].
  unfold slice. cbn [fst snd]. rewrite <- (string_of_list_ascii_of_string (substring _ _ _)).
  f_equal. rewrite substring_chars, R.
  replace (e - s) with (List.length w + 0) by lia.
  rewrite firstn_app_2. simpl. now rewrite app_nil_r.
Qed.

Lemma not_ahead_class (c : ascii -> bool) (cu : cursor) :
  match_at (Cls c) cu = None ->
  match rest cu with x :: _ => c x = false | [] => True end.
Proof.
  unfold match_at. cbn [run]. destruct (rest cu) as [|x l]; [auto|].
  destruct (c x); [discriminate|auto].
Qed.

Lemma after_nil (cu : cursor) : after cu [] = cu.
Proof. unfold after. simpl. rewrite Nat.add_0_r. now destruct cu. Qed.

Lemma aadhaar_shape (cu : cursor) (w post : list ascii) :
  rest cu = w ++ post ->
  derives AADHAAR_RE cu w ->
  unguarded (prev cu) post
  /\ exists d a s1 b s2 c,
       w = d :: a ++ s1 ++ b ++ s2 ++ c
       /\ Chr.between 50 57 d = true
       /\ forallb Chr.digit a = true /\ List.length a = 3
       /\ forallb Chr.id_sep s1 = true /\ List.length s1 <= 1
       /\ forallb Chr.digit b = true /\ List.length b = 4
       /\ forallb Chr.id_sep s2 = true /\ List.length s2 <= 1
       /\ forallb Chr.digit c = true /\ List.length c = 4.
Proof.
  intros R D. unfold AADHAAR_RE in D. cbn [derives Exactly Maybe Lit] in D.
  destruct D as (w1 & w2 & -> & (-> & G1) & w3 & w4 & -> & (-> & _)
                 & w5 & w6 & -> & (d & -> & Hd)
                 & a & w8 & -> & (Fa & La)
                 & s1 & w10 & -> & (F1 & L1)
                 & b & w12 & -> & (Fb & Lb)
                 & s2 & w14 & -> & (F2 & L2)
                 & c & w16 & -> & (Fc & Lc) & -> & G2).
  rewrite !after_nil, !after_after in G2.
  apply not_ahead_class in G2.
  simpl in R. rewrite app_nil_r in R.
  erewrite after_rest in G2
    by (rewrite R; simpl; rewrite <- !app_assoc; reflexivity).
  split; [split; assumption|].
  exists d, a, s1, b, s2, c. simpl. rewrite app_nil_r.
  repeat split; auto; lia.
Qed.

Lemma phone_shape (cu : cursor) (w post : list ascii) :
  rest cu = w ++ post ->
  derives PHONE_RE cu w ->
  unguarded (prev cu) post /\ forallb phone_char w = true.
Proof.
  intros R D. split.
  - unfold PHONE_RE in D. cbn [derives] in D.
    destruct D as (w1 & w2 & -> & (-> & G1) & w3 & w4 & -> & _
                   & w5 & w6 & -> & _ & w7 & w8 & -> & _ & -> & G2).
    rewrite !after_nil, !after_after in G2. apply not_ahead_class in G2.
    simpl in R. rewrite app_nil_r in R.
    erewrite after_rest in G2 by (rewrite R; rewrite <- !app_assoc; reflexivity).
    split; assumption.
  - revert D. apply derives_within.
    unfold PHONE_RE. cbn [reads_within Maybe Star Exactly AtLeast Lit].
    repeat split; apply class_within; vm_compute; reflexivity.
Qed.

Lemma email_shape (cu : cursor) (w : list ascii) :
  derives EMAIL_RE cu w ->
  exists local domain tld,
    w = local ++ "@"%char :: domain ++ "."%char :: tld
    /\ forallb Chr.email_local local = true /\ 1 <= List.length local
    /\ forallb Chr.email_domain domain = true /\ 1 <= List.length domain
    /\ forallb Chr.letter_ci tld = true /\ 2 <= List.length tld.
Proof.
  intros D. unfold EMAIL_RE in D. cbn [derives Plus AtLeast Lit] in D.
  destruct D as (w1 & w2 & -> & (-> & _)
                 & local & w4 & -> & (Fl & Ll & _)
                 & w5 & w6 & -> & (x & -> & Hx)
                 & domain & w8 & -> & (Fd & Ld & _)
                 & w9 & w10 & -> & (y & -> & Hy)
                 & tld & w12 & -> & (Ft & Lt & _) & -> & _).
  apply Ascii.eqb_eq in Hx, Hy. subst x y.
  exists local, domain, tld. simpl. rewrite app_nil_r. repeat split; auto.
Qed.

End Shapes.
(* ----------------------------------------------------------------- *)
(** ** pii_detector.py: the values of the matches *)

Section Values.

Import Re ReSpec.
Local Open Scope nat_scope.

Lemma str_all_chars (f : ascii -> bool) (l : list ascii) :
  forallb f l = true -> str_all f (string_of_list_ascii l) = true.
Proof. intros H. now rewrite str_all_of_list. Qed.

Lemma lstrip_split (s : string) :
  exists a, s = (a ++ Str.lstrip s)%string
            /\ str_all Chr.space a = true
            /\ starts_with Chr.space (Str.lstrip s) = false.
Proof.
  induction s as [|c s (a & E & A & H)]; simpl.
  - exists ""%string. auto.
  - destruct (Chr.space c) eqn:C.
    + exists (String c a). simpl. rewrite C, A. split; [now rewrite <- E|auto].
    + exists ""%string. simpl. auto.
Qed.

Lemma rstrip_split (s : string) :
  exists b, s = (Str.rstrip s ++ b)%string
            /\ str_all Chr.space b = true
            /\ ends_with Chr.space (Str.rstrip s) = false.
Proof.
  unfold Str.rstrip, Str.rev.
  destruct (lstrip_split (string_of_list_ascii (List.rev (list_ascii_of_string s))))
    as (a & E & A & H).
  remember (Str.lstrip (string_of_list_ascii (List.rev (list_ascii_of_string s)))) as kept.
  exists (string_of_list_ascii (List.rev (list_ascii_of_string a))). split; [|split].
  - apply (f_equal list_ascii_of_string) in E.
    rewrite list_of_app, !list_ascii_of_string_of_list_ascii in E.
    apply (f_equal (@List.rev ascii)) in E. rewrite rev_involutive, rev_app_distr in E.
    rewrite <- string_of_app, <- E. symmetry. apply string_of_list_ascii_of_string.
  - rewrite str_all_of_list, forallb_rev', <- str_all_list. exact A.
  - rewrite ends_with_rev. destruct kept; simpl in *; auto.
Qed.

Lemma starts_with_prefix (f : ascii -> bool) (a b : string) :
  starts_with f (a ++ b)%string = false -> starts_with f a = false.
Proof. destruct a; simpl; auto. Qed.

Lemma append_assoc' (a b c : string) :
  ((a ++ b) ++ c = a ++ b ++ c)%string.
Proof. induction a; simpl; congruence. Qed.

Lemma strip_split (s : string) :
  exists a b, s = (a ++ Str.strip s ++ b)%string
              /\ str_all Chr.space a = true /\ str_all Chr.space b = true
              /\ starts_with Chr.space (Str.strip s) = false
              /\ ends_with Chr.space (Str.strip s) = false.
Proof.
  unfold Str.strip.
  destruct (lstrip_split s) as (a & Ea & Aa & Ha).
  destruct (rstrip_split (Str.lstrip s)) as (b & Eb & Ab & Hb).
  exists a, b. split; [now rewrite <- Eb|]. repeat split; auto.
  rewrite Eb in Ha. now apply starts_with_prefix in Ha.
Qed.

Lemma iter_inv (f : string) (n : Z) (line : string) (m : PiiMatch) :
  In m (_iter_matches_for_line f n line) ->
  exists h, In h (line_hits line)
            /\ pii_type m = hit_type h /\ value m = hit_value h
            /\ filename m = f /\ line_number m = n.
Proof.
  unfold _iter_matches_for_line. intros H.
  apply in_map_iff in H as (h & <- & Hh). exists h. auto.
Qed.

Lemma line_hits_values (line : string) (h : hit) :
  In h (line_hits line) ->
  (hit_type h = email /\ In (hit_span h) (finditer EMAIL_RE line)
   /\ hit_value h = slice line (hit_span h))
  \/ (hit_type h = aadhaar /\ In (hit_span h) (finditer AADHAAR_RE line)
      /\ hit_value h = slice line (hit_span h))
  \/ (hit_type h = phone /\ In (hit_span h) (finditer PHONE_RE line)
      /\ hit_value h = Str.strip (slice line (hit_span h))
      /\ 7 <= String.length (Str.digits_only (hit_value h))).
Proof.
  unfold line_hits. intros H.
  apply in_app_or in H as [H|H].
  - left. apply in_map_iff in H as (sp & <- & Hsp). auto.
  - apply in_app_or in H as [H|H].
    + right; left. apply in_map_iff in H as (sp & <- & Hsp). auto.
    + right; right. apply in_flat_map in H as (sp & Hsp & H).
      unfold phone_hit in H. destruct (overlaps_any _ sp); [destruct H|].
      destruct (String.length _ <? 7) eqn:L; [destruct H|].
      destruct H as [<-|[]]. cbn [hit_type hit_span hit_value].
      apply Nat.ltb_ge in L. auto.
Qed.

Lemma unguarded_strings (pre post : list ascii) :
  unguarded (last_of pre None) post ->
  ends_with Chr.word (string_of_list_ascii pre) = false
  /\ starts_with Chr.word (string_of_list_ascii post) = false.
Proof.
  intros [G1 G2]. rewrite ends_with_chars, starts_with_chars.
  split; [destruct (last_of pre None)|destruct post]; auto.
Qed.

Lemma line_split (line : string) (pre w post : list ascii) :
  list_ascii_of_string line = pre ++ w ++ post ->
  line = (string_of_list_ascii pre ++ string_of_list_ascii w
          ++ string_of_list_ascii post)%string.
Proof.
  intros E. rewrite <- !string_of_app, <- E. symmetry.
  apply string_of_list_ascii_of_string.
Qed.

Lemma filter_chars (f : ascii -> bool) (l : list ascii) :
  Str.filter f (string_of_list_ascii l) = string_of_list_ascii (List.filter f l).
Proof. now rewrite filter_list, list_ascii_of_string_of_list_ascii. Qed.

Lemma filter_keeps (f : ascii -> bool) (l : list ascii) :
  forallb f l = true -> List.filter f l = l.
Proof.
  induction l as [|x l IH]; simpl; [reflexivity|].
  intros H. apply andb_true_iff in H as [Hx H]. rewrite Hx. f_equal. auto.
Qed.

Lemma filter_drops (f g : ascii -> bool) (l : list ascii) :
  (forall x, g x = true -> f x = false) ->
  forallb g l = true -> List.filter f l = [].
Proof.
  intros I. induction l as [|x l IH]; simpl; [reflexivity|].
  intros H. apply andb_true_iff in H as [Hx H]. rewrite (I x Hx). auto.
Qed.

Lemma id_sep_no_digit (x : ascii) : Chr.id_sep x = true -> Chr.digit x = false.
Proof. apply class_without. vm_compute. reflexivity. Qed.

Lemma first_is_digit (x : ascii) : Chr.between 50 57 x = true -> Chr.digit x = true.
Proof. apply class_within. vm_compute. reflexivity. Qed.

Lemma short_sep (l : list ascii) :
  forallb Chr.id_sep l = true ->
  forallb (fun c => Chr.digit c || Chr.id_sep c) l = true.
Proof.
  apply forallb_impl. intros x H. rewrite H. apply orb_true_r.
Qed.

Lemma digits_ok (l : list ascii) :
  forallb Chr.digit l = true ->
  forallb (fun c => Chr.digit c || Chr.id_sep c) l = true.
Proof. apply forallb_impl. intros x H. now rewrite H. Qed.

(** X6: every Aadhaar-like value that _iter_matches_for_line yields has
    exactly 12 digits and 12 to 14 characters, all of them digits or
    separators, starts with a digit from 2 to 9, and stands in the line
    between characters that are not word characters. *)
Theorem aadhaar_value_has_twelve_digits :
  forall (filename : string) (line_number : Z) (line : string) (m : PiiMatch),
    In m (_iter_matches_for_line filename line_number line) ->
    pii_type m = aadhaar ->
    String.length (Str.digits_only (value m)) = 12
    /\ 12 <= String.length (value m) <= 14
    /\ starts_with (Chr.between 50 57) (value m) = true
    /\ str_all (fun c => Chr.digit c || Chr.id_sep c) (value m) = true
    /\ exists pre post,
         line = (pre ++ value m ++ post)%string
         /\ ends_with Chr.word pre = false
         /\ starts_with Chr.word post = false.
Proof.
  intros f n line m Hm Ht.
  apply iter_inv in Hm as (h & Hh & T & V & _ & _).
  rewrite T in Ht. rewrite V. clear T V m.
  apply line_hits_values in Hh as [(T & _)|[(_ & Hsp & V)|(T & _)]]; try congruence.
  apply finditer_occurs in Hsp as (pre & w & post & E & _ & _ & S & D).
  rewrite V, S. clear V S.
  apply (aadhaar_shape _ _ post) in D as (G & d & a & s1 & b & s2 & c & -> & Hd
                               & Fa & La & F1 & L1 & Fb & Lb & F2 & L2 & Fc & Lc);
    [|reflexivity].
  split.
  { unfold Str.digits_only. rewrite filter_chars, length_str.
    cbn [List.filter]. rewrite (first_is_digit _ Hd).
    rewrite !filter_app, (filter_keeps _ _ Fa), (filter_keeps _ _ Fb),
      (filter_keeps _ _ Fc), (filter_drops _ _ _ id_sep_no_digit F1),
      (filter_drops _ _ _ id_sep_no_digit F2).
    cbn [List.length]. rewrite !length_app. simpl. lia. }
  split.
  { rewrite length_str. cbn [List.length]. rewrite !length_app. lia. }
  split; [exact Hd|]. split.
  { apply str_all_chars. cbn [forallb]. rewrite (first_is_digit _ Hd).
    rewrite !forallb_app, (digits_ok _ Fa), (digits_ok _ Fb), (digits_ok _ Fc),
      (short_sep _ F1), (short_sep _ F2). reflexivity. }
  apply unguarded_strings in G as [G1 G2].
  exists (string_of_list_ascii pre), (string_of_list_ascii post).
  split; [now apply line_split|auto].
Qed.

Lemma aadhaar_value_witness :
  In (Build_PiiMatch aadhaar "2345 6789 0123" "f" 1)
     (_iter_matches_for_line "f" 1 id_line)
  /\ String.length (Str.digits_only "2345 6789 0123") = 12%nat
  /\ (12 <= String.length "2345 6789 0123" <= 14)%nat
  /\ starts_with (Chr.between 50 57) "2345 6789 0123" = true
  /\ str_all (fun c => Chr.digit c || Chr.id_sep c) "2345 6789 0123" = true
  /\ exists pre post,
       id_line = (pre ++ "2345 6789 0123" ++ post)%string
       /\ ends_with Chr.word pre = false
       /\ starts_with Chr.word post = false.
Proof.
  assert (H : In (Build_PiiMatch aadhaar "2345 6789 0123" "f" 1)
                 (_iter_matches_for_line "f" 1 id_line))
    by (vm_compute; auto).
  split; [exact H|].
  exact (aadhaar_value_has_twelve_digits "f" 1 id_line _ H eq_refl).
Defined.

Lemma space_no_word (x : ascii) : Chr.space x = true -> Chr.word x = false.
Proof. apply class_without. vm_compute. reflexivity. Qed.

Lemma ends_with_app_space (pre a : string) :
  str_all Chr.space a = true ->
  ends_with Chr.word pre = false ->
  ends_with Chr.word (pre ++ a)%string = false.
Proof.
  intros A G.
  rewrite <- (string_of_list_ascii_of_string pre) in G |- *.
  rewrite <- (string_of_list_ascii_of_string a) in A |- *.
  rewrite ends_with_chars in G. rewrite str_all_of_list in A.
  rewrite <- string_of_app, ends_with_chars, last_of_app.
  remember (list_ascii_of_string a) as la. clear Heqla a.
  remember (last_of (list_ascii_of_string pre) None) as p. clear Heqp pre.
  revert p G. induction la as [|x la IH]; intros p G; [exact G|].
  simpl in A. apply andb_true_iff in A as [Ax A]. cbn [last_of].
  apply IH; [exact A|]. now apply space_no_word.
Qed.

Lemma starts_with_app_space (b post : string) :
  str_all Chr.space b = true ->
  starts_with Chr.word post = false ->
  starts_with Chr.word (b ++ post)%string = false.
Proof.
  intros B G. destruct b as [|x b]; [exact G|].
  simpl in *. apply andb_true_iff in B as [Bx _]. now apply space_no_word.
Qed.

Lemma str_all_middle (f : ascii -> bool) (a s b : string) :
  str_all f (a ++ s ++ b)%string = true -> str_all f s = true.
Proof.
  rewrite !str_all_app. intros H.
  apply andb_true_iff in H as [_ H]. now apply andb_true_iff in H as [H _].
Qed.

(** X7: every phone value that _iter_matches_for_line yields has at least 7
    digits, consists only of digits, +, -, ., parentheses and white space,
    has no white space at either end, and stands in the line between
    characters that are not word characters. *)
Theorem phone_value_shape :
  forall (filename : string) (line_number : Z) (line : string) (m : PiiMatch),
    In m (_iter_matches_for_line filename line_number line) ->
    pii_type m = phone ->
    7 <= String.length (Str.digits_only (value m))
    /\ str_all phone_char (value m) = true
    /\ starts_with Chr.space (value m) = false
    /\ ends_with Chr.space (value m) = false
    /\ exists pre post,
         line = (pre ++ value m ++ post)%string
         /\ ends_with Chr.word pre = false
         /\ starts_with Chr.word post = false.
Proof.
  intros f n line m Hm Ht.
  apply iter_inv in Hm as (h & Hh & T & V & _ & _).
  rewrite T in Ht. rewrite V. clear T V m.
  apply line_hits_values in Hh as [(T & _)|[(T & _)|(_ & Hsp & V & L)]]; try congruence.
  split; [exact L|].
  apply finditer_occurs in Hsp as (pre & w & post & E & _ & _ & S & D).
  apply (phone_shape _ _ post) in D as (G & F); [|reflexivity].
  destruct (strip_split (slice line (hit_span h))) as (a & b & Es & Aa & Ab & H1 & H2).
  rewrite <- V in Es, H1, H2.
  split.
  { apply (str_all_middle _ a _ b). rewrite <- Es, S. now apply str_all_chars. }
  split; [exact H1|]. split; [exact H2|].
  apply unguarded_strings in G as [G1 G2].
  exists (string_of_list_ascii pre ++ a)%string, (b ++ string_of_list_ascii post)%string.
  split.
  - rewrite (line_split _ _ _ _ E), <- S, Es.
    now rewrite !append_assoc'.
  - split; [now apply ends_with_app_space|now apply starts_with_app_space].
Qed.

Lemma phone_value_witness :
  In (Build_PiiMatch phone "555-123-4567" "f" 1)
     (_iter_matches_for_line "f" 1 contact_line)
  /\ (7 <= String.length (Str.digits_only "555-123-4567"))%nat
  /\ str_all phone_char "555-123-4567" = true
  /\ starts_with Chr.space "555-123-4567" = false
  /\ ends_with Chr.space "555-123-4567" = false
  /\ exists pre post,
       contact_line = (pre ++ "555-123-4567" ++ post)%string
       /\ ends_with Chr.word pre = false
       /\ starts_with Chr.word post = false.
Proof.
  assert (H : In (Build_PiiMatch phone "555-123-4567" "f" 1)
                 (_iter_matches_for_line "f" 1 contact_line))
    by (vm_compute; auto).
  split; [exact H|].
  exact (phone_value_shape "f" 1 contact_line _ H eq_refl).
Defined.

Lemma local_no_at (x : ascii) : Chr.email_local x = true -> Chr.one "@" x = false.
Proof. apply class_without. vm_compute. reflexivity. Qed.

Lemma domain_no_at (x : ascii) : Chr.email_domain x = true -> Chr.one "@" x = false.
Proof. apply class_without. vm_compute. reflexivity. Qed.

Lemma letter_no_at (x : ascii) : Chr.letter_ci x = true -> Chr.one "@" x = false.
Proof. apply class_without. vm_compute. reflexivity. Qed.

(** X8: every email value that _iter_matches_for_line yields has the form
    local@domain.tld, with a non-empty local part of letters, digits and .
    _ % + -, a non-empty domain of letters, digits, . and -, and at least
    two letters at the end; it holds exactly one at sign and stands in the
    line. *)
Theorem email_value_shape :
  forall (filename : string) (line_number : Z) (line : string) (m : PiiMatch),
    In m (_iter_matches_for_line filename line_number line) ->
    pii_type m = email ->
    String.length (Str.filter (Chr.one "@") (value m)) = 1
    /\ (exists local domain tld,
          value m = (local ++ "@" ++ domain ++ "." ++ tld)%string
          /\ str_all Chr.email_local local = true /\ 1 <= String.length local
          /\ str_all Chr.email_domain domain = true /\ 1 <= String.length domain
          /\ str_all Chr.letter_ci tld = true /\ 2 <= String.length tld)
    /\ exists pre post, line = (pre ++ value m ++ post)%string.
Proof.
  intros f n line m Hm Ht.
  apply iter_inv in Hm as (h & Hh & T & V & _ & _).
  rewrite T in Ht. rewrite V. clear T V m.
  apply line_hits_values in Hh as [(_ & Hsp & V)|[(T & _)|(T & _)]]; try congruence.
  apply finditer_occurs in Hsp as (pre & w & post & E & _ & _ & S & D).
  rewrite V, S. clear V S.
  apply email_shape in D as (local & domain & tld & -> & Fl & Ll & Fd & Ld & Ft & Lt).
  split; [|split].
  - rewrite filter_chars, length_str, filter_app. cbn [List.filter].
    change (Chr.one "@" "@"%char) with true. cbv iota.
    rewrite filter_app. cbn [List.filter].
    change (Chr.one "@" "."%char) with false. cbv iota.
    rewrite (filter_drops _ _ _ local_no_at Fl), (filter_drops _ _ _ domain_no_at Fd),
      (filter_drops _ _ _ letter_no_at Ft). reflexivity.
  - exists (string_of_list_ascii local), (string_of_list_ascii domain),
      (string_of_list_ascii tld).
    rewrite !str_all_of_list, !length_str. repeat split; auto.
    rewrite string_of_app. simpl. now rewrite string_of_app.
  - exists (string_of_list_ascii pre), (string_of_list_ascii post).
    now apply line_split.
Qed.

Lemma email_value_witness :
  In (Build_PiiMatch email "dummy.user@example.com" "f" 1)
     (_iter_matches_for_line "f" 1 contact_line)
  /\ String.length (Str.filter (Chr.one "@") "dummy.user@example.com") = 1%nat
  /\ (exists local domain tld,
        "dummy.user@example.com" = (local ++ "@" ++ domain ++ "." ++ tld)%string
        /\ str_all Chr.email_local local = true /\ (1 <= String.length local)%nat
        /\ str_all Chr.email_domain domain = true /\ (1 <= String.length domain)%nat
        /\ str_all Chr.letter_ci tld = true /\ (2 <= String.length tld)%nat)
  /\ exists pre post,
       contact_line = (pre ++ "dummy.user@example.com" ++ post)%string.
Proof.
  assert (H : In (Build_PiiMatch email "dummy.user@example.com" "f" 1)
                 (_iter_matches_for_line "f" 1 contact_line))
    by (vm_compute; auto).
  split; [exact H|].
  exact (email_value_shape "f" 1 contact_line _ H eq_refl).
Defined.

End Values.
(* ----------------------------------------------------------------- *)
(** ** pii_detector.py: lines, records and spans *)

Section Lines.

Import Re ReSpec.
Local Open Scope nat_scope.

Lemma filter_length_app (f : ascii -> bool) (a b : list ascii) :
  List.length (List.filter f (a ++ b))
  = List.length (List.filter f a) + List.length (List.filter f b).
Proof. now rewrite filter_app, length_app. Qed.

Lemma filter_length_string (f : ascii -> bool) (s : string) :
  String.length (Str.filter f s)
  = List.length (List.filter f (list_ascii_of_string s)).
Proof. now rewrite filter_list, length_str. Qed.

Lemma filter_length_middle (f : ascii -> bool) (a s b : string) :
  String.length (Str.filter f s)
  <= String.length (Str.filter f (a ++ s ++ b)%string).
Proof.
  rewrite !filter_length_string, !list_of_app, !filter_length_app. lia.
Qed.

Lemma has_type_false (t : PiiType) (m : PiiMatch) :
  pii_type m <> t -> has_type t m = false.
Proof. unfold has_type. destruct t, (pii_type m); congruence. Qed.

Lemma has_type_true (t : PiiType) (m : PiiMatch) :
  has_type t m = true -> pii_type m = t.
Proof. unfold has_type. destruct t, (pii_type m); congruence. Qed.

(** X9: a line without an at sign yields no email match. *)
Theorem line_without_at_sign_has_no_email :
  forall (filename : string) (line_number : Z) (line : string),
    Str.filter (Chr.one "@") line = ""%string ->
    List.filter (has_type email) (_iter_matches_for_line filename line_number line)
    = [].
Proof.
  intros f n line H. apply filter_none. intros m Hm.
  destruct (has_type email m) eqn:T; [|reflexivity]. exfalso.
  apply has_type_true in T.
  apply iter_inv in Hm as (h & Hh & Th & _).
  rewrite Th in T.
  apply line_hits_values in Hh as [(_ & Hsp & _)|[(T' & _)|(T' & _)]]; try congruence.
  apply finditer_occurs in Hsp as (pre & w & post & E & _ & _ & _ & D).
  apply email_shape in D as (local & domain & tld & -> & _).
  apply (f_equal String.length) in H. rewrite filter_length_string, E in H.
  rewrite !filter_length_app in H. cbn [List.filter] in H.
  change (Chr.one "@" "@"%char) with true in H. cbv iota in H. simpl in H. lia.
Qed.

Lemma no_at_sign_witness :
  Str.filter (Chr.one "@") "call 555-123-4567" = ""%string
  /\ List.filter (has_type email) (_iter_matches_for_line "f" 1 "call 555-123-4567")
     = [].
Proof.
  split; [reflexivity|].
  apply (line_without_at_sign_has_no_email "f" 1 "call 555-123-4567"). reflexivity.
Defined.

Lemma aadhaar_digits (d : ascii) (a s1 b s2 c : list ascii) :
  Chr.between 50 57 d = true ->
  forallb Chr.digit a = true -> List.length a = 3 ->
  forallb Chr.id_sep s1 = true ->
  forallb Chr.digit b = true -> List.length b = 4 ->
  forallb Chr.id_sep s2 = true ->
  forallb Chr.digit c = true -> List.length c = 4 ->
  List.length (List.filter Chr.digit (d :: a ++ s1 ++ b ++ s2 ++ c)) = 12.
Proof.
  intros Hd Fa La F1 Fb Lb F2 Fc Lc.
  cbn [List.filter]. rewrite (first_is_digit _ Hd).
  rewrite !filter_app, (filter_keeps _ _ Fa), (filter_keeps _ _ Fb),
    (filter_keeps _ _ Fc), (filter_drops _ _ _ id_sep_no_digit F1),
    (filter_drops _ _ _ id_sep_no_digit F2).
  cbn [List.length]. rewrite !length_app. simpl. lia.
Qed.

(** X10: a line with fewer than 7 digits yields no phone match and no Aadhaar-
    like match: every match it yields is an email. *)
Theorem line_with_few_digits_has_only_emails :
  forall (filename : string) (line_number : Z) (line : string),
    String.length (Str.digits_only line) < 7 ->
    List.filter (fun m => negb (has_type email m))
                (_iter_matches_for_line filename line_number line)
    = [].
Proof.
  intros f n line H. apply filter_none. intros m Hm.
  destruct (has_type email m) eqn:T; [reflexivity|]. exfalso.
  apply iter_inv in Hm as (h & Hh & Th & V & _).
  apply line_hits_values in Hh as [(T' & _)|[(_ & Hsp & Vh)|(_ & Hsp & Vh & L)]].
  - unfold has_type in T. rewrite Th, T' in T. discriminate.
  - apply finditer_occurs in Hsp as (pre & w & post & E & _ & _ & _ & D).
    apply (aadhaar_shape _ _ post) in D as (_ & d & a & s1 & b & s2 & c & -> & Hd
                               & Fa & La & F1 & _ & Fb & Lb & F2 & _ & Fc & Lc);
      [|reflexivity].
    unfold Str.digits_only in H. rewrite filter_length_string, E in H.
    rewrite !filter_length_app in H.
    rewrite aadhaar_digits in H by assumption. lia.
  - apply finditer_occurs in Hsp as (pre & w & post & E & _ & _ & S & _).
    destruct (strip_split (slice line (hit_span h))) as (a & b & Es & _).
    rewrite <- Vh in Es.
    pose proof (filter_length_middle Chr.digit a (hit_value h) b) as M1.
    rewrite <- Es, S in M1.
    pose proof (filter_length_middle Chr.digit (string_of_list_ascii pre)
                  (string_of_list_ascii w) (string_of_list_ascii post)) as M2.
    rewrite <- (line_split _ _ _ _ E) in M2.
    unfold Str.digits_only in *. lia.
Qed.

Lemma few_digits_witness :
  (String.length (Str.digits_only "mail a@b.io by 5 pm") < 7)%nat
  /\ List.filter (fun m => negb (has_type email m))
                 (_iter_matches_for_line "f" 1 "mail a@b.io by 5 pm")
     = [].
Proof.
  assert (H : (String.length (Str.digits_only "mail a@b.io by 5 pm") < 7)%nat)
    by (vm_compute; lia).
  split; [exact H|].
  exact (line_with_few_digits_has_only_emails "f" 1 "mail a@b.io by 5 pm" H).
Defined.

(** X11: every match that detect_pii yields carries the file name and the line
    number of one of the records, and its value is a part of that record's
    line. *)
Theorem detected_value_stands_in_its_line :
  forall (records : list file_scanner.LineRecord) (m : PiiMatch),
    In m (detect_pii records) ->
    exists r pre post,
      In r records
      /\ filename m = file_scanner.filename r
      /\ line_number m = file_scanner.line_number r
      /\ file_scanner.line r = (pre ++ value m ++ post)%string.
Proof.
  intros records m H. unfold detect_pii in H.
  apply in_flat_map in H as (r & Hr & Hm).
  apply iter_inv in Hm as (h & Hh & _ & V & F & N).
  assert (O : exists pre post, file_scanner.line r = (pre ++ value m ++ post)%string).
  { rewrite V.
    apply line_hits_values in Hh as [(_ & Hsp & Vh)|[(_ & Hsp & Vh)|(_ & Hsp & Vh & _)]];
      apply finditer_occurs in Hsp as (pre & w & post & E & _ & _ & S & _);
      apply line_split in E.
    - rewrite Vh, S. eauto.
    - rewrite Vh, S. eauto.
    - destruct (strip_split (slice (file_scanner.line r) (hit_span h)))
        as (a & b & Es & _).
      rewrite <- Vh in Es. rewrite <- S, Es in E.
      exists (string_of_list_ascii pre ++ a)%string,
             (b ++ string_of_list_ascii post)%string.
      rewrite E. now rewrite !append_assoc'. }
  destruct O as (pre & post & O). exists r, pre, post. auto.
Qed.

Lemma detected_value_witness :
  exists r pre post,
    In r [file_scanner.Build_LineRecord "f" 3 contact_line]
    /\ "f" = file_scanner.filename r
    /\ 3%Z = file_scanner.line_number r
    /\ file_scanner.line r = (pre ++ "555-123-4567" ++ post)%string.
Proof.
  apply (detected_value_stands_in_its_line
           [file_scanner.Build_LineRecord "f" 3 contact_line]
           (Build_PiiMatch phone "555-123-4567" "f" 3)).
  vm_compute. auto.
Defined.

(** Matches of one pattern, left to right *)

Lemma scan_lower (r : regex) (l : list ascii) :
  forall (p : option ascii) (i skip s e : nat),
    In (s, e) (scan r p l i skip) -> i + skip <= s.
Proof.
  induction l as [|x l IH]; intros p i skip s e H.
  - destruct skip as [|skip]; cbn [scan] in H; [|destruct H].
    destruct (match_at r _); [|destruct H].
    destruct H as [[= <- <-]|[]]. lia.
  - destruct skip as [|skip]; cbn [scan] in H.
    + destruct (match_at r _).
      * destruct H as [[= <- <-]|H]; [lia|]. apply IH in H. lia.
      * apply IH in H. lia.
    + apply IH in H. lia.
Qed.

Lemma scan_sorted (r : regex) (l : list ascii) :
  forall (p : option ascii) (i skip : nat),
    StronglySorted before (scan r p l i skip).
Proof.
  induction l as [|x l IH]; intros p i skip.
  - destruct skip as [|skip]; cbn [scan]; [|constructor].
    destruct (match_at r _); repeat constructor.
  - destruct skip as [|skip]; cbn [scan]; [|apply IH].
    destruct (match_at r _) as [e|]; [|apply IH].
    constructor; [apply IH|].
    apply Forall_forall. intros [s' e'] H. apply scan_lower in H.
    unfold before. simpl. lia.
Qed.

Lemma sorted_map {A B : Type} (R : B -> B -> Prop) (f : A -> B) (l : list A) :
  StronglySorted R (map f l) -> StronglySorted (fun a b => R (f a) (f b)) l.
Proof.
  induction l as [|x l IH]; simpl; intros H; [constructor|].
  apply StronglySorted_inv in H as [H F]. constructor; [auto|].
  rewrite Forall_map in F. exact F.
Qed.

Lemma phone_hits_sorted (line : string) (reserved l : list span) :
  StronglySorted before l ->
  StronglySorted (fun a b => before (hit_span a) (hit_span b))
                 (flat_map (phone_hit line reserved) l).
Proof.
  induction l as [|sp l IH]; simpl; intros H; [constructor|].
  apply StronglySorted_inv in H as [H F].
  unfold phone_hit at 1. destruct (overlaps_any reserved sp); [now apply IH|].
  destruct (String.length _ <? 7); [now apply IH|].
  simpl. constructor; [now apply IH|].
  apply Forall_forall. intros h Hh. cbn [hit_span].
  apply in_flat_map in Hh as (sp' & Hsp' & Hh).
  apply phone_hit_inv in Hh as (_ & -> & _).
  rewrite Forall_forall in F. now apply F.
Qed.

Lemma filter_map_type (t : PiiType) (line : string) (l : list span) (t' : PiiType) :
  List.filter (is_type t) (map (fun sp => Hit t' sp (slice line sp)) l)
  = if is_type t (Hit t' (0, 0) ""%string)
    then map (fun sp => Hit t' sp (slice line sp)) l else [].
Proof.
  destruct (is_type t (Hit t' (0, 0) ""%string)) eqn:E.
  - apply filter_all. intros h Hh. apply in_map_iff in Hh as (sp & <- & _). exact E.
  - apply filter_none. intros h Hh. apply in_map_iff in Hh as (sp & <- & _). exact E.
Qed.

(** X12: on every line the matches of one type are found from left to right
    and do not overlap one another, and every match covers at least one
    character of the line. *)
Theorem same_type_matches_never_overlap :
  forall (line : string) (t : PiiType),
    StronglySorted (fun h1 h2 => snd (hit_span h1) <= fst (hit_span h2))
                   (List.filter (is_type t) (line_hits line))
    /\ Forall (fun h => fst (hit_span h) < snd (hit_span h) <= String.length line)
              (line_hits line).
Proof.
  intros line t. split.
  - unfold line_hits. rewrite !filter_app, !filter_map_type.
    assert (Se : forall t', StronglySorted
              (fun h1 h2 => before (hit_span h1) (hit_span h2))
              (map (fun sp => Hit t' sp (slice line sp))
                   (finditer (match t' with email => EMAIL_RE | _ => AADHAAR_RE end)
                             line))).
    { intros t'. apply sorted_map. rewrite map_map. cbn [hit_span].
      rewrite map_id. apply scan_sorted. }
    assert (Sp : StronglySorted (fun h1 h2 => before (hit_span h1) (hit_span h2))
              (List.filter (is_type t)
                 (flat_map (phone_hit line (finditer EMAIL_RE line ++ finditer AADHAAR_RE line))
                           (finditer PHONE_RE line)))).
    { destruct t.
      - rewrite filter_none; [constructor|]. intros h Hh.
        apply phone_hits_type in Hh. unfold is_type. now rewrite Hh.
      - rewrite filter_all; [apply phone_hits_sorted, scan_sorted|]. intros h Hh.
        apply phone_hits_type in Hh. unfold is_type. now rewrite Hh.
      - rewrite filter_none; [constructor|]. intros h Hh.
        apply phone_hits_type in Hh. unfold is_type. now rewrite Hh. }
    destruct t; cbn [is_type hit_type app].
    + rewrite filter_none, app_nil_r; [exact (Se email)|].
      intros h Hh. apply phone_hits_type in Hh. unfold is_type. now rewrite Hh.
    + exact Sp.
    + rewrite filter_none, app_nil_r; [exact (Se aadhaar)|].
      intros h Hh. apply phone_hits_type in Hh. unfold is_type. now rewrite Hh.
  - apply Forall_forall. intros h Hh.
    assert (P : exists r, In (hit_span h) (finditer r line) /\ 0 < min_len r).
    { apply line_hits_values in Hh as [(_ & H & _)|[(_ & H & _)|(_ & H & _)]];
        eexists; (split; [exact H|]); vm_compute; lia. }
    destruct P as (r & Hsp & Hr).
    destruct (hit_span h) as [s e]. cbn [fst snd].
    pose proof (finditer_occurs _ _ _ Hsp) as (pre & w & post & E & Lp & Le & _).
    apply (f_equal (@List.length ascii)) in E.
    rewrite length_chars, !length_app in E. cbn [fst snd] in *.
    unfold finditer in Hsp. apply scan_spans in Hsp. lia.
Qed.

End Lines.
(* ----------------------------------------------------------------- *)
(** ** pii_classification.py: policies and classification *)

Section Classification.

(** [d.update(other)] read back *)
Lemma get_update {V : Type} (other : dict V) :
  forall (d : dict V) (k : string),
    NoDup (map fst other) ->
    get (update d other) k
    = match get other k with Some v => Some v | None => get d k end.
Proof.
  unfold update. induction other as [|[k1 v1] other IH]; intros d k N; [reflexivity|].
  cbn [fold_left fst snd map] in *. apply NoDup_cons_iff in N as [N1 N].
  rewrite IH by exact N. cbn [get].
  destruct (String.eqb k k1) eqn:E.
  - apply String.eqb_eq in E. subst k1.
    assert (G : get other k = None).
    { clear - N1. induction other as [|[k2 v2] other IH]; [reflexivity|].
      cbn [get map fst In] in *. destruct (String.eqb k k2) eqn:E.
      - apply String.eqb_eq in E. subst k2. exfalso. apply N1. now left.
      - apply IH. intros H. apply N1. now right. }
    rewrite G. apply get_set_same.
  - destruct (get other k); [reflexivity|].
    apply get_set_other. intros ->. now rewrite String.eqb_refl in E.
Qed.

Lemma validate_profile_name (t t' : string) (p : PiiRiskProfile) :
  _validate_profile t p = _validate_profile t' p.
Proof. reflexivity. Qed.

Lemma validate_profile_raises (t : string) (p : PiiRiskProfile) (e : exn) :
  _validate_profile t p = Raise e -> e = ValueError.
Proof.
  unfold _validate_profile. destruct (negb _); [congruence|].
  destruct (String.eqb _ _); congruence.
Qed.

Lemma validate_policy_raises (policy : Policy) (e : exn) :
  validate_policy policy = Raise e -> e = ValueError.
Proof.
  induction policy as [|[t p] policy IH]; simpl; [discriminate|].
  destruct (_validate_profile t p) eqn:E; simpl; [destruct a; exact IH|].
  intros [= <-]. eapply validate_profile_raises; eauto.
Qed.

Lemma validate_policy_get (policy : Policy) (name : string) (p : PiiRiskProfile) :
  validate_policy policy = Ok tt -> get policy name = Some p ->
  forall t, _validate_profile t p = Ok tt.
Proof.
  induction policy as [|[t0 p0] policy IH]; simpl; [discriminate|].
  destruct (_validate_profile t0 p0) eqn:E; simpl; [|discriminate].
  destruct a. intros V G t. destruct (String.eqb name t0).
  - injection G as <-. exact E.
  - now apply IH.
Qed.

(** X13: in a policy that merge_policy returns, a type for which overrides has
    a profile has that profile, and every other type has the profile of
    base (the keys of overrides being distinct, as the keys of a dict
    are). *)
Theorem merge_policy_overrides_win :
  forall (base overrides merged : Policy) (t : string),
    NoDup (map fst overrides) ->
    merge_policy base overrides = Ok merged ->
    get merged t
    = match get overrides t with
      | Some profile => Some profile
      | None => get base t
      end.
Proof.
  intros base overrides merged t N H. unfold merge_policy in H.
  destruct (validate_policy (update base overrides)); [|discriminate].
  injection H as <-. now apply get_update.
Qed.

Lemma merge_policy_witness :
  merge_policy DEFAULT_POLICY email_override
  = Ok (update DEFAULT_POLICY email_override)
  /\ get (update DEFAULT_POLICY email_override) "email"
     = match get email_override "email" with
       | Some profile => Some profile
       | None => get DEFAULT_POLICY "email"
       end.
Proof.
  split; [reflexivity|].
  apply (merge_policy_overrides_win DEFAULT_POLICY email_override
           (update DEFAULT_POLICY email_override) "email").
  - repeat constructor. simpl. tauto.
  - reflexivity.
Defined.

Lemma profile_of_raises (item : dict pyval) (policy : Policy) (e : exn) :
  profile_of item policy = Raise e -> e = KeyError.
Proof.
  unfold profile_of, Py.item. destruct (get item "type") as [v|]; simpl; [|congruence].
  destruct v; try congruence. destruct (get policy s); simpl; congruence.
Qed.

Lemma profile_of_typed (item : dict pyval) (policy : Policy) :
  typed_in policy item = true <->
  exists name profile,
    get item "type" = Some (PyStr name) /\ get policy name = Some profile
    /\ profile_of item policy = Ok (name, profile).
Proof.
  unfold typed_in, profile_of, Py.item. split.
  - destruct (get item "type") as [[| | | |name]|]; try discriminate.
    destruct (get policy name) as [p|] eqn:G; [|discriminate]. intros _.
    exists name, p. split; [reflexivity|]. split; [exact G|].
    cbn [bind]. rewrite G. reflexivity.
  - intros (name & p & -> & -> & _). reflexivity.
Qed.

Lemma profile_of_untyped (item : dict pyval) (policy : Policy) :
  typed_in policy item = false -> profile_of item policy = Raise KeyError.
Proof.
  unfold typed_in, profile_of, Py.item.
  destruct (get item "type") as [[| | | |name]|]; try reflexivity.
  simpl. destruct (get policy name); [discriminate|reflexivity].
Qed.

(** X14: under a policy that merge_policy returned, classify_pii_dicts never
    raises ValueError: it returns one dictionary per item if every item
    names a type of the policy, and raises KeyError otherwise. *)
Theorem merged_policy_classifies_without_value_error :
  forall (base overrides merged : Policy) (items : list (dict pyval)),
    merge_policy base overrides = Ok merged ->
    if forallb (typed_in merged) items
    then exists out, classify_pii_dicts items merged = Ok out
                     /\ List.length out = List.length items
    else classify_pii_dicts items merged = Raise KeyError.
Proof.
  intros base overrides merged items H. unfold merge_policy in H.
  destruct (validate_policy (update base overrides)) as [[]|] eqn:V; [|discriminate].
  simpl in H. injection H as <-. set (merged := update base overrides) in *.
  unfold classify_pii_dicts. rewrite V. cbn [bind].
  induction items as [|item items IH]; cbn [forallb mapM].
  - exists []. auto.
  - destruct (typed_in merged item) eqn:T; cbn [andb].
    + apply profile_of_typed in T as (name & p & _ & G & P).
      assert (C : exists o, classify_pii_dict item merged = Ok o).
      { unfold classify_pii_dict. rewrite P. cbn [bind].
        rewrite (validate_policy_get _ _ _ V G). cbn [bind]. eauto. }
      destruct C as (o & ->). cbn [bind].
      destruct (forallb (typed_in merged) items).
      * destruct IH as (out & -> & L). cbn [bind]. eexists. split; [reflexivity|].
        simpl. now rewrite L.
      * rewrite IH. reflexivity.
    + assert (C : classify_pii_dict item merged = Raise KeyError).
      { unfold classify_pii_dict. now rewrite (profile_of_untyped _ _ T). }
      rewrite C. reflexivity.
Qed.

Lemma merged_policy_witness :
  if forallb (typed_in (update DEFAULT_POLICY email_override)) [email_item]
  then exists out,
         classify_pii_dicts [email_item] (update DEFAULT_POLICY email_override)
         = Ok out
         /\ List.length out = List.length [email_item]
  else classify_pii_dicts [email_item] (update DEFAULT_POLICY email_override)
       = Raise KeyError.
Proof.
  apply (merged_policy_classifies_without_value_error
           DEFAULT_POLICY email_override (update DEFAULT_POLICY email_override)
           [email_item]).
  reflexivity.
Defined.

Lemma mapM_nth {A B : Type} (f : A -> result B) (xs : list A) :
  forall ys, mapM f xs = Ok ys ->
  List.length ys = List.length xs
  /\ forall i x y, nth_error xs i = Some x -> nth_error ys i = Some y -> f x = Ok y.
Proof.
  induction xs as [|x xs IH]; intros ys H; simpl in H.
  - injection H as <-. split; [reflexivity|]. intros [|i]; discriminate.
  - destruct (f x) as [y|] eqn:F; [|discriminate]. simpl in H.
    destruct (mapM f xs) as [ys'|]; [|discriminate]. simpl in H. injection H as <-.
    destruct (IH ys' eq_refl) as [L N]. split; [simpl; now rewrite L|].
    intros [|i] x0 y0 Hx Hy; simpl in *; [congruence|eauto].
Qed.

Lemma classification_key_false (k : string) :
  classification_key k = false ->
  k <> "risk_level" /\ k <> "severity_weight" /\ k <> "rationale".
Proof.
  unfold classification_key. intros H.
  apply orb_false_iff in H as [H H3]. apply orb_false_iff in H as [H1 H2].
  repeat split; intros ->; discriminate.
Qed.

(** X15: when classify_pii_dicts returns, it returns one dictionary per item,
    in order; each keeps every field of its item other than risk_level,
    severity_weight and rationale, and these three hold the level, the
    weight and the rationale of the policy's profile for the type of the
    item. *)
Theorem classified_item_keeps_fields :
  forall (items out : list (dict pyval)) (policy : Policy),
    classify_pii_dicts items policy = Ok out ->
    List.length out = List.length items
    /\ forall (i : nat) (item o : dict pyval),
         nth_error items i = Some item ->
         nth_error out i = Some o ->
         (forall k, classification_key k = false -> get o k = get item k)
         /\ exists name profile,
              get item "type" = Some (PyStr name)
              /\ get policy name = Some profile
              /\ get o "risk_level" = Some (PyStr (level_name (risk_level profile)))
              /\ get o "severity_weight" = Some (PyFloat (severity_weight profile))
              /\ get o "rationale" = Some (PyStr (rationale profile)).
Proof.
  intros items out policy H. unfold classify_pii_dicts in H.
  destruct (validate_policy policy); [|discriminate]. cbn [bind] in H.
  apply mapM_nth in H as [L N]. split; [exact L|].
  intros i item o Hi Ho. specialize (N i item o Hi Ho).
  unfold classify_pii_dict in N.
  destruct (profile_of item policy) as [[name p]|] eqn:P; [|discriminate].
  cbn [bind] in N. destruct (_validate_profile name p); [|discriminate].
  cbn [bind] in N. injection N as <-.
  assert (T : typed_in policy item = true).
  { destruct (typed_in policy item) eqn:T; [reflexivity|].
    rewrite (profile_of_untyped _ _ T) in P. discriminate. }
  apply profile_of_typed in T as (name' & p' & G1 & G2 & P'). rewrite P in P'.
  injection P' as <- <-. split.
  - intros k K. apply classification_key_false in K as (K1 & K2 & K3).
    now rewrite !get_set_other by assumption.
  - exists name, p. split; [exact G1|]. split; [exact G2|].
    rewrite get_set_same. rewrite (get_set_other _ "rationale" "severity_weight") by discriminate.
    rewrite get_set_same. rewrite !(get_set_other _ _ "risk_level") by discriminate.
    rewrite get_set_same. auto.
Qed.

Lemma classified_item_witness :
  exists out,
    classify_pii_dicts [email_item] DEFAULT_POLICY = Ok out
    /\ List.length out = List.length [email_item]
    /\ forall (i : nat) (item o : dict pyval),
         nth_error [email_item] i = Some item ->
         nth_error out i = Some o ->
         (forall k, classification_key k = false -> get o k = get item k)
         /\ exists name profile,
              get item "type" = Some (PyStr name)
              /\ get DEFAULT_POLICY name = Some profile
              /\ get o "risk_level" = Some (PyStr (level_name (risk_level profile)))
              /\ get o "severity_weight" = Some (PyFloat (severity_weight profile))
              /\ get o "rationale" = Some (PyStr (rationale profile)).
Proof.
  eexists. split; [reflexivity|].
  apply (classified_item_keeps_fields [email_item] _ DEFAULT_POLICY). reflexivity.
Defined.

(** classify_pii *)

Lemma classify_loop_cons (policy : Policy) (item : dict pyval)
      (items : list (dict pyval)) (h : RiskLevel) :
  classify_loop (item :: items) policy h
  = li <- level_of policy item ;;
    classify_loop items policy (if (rank h <? rank li)%nat then li else h).
Proof.
  unfold level_of. cbn [classify_loop].
  destruct (profile_of item policy) as [[name p]|]; cbn [bind]; [|reflexivity].
  destruct (_validate_profile name p); reflexivity.
Qed.

Lemma rank_inj (a b : RiskLevel) : rank a = rank b -> a = b.
Proof. destruct a, b; simpl; congruence. Qed.

Lemma classify_loop_spec (policy : Policy) (items : list (dict pyval)) :
  forall (h l : RiskLevel),
    classify_loop items policy h = Ok l <->
    (forall item, In item items -> exists li, level_of policy item = Ok li)
    /\ (rank h <= rank l)%nat
    /\ (forall item li, In item items -> level_of policy item = Ok li ->
                        (rank li <= rank l)%nat)
    /\ (l = h \/ exists item, In item items /\ level_of policy item = Ok l).
Proof.
  induction items as [|item items IH]; intros h l.
  - cbn [classify_loop]. split.
    + intros [= <-]. split; [intros ? []|]. split; [lia|].
      split; [intros ? ? []|now left].
    + intros (_ & _ & _ & [->|(item & [] & _)]). reflexivity.
  - rewrite classify_loop_cons.
    destruct (level_of policy item) as [li|e] eqn:Li; cbn [bind].
    2:{ split; [discriminate|]. intros (A & _).
        destruct (A item (or_introl eq_refl)) as (li & Hli). congruence. }
    rewrite IH. clear IH.
    set (h' := if (rank h <? rank li)%nat then li else h).
    assert (Hh' : (rank h' = Nat.max (rank h) (rank li)) /\ (h' = h \/ h' = li)).
    { unfold h'. destruct (rank h <? rank li)%nat eqn:E.
      - apply Nat.ltb_lt in E. split; [lia|auto].
      - apply Nat.ltb_ge in E. split; [lia|auto]. }
    destruct Hh' as [Hr Hc]. clearbody h'. split.
    + intros (A & B & C & D). split; [|split; [lia|split]].
      * intros x [<-|Hx]; [exists li; exact Li|auto].
      * intros x lx [<-|Hx] Hlx; [|eauto]. rewrite Li in Hlx. injection Hlx as <-. lia.
      * destruct D as [->|(x & Hx & Hl)].
        -- destruct Hc as [->| ->]; [now left|]. right. exists item. split; [now left|exact Li].
        -- right. exists x. split; [now right|exact Hl].
    + intros (A & B & C & D).
      pose proof (C item li (or_introl eq_refl) Li) as Cl.
      split; [|split; [|split]].
      * intros x Hx. apply A. now right.
      * lia.
      * intros x lx Hx. apply C. now right.
      * destruct D as [->|(x & [<-|Hx] & Hl)].
        -- left. apply rank_inj. lia.
        -- rewrite Li in Hl. injection Hl as <-. left. apply rank_inj. lia.
        -- right. exists x. auto.
Qed.

Lemma classify_pii_spec (policy : Policy) (items : list (dict pyval)) (l : RiskLevel) :
  classify_pii items policy = Ok l <->
  (forall item, In item items -> exists li, level_of policy item = Ok li)
  /\ (forall item li, In item items -> level_of policy item = Ok li ->
                      (rank li <= rank l)%nat)
  /\ (l = low \/ exists item, In item items /\ level_of policy item = Ok l).
Proof.
  assert (E : classify_pii items policy = classify_loop items policy low)
    by (destruct items; reflexivity).
  rewrite E, classify_loop_spec. simpl. split.
  - intros (A & _ & C & D). auto.
  - intros (A & C & D). repeat split; auto. lia.
Qed.

(** X16: when classify_pii returns a level, it returns the same level for the
    items in any other order; no item has a profile of a higher level, and
    the level is low or the level of the profile of one of the items. *)
Theorem classify_pii_is_highest_level :
  forall (items items' : list (dict pyval)) (policy : Policy) (l : RiskLevel),
    classify_pii items policy = Ok l ->
    Permutation items items' ->
    classify_pii items' policy = Ok l
    /\ (forall item name profile,
          In item items -> profile_of item policy = Ok (name, profile) ->
          (rank (risk_level profile) <= rank l)%nat)
    /\ (l = low
        \/ exists item name profile,
             In item items /\ profile_of item policy = Ok (name, profile)
             /\ risk_level profile = l).
Proof.
  intros items items' policy l H P.
  apply classify_pii_spec in H as (A & C & D). split; [|split].
  - apply classify_pii_spec. split; [|split].
    + intros x Hx. apply A. eapply Permutation_in; [symmetry; exact P|exact Hx].
    + intros x lx Hx. apply C. eapply Permutation_in; [symmetry; exact P|exact Hx].
    + destruct D as [->|(x & Hx & Hl)]; [now left|]. right. exists x.
      split; [eapply Permutation_in; eauto|exact Hl].
  - intros item name profile Hi Hp.
    destruct (A item Hi) as (li & Hli). pose proof (C item li Hi Hli) as R.
    unfold level_of in Hli. rewrite Hp in Hli. cbn [bind] in Hli.
    destruct (_validate_profile name profile); [|discriminate].
    cbn [bind] in Hli. injection Hli as <-. exact R.
  - destruct D as [->|(x & Hx & Hl)]; [now left|]. right.
    unfold level_of in Hl.
    destruct (profile_of x policy) as [[name p]|] eqn:Hp; [|discriminate].
    cbn [bind] in Hl. destruct (_validate_profile name p); [|discriminate].
    cbn [bind] in Hl. injection Hl as <-. exists x, name, p. auto.
Qed.

Lemma classify_pii_witness :
  classify_pii [email_item; phone_item] DEFAULT_POLICY = Ok high
  /\ classify_pii [phone_item; email_item] DEFAULT_POLICY = Ok high
  /\ (forall item name profile,
        In item [email_item; phone_item] ->
        profile_of item DEFAULT_POLICY = Ok (name, profile) ->
        (rank (risk_level profile) <= rank high)%nat)
  /\ (high = low
      \/ exists item name profile,
           In item [email_item; phone_item]
           /\ profile_of item DEFAULT_POLICY = Ok (name, profile)
           /\ risk_level profile = high).
Proof.
  split; [reflexivity|].
  apply (classify_pii_is_highest_level [email_item; phone_item]
           [phone_item; email_item] DEFAULT_POLICY high eq_refl).
  apply perm_swap.
Defined.

End Classification.
(* ----------------------------------------------------------------- *)
(** ** pii_risk_scoring.py: labels, breakdown, saturation, NaN *)

Section ScoreExtras.

Variable str : string -> option float.

Open Scope Z_scope.

(** NaN *)
Lemma nan_SF (x : float) : is_nan x = true -> Prim2SF x = S754_nan.
Proof.
  intros H. destruct (Prim2SF x) eqn:E; try reflexivity;
    assert (N : is_nan x = false) by (apply is_nan_SF; rewrite E; discriminate);
    congruence.
Qed.

Lemma SF_nan (x : float) : Prim2SF x = S754_nan -> is_nan x = true.
Proof.
  intros H. destruct (is_nan x) eqn:E; [reflexivity|].
  apply is_nan_SF in E. contradiction.
Qed.

Lemma is_nan_mul_l (x y : float) : is_nan x = true -> is_nan (x * y) = true.
Proof.
  intros H. apply SF_nan. rewrite mul_spec, (nan_SF x H). reflexivity.
Qed.

Lemma is_nan_mul_r (x y : float) : is_nan y = true -> is_nan (x * y) = true.
Proof.
  intros H. apply SF_nan. rewrite mul_spec, (nan_SF y H).
  now destruct (Prim2SF x).
Qed.

Lemma is_nan_sub_r (x y : float) : is_nan y = true -> is_nan (x - y) = true.
Proof.
  intros H. apply SF_nan. rewrite sub_spec, (nan_SF y H).
  now destruct (Prim2SF x).
Qed.

Lemma clamp_nan (x : float) : is_nan x = true -> _clamp01 x = x.
Proof.
  intros H. unfold _clamp01. now rewrite !ltb_nan by auto.
Qed.

Lemma round2_nan (x : float) : is_nan x = true -> round2 x = x.
Proof. intros H. unfold round2. now rewrite (nan_SF x H). Qed.

Lemma score_of_nan (p : float) : is_nan p = true -> is_nan (score_of p) = true.
Proof.
  intros H. unfold score_of, combined_risk_of. rewrite (clamp_nan p H).
  assert (N : is_nan ((1 - p) * 100) = true)
    by (apply is_nan_mul_l, is_nan_sub_r, H).
  now rewrite round2_nan.
Qed.

(** The default thresholds *)
Lemma default_label (score : float) :
  risk_label_for_score score DEFAULT_LABEL_THRESHOLDS = Ok (default_band score).
Proof.
  unfold risk_label_for_score.
  change (sorted_items DEFAULT_LABEL_THRESHOLDS) with DEFAULT_LABEL_THRESHOLDS.
  unfold DEFAULT_LABEL_THRESHOLDS, scan_label, default_band. cbn [fold_left fst snd].
  destruct (80 <=? score)%float; [reflexivity|].
  destruct (50 <=? score)%float; [reflexivity|].
  destruct (20 <=? score)%float; [reflexivity|].
  now destruct (0 <=? score)%float.
Qed.

Lemma leb_trans (x y z : float) :
  (x <=? y)%float = true -> (y <=? z)%float = true -> (x <=? z)%float = true.
Proof.
  intros A B. destruct (leb_true_number _ _ A) as [Nx Ny].
  destruct (leb_true_number _ _ B) as [_ Nz].
  rewrite leb_fval in * by assumption.
  apply Z.leb_le in A, B. apply Z.leb_le. lia.
Qed.

(** X17: under the default thresholds the label of a score is critical from
    80, high from 50, medium from 20 and low otherwise (also for a
    negative score and for NaN); hence a higher score never gets a lower
    label. *)
Theorem default_label_bands_are_monotone :
  forall (score score' : float),
    risk_label_for_score score DEFAULT_LABEL_THRESHOLDS = Ok (default_band score)
    /\ ((score <=? score')%float = true ->
        (rank (default_band score) <= rank (default_band score'))%nat).
Proof.
  intros s s'. split; [apply default_label|]. intros H.
  unfold default_band.
  destruct (80 <=? s)%float eqn:A.
  { now rewrite (leb_trans _ _ _ A H). }
  destruct (50 <=? s)%float eqn:B.
  { rewrite (leb_trans _ _ _ B H). destruct (80 <=? s')%float; simpl; lia. }
  destruct (20 <=? s)%float eqn:C.
  { rewrite (leb_trans _ _ _ C H).
    destruct (80 <=? s')%float; [simpl; lia|].
    destruct (50 <=? s')%float; simpl; lia. }
  simpl. lia.
Qed.

(** The loop *)

Lemma clamp_range (x : float) :
  (_clamp01 x <? 0)%float = false /\ (1 <? _clamp01 x)%float = false.
Proof.
  unfold _clamp01. destruct (x <? 0)%float eqn:A; [split; reflexivity|].
  destruct (1 <? x)%float eqn:B; [split; reflexivity|]. auto.
Qed.

Lemma score_loop_scored (dc : float) (items : list (dict pyval)) :
  forall (acc acc' : list (dict pyval)) (p p' : float),
    score_loop str dc items acc p = Ok (acc', p') ->
    exists scored,
      acc' = acc ++ scored
      /\ Forall2 (fun raw s => exists c, score_item str dc raw = Ok (c, s))
                 items scored.
Proof.
  induction items as [|raw items IH]; intros acc acc' p p' H; cbn [score_loop] in H.
  - injection H as <- <-. exists []. split; [now rewrite app_nil_r|constructor].
  - destruct (score_item str dc raw) as [[c s]|] eqn:E; [|discriminate].
    cbn [bind] in H. apply IH in H as (scored & -> & F).
    exists (s :: scored). split; [now rewrite <- app_assoc|].
    constructor; [eauto|exact F].
Qed.

Lemma Forall2_nth {A B : Type} (R : A -> B -> Prop) (l : list A) (l' : list B) :
  Forall2 R l l' ->
  List.length l' = List.length l
  /\ forall i x y, nth_error l i = Some x -> nth_error l' i = Some y -> R x y.
Proof.
  induction 1 as [|x y l l' Hxy F [L N]]; split; try reflexivity.
  - intros [|i]; discriminate.
  - simpl. now rewrite L.
  - intros [|i] a b Ha Hb; simpl in *; [congruence|eauto].
Qed.

(** X18: when score_pii_findings returns, item_count and the length of
    scored_items are the number of items; the i-th scored item is the i-th
    item with the field contribution set and every other field unchanged;
    the contribution is clamp(clamp(severity) * clamp(confidence)), which
    is never below 0 and never above 1. *)
Theorem scored_items_record_contributions :
  forall (items : list (dict pyval)) (default_confidence : float)
         (thresholds : Thresholds) (r : RiskScoreResult),
    score_pii_findings str items default_confidence thresholds = Ok r ->
    item_count r = List.length items
    /\ List.length (scored_items r) = List.length items
    /\ forall (i : nat) (raw scored : dict pyval),
         nth_error items i = Some raw ->
         nth_error (scored_items r) i = Some scored ->
         exists w c contribution,
           readings str default_confidence raw = Ok (w, c)
           /\ contribution = _clamp01 (_clamp01 w * _clamp01 c)
           /\ (contribution <? 0)%float = false
           /\ (1 <? contribution)%float = false
           /\ get scored "contribution" = Some (PyFloat contribution)
           /\ forall k, k <> "contribution" -> get scored k = get raw k.
Proof.
  intros items dc th r H. unfold score_pii_findings in H.
  destruct (score_loop str dc items [] 1) as [[acc p]|] eqn:L; [|discriminate].
  cbn [bind] in H. destruct (risk_label_for_score _ th); [|discriminate].
  cbn [bind] in H. injection H as <-. cbn [item_count scored_items].
  apply score_loop_scored in L as (scored & -> & F). cbn [app].
  apply Forall2_nth in F as [Ln N]. split; [exact Ln|]. split; [exact Ln|].
  intros i raw s Hi Hs. destruct (N i raw s Hi Hs) as (c & Hc).
  rewrite score_item_readings in Hc.
  destruct (readings str dc raw) as [[w cf]|]; [|discriminate].
  cbn [bind] in Hc. injection Hc as <- <-.
  exists w, cf, (_clamp01 (_clamp01 w * _clamp01 cf)).
  destruct (clamp_range (_clamp01 w * _clamp01 cf)) as [R1 R2].
  repeat split; auto.
  - apply get_set_same.
  - intros k K. now apply get_set_other.
Qed.

(** Products *)

Lemma unit_mul_r (x y : float) :
  unit_float x -> unit_float y -> fval (x * y) <= fval y.
Proof.
  intros [Nx Rx] [Ny Ry]. pose proof ONE_small.
  destruct (mul_value x y Nx Ny) as [_ Hv]; [lia|lia|].
  rewrite Hv. rewrite <- (RN_fixes y Ny ltac:(lia)) at 2.
  apply RN_mono. split; [apply Z.mul_nonneg_nonneg; lia|].
  rewrite (Z.mul_comm (fval y)). apply Z.mul_le_mono_nonneg_r; [lia|]. exact (proj2 Rx).
Qed.

Lemma fval_eq_eqb (x y : float) :
  is_nan x = false -> is_nan y = false -> fval x = fval y -> (x =? y)%float = true.
Proof.
  intros Nx Ny E. rewrite eqb_fval by assumption. now apply Z.eqb_eq.
Qed.

Lemma score_of_fval (p q : float) :
  unit_float p -> unit_float q -> fval p = fval q ->
  (score_of p =? score_of q)%float = true.
Proof.
  intros Hp Hq E.
  apply fval_eq_eqb; try apply score_of_unit; auto.
  apply Z.le_antisymm; apply score_of_antitone; auto; lia.
Qed.

Lemma certain_contribution (dc : float) (raw : dict pyval) :
  certain_item str dc raw = true ->
  exists c scored,
    score_item str dc raw = Ok (c, scored) /\ unit_float c /\ fval c = ONE.
Proof.
  unfold certain_item. rewrite score_item_readings.
  destruct (readings str dc raw) as [[w c]|]; [|discriminate].
  intros H. apply andb_true_iff in H as [Hw Hc]. cbn [bind].
  eexists. eexists. split; [reflexivity|].
  assert (C1 : forall x, (1 <=? x)%float = true ->
                         unit_float (_clamp01 x) /\ fval (_clamp01 x) = ONE).
  { intros x Hx. destruct (leb_true_number _ _ Hx) as [_ Nx].
    pose proof (clamp_unit x Nx) as U. split; [exact U|].
    rewrite leb_fval in Hx by (auto; reflexivity). apply Z.leb_le in Hx.
    rewrite fval_1 in Hx. unfold _clamp01 in *.
    rewrite !ltb_fval in * by (auto; reflexivity). rewrite fval_0, fval_1 in *.
    pose proof ONE_pos.
    destruct (Z.ltb_spec (fval x) 0); [lia|].
    destruct (Z.ltb_spec ONE (fval x)); [apply fval_1|lia]. }
  destruct (C1 w Hw) as [Uw Vw]. destruct (C1 c Hc) as [Uc Vc].
  pose proof ONE_small. pose proof ONE_pos.
  destruct (mul_value _ _ (proj1 Uw) (proj1 Uc)) as [Nm Vm]; [lia|lia|].
  assert (Vm' : fval (_clamp01 w * _clamp01 c) = ONE).
  { rewrite Vm, Vw, Vc.
    pose proof (RN_fixes 1 eq_refl) as F. rewrite fval_1 in F.
    apply F. lia. }
  assert (Um : unit_float (_clamp01 w * _clamp01 c)) by (split; [exact Nm|lia]).
  rewrite (clamp_id _ Um). auto.
Qed.

Lemma zero_product (p c : float) :
  unit_float p -> unit_float c -> fval c = ONE ->
  unit_float (p * (1 - c)) /\ fval (p * (1 - c)) = 0.
Proof.
  intros Hp Hc E. pose proof (unit_one_minus c Hc) as U.
  destruct (one_minus_value c Hc) as [_ V]. rewrite E, Z.sub_diag in V.
  change (RN (0 * 2 ^ 1074)) with 0 in V.
  destruct (unit_mul p (1 - c) Hp U) as [Um _].
  pose proof (unit_mul_r p (1 - c) Hp U). split; [exact Um|].
  destruct Um as [_ R]. lia.
Qed.

Lemma score_loop_certain (dc : float) (items : list (dict pyval)) :
  forall (acc : list (dict pyval)) (p : float),
    forallb (number_item str dc) items = true ->
    existsb (certain_item str dc) items = true ->
    unit_float p ->
    exists acc' p',
      score_loop str dc items acc p = Ok (acc', p')
      /\ unit_float p' /\ fval p' = 0.
Proof.
  induction items as [|raw items IH]; intros acc p Hn Hc Hp; [discriminate|].
  cbn [forallb existsb] in Hn, Hc. apply andb_true_iff in Hn as [Hr Hn].
  cbn [score_loop].
  destruct (certain_item str dc raw) eqn:C.
  - destruct (certain_contribution dc raw C) as (c & s & -> & Uc & Vc). cbn [bind].
    destruct (zero_product p c Hp Uc Vc) as [U0 V0].
    destruct (score_loop_number str dc items (acc ++ [s]) _ Hn U0)
      as (acc' & p' & -> & Up' & Lp' & _).
    exists acc', p'. split; [reflexivity|]. split; [exact Up'|].
    destruct Up' as [_ R]. lia.
  - destruct (score_item_number str dc raw Hr) as (c & s & -> & Uc). cbn [bind].
    apply IH; auto.
    apply (unit_mul p (1 - c) Hp (unit_one_minus c Uc)).
Qed.

(** X19: if all readings are numbers and one finding has severity_weight >= 1
    and confidence >= 1, the score equals 100 whatever the other findings
    are, and the label under the default thresholds is critical. *)
Theorem certain_finding_saturates_score :
  forall (items : list (dict pyval)) (default_confidence : float)
         (thresholds : Thresholds),
    thresholds <> [] ->
    forallb (number_item str default_confidence) items = true ->
    existsb (certain_item str default_confidence) items = true ->
    exists r,
      score_pii_findings str items default_confidence thresholds = Ok r
      /\ (score r =? 100)%float = true
      /\ (thresholds = DEFAULT_LABEL_THRESHOLDS -> label r = critical).
Proof.
  intros items dc th Hth Hn Hc.
  destruct (score_loop_certain dc items [] 1 Hn Hc unit_1) as (acc & p & L & Up & Vp).
  assert (S : (score_of p =? 100)%float = true).
  { change 100%float with (score_of 0). apply score_of_fval; auto using unit_0. }
  unfold score_pii_findings. rewrite L. cbn [bind].
  destruct (risk_label_defined (score_of p) th Hth) as (k & Hk). rewrite Hk. cbn [bind].
  eexists. split; [reflexivity|]. cbn [score label]. split; [exact S|].
  intros ->. rewrite default_label in Hk. injection Hk as <-.
  unfold default_band.
  assert (N : is_nan (score_of p) = false) by apply (score_of_unit p Up).
  rewrite eqb_fval in S by (auto; reflexivity). apply Z.eqb_eq in S.
  rewrite (leb_of_fval 80 (score_of p)); [reflexivity|reflexivity|exact N|].
  rewrite S. vm_compute. discriminate.
Qed.

(** NaN findings *)

Lemma nan_contribution (dc : float) (raw : dict pyval) :
  nan_item str dc raw = true ->
  exists c scored, score_item str dc raw = Ok (c, scored) /\ is_nan c = true.
Proof.
  unfold nan_item. rewrite score_item_readings.
  destruct (readings str dc raw) as [[w c]|]; [|discriminate].
  intros H. cbn [bind]. eexists. eexists. split; [reflexivity|].
  assert (N : is_nan (_clamp01 w * _clamp01 c) = true).
  { apply orb_true_iff in H as [H|H].
    - apply is_nan_mul_l. now rewrite clamp_nan.
    - apply is_nan_mul_r. now rewrite clamp_nan. }
  now rewrite clamp_nan.
Qed.

Lemma score_loop_from_nan (dc : float) (items : list (dict pyval)) :
  forall (acc : list (dict pyval)) (p : float),
    forallb (readable_item str dc) items = true ->
    is_nan p = true ->
    exists acc' p', score_loop str dc items acc p = Ok (acc', p') /\ is_nan p' = true.
Proof.
  induction items as [|raw items IH]; intros acc p Hr Hp.
  - exists acc, p. auto.
  - cbn [forallb] in Hr. apply andb_true_iff in Hr as [H1 Hr]. cbn [score_loop].
    destruct (score_item_readable str dc raw H1) as (c & s & ->). cbn [bind].
    apply IH; [exact Hr|]. now apply is_nan_mul_l.
Qed.

Lemma score_loop_nan (dc : float) (items : list (dict pyval)) :
  forall (acc : list (dict pyval)) (p : float),
    forallb (readable_item str dc) items = true ->
    existsb (nan_item str dc) items = true ->
    exists acc' p', score_loop str dc items acc p = Ok (acc', p') /\ is_nan p' = true.
Proof.
  induction items as [|raw items IH]; intros acc p Hr Hn; [discriminate|].
  cbn [forallb existsb] in Hr, Hn. apply andb_true_iff in Hr as [H1 Hr].
  cbn [score_loop]. destruct (nan_item str dc raw) eqn:N.
  - destruct (nan_contribution dc raw N) as (c & s & -> & Nc). cbn [bind].
    apply score_loop_from_nan; [exact Hr|].
    apply is_nan_mul_r, is_nan_sub_r, Nc.
  - destruct (score_item_readable str dc raw H1) as (c & s & ->). cbn [bind].
    now apply IH.
Qed.

(** X20: if float() accepts every reading and one of them is NaN,
    score_pii_findings returns the score NaN, and under the default
    thresholds the label low, whatever the other findings are. *)
Theorem nan_finding_makes_score_nan :
  forall (items : list (dict pyval)) (default_confidence : float)
         (thresholds : Thresholds),
    thresholds <> [] ->
    forallb (readable_item str default_confidence) items = true ->
    existsb (nan_item str default_confidence) items = true ->
    exists r,
      score_pii_findings str items default_confidence thresholds = Ok r
      /\ is_nan (score r) = true
      /\ (thresholds = DEFAULT_LABEL_THRESHOLDS -> label r = low).
Proof.
  intros items dc th Hth Hr Hn.
  destruct (score_loop_nan dc items [] 1 Hr Hn) as (acc & p & L & Np).
  pose proof (score_of_nan p Np) as S.
  unfold score_pii_findings. rewrite L. cbn [bind].
  destruct (risk_label_defined (score_of p) th Hth) as (k & Hk). rewrite Hk. cbn [bind].
  eexists. split; [reflexivity|]. cbn [score label]. split; [exact S|].
  intros ->. rewrite default_label in Hk. injection Hk as <-.
  unfold default_band. now rewrite !leb_nan by auto.
Qed.

(** X21: if all readings are numbers, the score equals the binary64 number
    nearest to n/100 for a whole number n from 0 to 10000; in particular
    it lies between 0 and 100. *)
Theorem score_is_a_number_of_hundredths :
  forall (items : list (dict pyval)) (default_confidence : float)
         (thresholds : Thresholds) (r : RiskScoreResult),
    forallb (number_item str default_confidence) items = true ->
    score_pii_findings str items default_confidence thresholds = Ok r ->
    exists n : Z,
      0 <= n <= 10000
      /\ (score r =? hundredths n)%float = true
      /\ (0 <=? score r)%float = true
      /\ (score r <=? 100)%float = true.
Proof.
  intros items dc th r Hn H. unfold score_pii_findings in H.
  destruct (score_loop_number str dc items [] 1 Hn unit_1) as (acc & p & L & Up & _).
  rewrite L in H. cbn [bind] in H.
  destruct (risk_label_for_score _ th); [|discriminate]. cbn [bind] in H.
  injection H as <-. cbn [score].
  destruct (score_of_unit p Up) as [Ns Rs].
  assert (E : exists x, score_of p = round2 x /\ is_nan x = false
                        /\ 0 <= fval x <= 100 * ONE).
  { unfold score_of, combined_risk_of. rewrite (clamp_id p Up).
    pose proof (unit_one_minus p Up) as Hc.
    destruct (times_100_value (1 - p) Hc) as [Hn' Hv].
    exists ((1 - p) * 100)%float. split; [reflexivity|]. split; [exact Hn'|].
    rewrite Hv. destruct Hc as [_ Rc]. pose proof ONE_pos. split.
    - apply RN_nonneg. apply Z.mul_nonneg_nonneg; lia.
    - rewrite <- fval_100 at 2.
      rewrite <- (RN_fixes 100 eq_refl).
      + apply RN_mono. rewrite fval_100. split.
        * apply Z.mul_nonneg_nonneg; lia.
        * fold ONE. rewrite (Z.mul_comm (100 * ONE) ONE).
          apply Z.mul_le_mono_nonneg_r; lia.
      + rewrite fval_100. unfold ONE, SMALL.
        change (2 ^ 1082)%Z with (2 ^ 8 * 2 ^ 1074)%Z.
        split; [|apply Z.mul_le_mono_nonneg_r; [|lia]];
          try (apply Z.lt_le_incl, pow2_pos; lia).
        apply Z.mul_nonneg_nonneg; [lia|apply Z.lt_le_incl, pow2_pos; lia]. }
  destruct E as (x & Ex & Nx & Rx).
  destruct (round2_value x Nx Rx) as [_ V].
  pose proof (to_hundredths_range _ Rx) as Hh.
  exists (to_hundredths (fval x)). split; [exact Hh|]. split; [|split].
  - apply fval_eq_eqb; [exact Ns|now apply hundredths_number|]. now rewrite Ex.
  - apply leb_of_fval; [reflexivity|exact Ns|rewrite fval_0; lia].
  - apply leb_of_fval; [exact Ns|reflexivity|rewrite fval_100; lia].
Qed.

End ScoreExtras.

Lemma scored_items_witness :
  exists r,
    score_pii_findings not_a_number [[("severity_weight", PyFloat 0.5)]] 1
                       DEFAULT_LABEL_THRESHOLDS = Ok r
    /\ item_count r = List.length [[("severity_weight", PyFloat 0.5)]]
    /\ List.length (scored_items r)
       = List.length [[("severity_weight", PyFloat 0.5)]]
    /\ forall (i : nat) (raw scored : dict pyval),
         nth_error [[("severity_weight", PyFloat 0.5)]] i = Some raw ->
         nth_error (scored_items r) i = Some scored ->
         exists w c contribution,
           readings not_a_number 1 raw = Ok (w, c)
           /\ contribution = _clamp01 (_clamp01 w * _clamp01 c)
           /\ (contribution <? 0)%float = false
           /\ (1 <? contribution)%float = false
           /\ get scored "contribution" = Some (PyFloat contribution)
           /\ forall k, k <> "contribution" -> get scored k = get raw k.
Proof.
  eexists. split; [reflexivity|].
  apply (scored_items_record_contributions not_a_number
           [[("severity_weight", PyFloat 0.5)]] 1 DEFAULT_LABEL_THRESHOLDS).
  reflexivity.
Defined.

Lemma certain_finding_witness :
  exists r,
    score_pii_findings not_a_number
      [[("severity_weight", PyFloat 0.5)]; [("severity_weight", PyFloat 1)]] 1
      DEFAULT_LABEL_THRESHOLDS = Ok r
    /\ (score r =? 100)%float = true
    /\ (DEFAULT_LABEL_THRESHOLDS = DEFAULT_LABEL_THRESHOLDS -> label r = critical).
Proof.
  apply (certain_finding_saturates_score not_a_number
           [[("severity_weight", PyFloat 0.5)]; [("severity_weight", PyFloat 1)]]
           1 DEFAULT_LABEL_THRESHOLDS).
  - discriminate.
  - reflexivity.
  - reflexivity.
Defined.

Lemma nan_finding_witness :
  exists r,
    score_pii_findings not_a_number
      [[("severity_weight", PyFloat 0.95)]; [("severity_weight", PyFloat nan)]] 1
      DEFAULT_LABEL_THRESHOLDS = Ok r
    /\ is_nan (score r) = true
    /\ (DEFAULT_LABEL_THRESHOLDS = DEFAULT_LABEL_THRESHOLDS -> label r = low).
Proof.
  apply (nan_finding_makes_score_nan not_a_number
           [[("severity_weight", PyFloat 0.95)]; [("severity_weight", PyFloat nan)]]
           1 DEFAULT_LABEL_THRESHOLDS).
  - discriminate.
  - reflexivity.
  - reflexivity.
Defined.

Lemma hundredths_witness :
  exists r,
    score_pii_findings not_a_number [[("severity_weight", PyFloat 0.7)]] 1
                       DEFAULT_LABEL_THRESHOLDS = Ok r
    /\ exists n : Z,
         (0 <= n <= 10000)%Z
         /\ (score r =? hundredths n)%float = true
         /\ (0 <=? score r)%float = true
         /\ (score r <=? 100)%float = true.
Proof.
  eexists. split; [reflexivity|].
  apply (score_is_a_number_of_hundredths not_a_number
           [[("severity_weight", PyFloat 0.7)]] 1 DEFAULT_LABEL_THRESHOLDS).
  - reflexivity.
  - reflexivity.
Defined.

(* ----------------------------------------------------------------- *)
(** ** Detection, classification and scoring under the defaults *)

Section Pipeline.

Variable str : string -> option float.

Open Scope Z_scope.

(** A match, classified under the default policy and scored with
    confidence 1. *)
Lemma default_classified_match (m : PiiMatch) :
  exists o c scored,
    classify_pii_dict (pii_match_to_dict m) DEFAULT_POLICY = Ok o
    /\ score_item str 1 o = Ok (c, scored)
    /\ number_item str 1 o = true
    /\ unit_float (1 * (1 - c)) /\ fval (1 * (1 - c)) <= fval 0.5.
Proof.
  destruct m as [t v f n]. destruct t.
  - eexists. eexists. eexists. split; [reflexivity|]. split; [reflexivity|].
    split; [reflexivity|]. split; [split; [reflexivity|]|]; vm_compute;
      try split; discriminate.
  - eexists. eexists. eexists. split; [reflexivity|]. split; [reflexivity|].
    split; [reflexivity|]. split; [split; [reflexivity|]|]; vm_compute;
      try split; discriminate.
  - eexists. eexists. eexists. split; [reflexivity|]. split; [reflexivity|].
    split; [reflexivity|]. split; [split; [reflexivity|]|]; vm_compute;
      try split; discriminate.
Qed.

Lemma default_classified (matches : list PiiMatch) :
  exists classified,
    mapM (fun x => classify_pii_dict x DEFAULT_POLICY) (map pii_match_to_dict matches)
    = Ok classified
    /\ List.length classified = List.length matches
    /\ forallb (number_item str 1) classified = true
    /\ match classified with
       | [] => matches = []
       | first :: _ =>
         exists c scored,
           score_item str 1 first = Ok (c, scored)
           /\ unit_float (1 * (1 - c)) /\ fval (1 * (1 - c)) <= fval 0.5
       end.
Proof.
  induction matches as [|m matches (classified & E & L & N & _)].
  - exists []. repeat split.
  - destruct (default_classified_match m) as (o & c & scored & C & S & Nm & U & V).
    exists (o :: classified). cbn [map mapM]. rewrite C. cbn [bind].
    rewrite E. cbn [bind]. split; [reflexivity|]. split; [simpl; now rewrite L|].
    split; [simpl; now rewrite Nm, N|]. eauto.
Qed.

(** X22: detection, classification under the default policy and scoring with
    confidence 1 under the default thresholds never raise, and item_count
    is the number of matches; without a match the score is 0 and the label
    low; with at least one match the score lies between 50 and 100 and the
    label is high or critical. *)
Theorem default_pipeline_rates_any_finding_high :
  forall (records : list file_scanner.LineRecord),
    exists classified r,
      classify_pii_dicts (detect_pii_dicts records) DEFAULT_POLICY = Ok classified
      /\ score_pii_findings str classified 1 DEFAULT_LABEL_THRESHOLDS = Ok r
      /\ item_count r = List.length (detect_pii records)
      /\ (detect_pii records = [] -> score r = 0%float /\ label r = low)
      /\ (detect_pii records <> [] ->
          (50 <=? score r)%float = true /\ (score r <=? 100)%float = true
          /\ (label r = high \/ label r = critical)).
Proof.
  intros records. unfold detect_pii_dicts, pii_matches_to_dicts.
  destruct (default_classified (detect_pii records)) as (classified & E & L & N & F).
  exists classified.
  assert (C : classify_pii_dicts (map pii_match_to_dict (detect_pii records))
                                 DEFAULT_POLICY = Ok classified).
  { unfold classify_pii_dicts.
    change (validate_policy DEFAULT_POLICY) with (@Ok unit tt). exact E. }
  destruct classified as [|first rest].
  - eexists. split; [exact C|]. split; [reflexivity|]. rewrite F.
    cbn. split; [reflexivity|]. split; [auto|]. intros X. now contradiction X.
  - destruct F as (c & scored & S & U & V).
    destruct (detect_pii records) as [|m ms] eqn:D; [discriminate|].
    cbn [forallb] in N. apply andb_true_iff in N as [_ N].
    destruct (score_loop_number str 1 rest [scored] _ N U)
      as (acc & p & Lp & Up & Vp & La).
    assert (SL : score_loop str 1 (first :: rest) [] 1 = Ok (acc, p)).
    { cbn [score_loop]. rewrite S. cbn [bind app]. exact Lp. }
    unfold score_pii_findings. rewrite SL. cbn [bind]. rewrite default_label. cbn [bind].
    eexists. split; [exact C|]. split; [reflexivity|]. cbn [item_count score label].
    split; [rewrite La; simpl in *; lia|]. split; [discriminate|]. intros _.
    destruct (score_of_unit p Up) as [Ns Rs].
    assert (B : (50 <=? score_of p)%float = true).
    { apply leb_of_fval; [reflexivity|exact Ns|].
      change 50%float with (score_of 0.5).
      apply score_of_antitone; [|exact Up|lia].
      split; [reflexivity|]. vm_compute. split; discriminate. }
    split; [exact B|]. split.
    + apply leb_of_fval; [exact Ns|reflexivity|rewrite fval_100; lia].
    + unfold default_band. destruct (80 <=? score_of p)%float; [now right|].
      rewrite B. now left.
Qed.

End Pipeline.
(* ----------------------------------------------------------------- *)
(** ** pii_spacy_validator.py: the placeholder check *)

Section Dummy.

Import Re ReSpec pii_spacy_validator.
Local Open Scope nat_scope.

(** X30: _looks_like_dummy_number is decided by its first three tests, the
    comparison with 1234567890 and 0987654321 never changing the outcome;
    and on the digits of a phone or Aadhaar-like value that the detector
    yields the length test does not fire either. *)
Theorem dummy_number_check_on_detected_values :
  forall (digits : string),
    _looks_like_dummy_number digits
    = ((String.length digits <? 7) || one_distinct_char digits
       || contains "000000" digits || contains "123456" digits
       || contains "987654" digits)
    /\ forall (filename : string) (line_number : Z) (line : string) (m : PiiMatch),
         In m (_iter_matches_for_line filename line_number line) ->
         has_type email m = false ->
         _looks_like_dummy_number (_digits_only (value m))
         = (one_distinct_char (_digits_only (value m))
            || contains "000000" (_digits_only (value m))
            || contains "123456" (_digits_only (value m))
            || contains "987654" (_digits_only (value m))).
Proof.
  intros digits.
  assert (G : forall d, _looks_like_dummy_number d
                        = ((String.length d <? 7) || one_distinct_char d
                           || contains "000000" d || contains "123456" d
                           || contains "987654" d)).
  { intros d. unfold _looks_like_dummy_number.
    destruct (String.length d <? 7); [reflexivity|].
    destruct (one_distinct_char d); [reflexivity|]. cbn [orb].
    destruct (contains "000000" d); [reflexivity|]. cbn [orb].
    destruct (contains "123456" d) eqn:A; [reflexivity|]. cbn [orb].
    destruct (contains "987654" d) eqn:B; [reflexivity|].
    destruct (String.eqb d "1234567890") eqn:E1.
    { apply String.eqb_eq in E1. subst d. discriminate A. }
    destruct (String.eqb d "0987654321") eqn:E2; [|reflexivity].
    apply String.eqb_eq in E2. subst d. discriminate B. }
  split; [apply G|].
  intros f n line m Hm Ht. rewrite G.
  assert (L : 7 <= String.length (_digits_only (value m))).
  { apply iter_inv in Hm as (h & Hh & Th & V & _). rewrite V.
    apply line_hits_values in Hh as [(T' & _)|[(_ & Hsp & Vh)|(_ & _ & _ & L)]].
    - unfold has_type in Ht. rewrite Th, T' in Ht. discriminate.
    - apply finditer_occurs in Hsp as (pre & w & post & E & _ & _ & S & D).
      apply (aadhaar_shape _ _ post) in D
        as (_ & d & a & s1 & b & s2 & c & -> & Hd
            & Fa & La & F1 & _ & Fb & Lb & F2 & _ & Fc & Lc); [|reflexivity].
      rewrite Vh, S. unfold _digits_only.
      rewrite filter_chars, length_str, aadhaar_digits by assumption. lia.
    - exact L. }
  apply Nat.ltb_ge in L. now rewrite L.
Qed.

End Dummy.
(* ----------------------------------------------------------------- *)
(** ** utils/log_sanitize.py *)

Section Sanitize.

Import log_sanitize.

(** Induction on objects, with the hypothesis for every component. *)
Lemma obj_induction (P : obj -> Prop) :
  (forall v, P (Atom v)) ->
  (forall items, Forall (fun kv => P (snd kv)) items -> P (Dict items)) ->
  (forall elems, Forall P elems -> P (PyList elems)) ->
  (forall elems, Forall P elems -> P (PyTuple elems)) ->
  forall o, P o.
Proof.
  intros HA HD HL HT. fix IH 1. intros [v|items|elems|elems].
  - apply HA.
  - apply HD. induction items as [|kv items IHitems]; constructor.
    + apply IH.
    + exact IHitems.
  - apply HL. induction elems as [|x elems IHelems]; constructor.
    + apply IH.
    + exact IHelems.
  - apply HT. induction elems as [|x elems IHelems]; constructor.
    + apply IH.
    + exact IHelems.
Qed.

Lemma sanitize_dict (items : dict obj) :
  sanitize_for_log (Dict items)
  = Dict (fold_left (fun out kv => set out (fst kv) (written kv)) items []).
Proof. reflexivity. Qed.

Lemma set_entry_ok (out : dict obj) (k : string) (v : obj) :
  forallb entry_ok out = true -> entry_ok (k, v) = true ->
  forallb entry_ok (set out k v) = true.
Proof.
  intros Ho Hv. induction out as [|[k' v'] out IH]; cbn [set forallb].
  - now rewrite Hv.
  - cbn [forallb] in Ho. apply andb_true_iff in Ho as [H1 Ho].
    destruct (String.eqb k k') eqn:E; cbn [forallb].
    + apply String.eqb_eq in E. subst k'. now rewrite Hv, Ho.
    + now rewrite H1, IH.
Qed.

Lemma forallb_map' {A B : Type} (f : A -> B) (g : B -> bool) (l : list A) :
  forallb g (map f l) = forallb (fun x => g (f x)) l.
Proof. induction l as [|x l IH]; simpl; [reflexivity|now rewrite IH]. Qed.

(** X23: in the result of sanitize_for_log no mapping, at any depth, holds
    anything but the placeholder [REDACTED] under the key value. *)
Theorem sanitized_object_is_redacted :
  forall o : obj, redacted (sanitize_for_log o) = true.
Proof.
  induction o as [v|items IH|elems IH|elems IH] using obj_induction.
  - reflexivity.
  - rewrite sanitize_dict. cbn [redacted]. fold entry_ok.
    change (fun kv : string * obj =>
              if String.eqb (fst kv) PII_VALUE_KEY
              then is_placeholder (snd kv) else redacted (snd kv)) with entry_ok.
    assert (G : forall out, forallb entry_ok out = true ->
                forallb entry_ok
                  (fold_left (fun out kv => set out (fst kv) (written kv)) items out)
                = true).
    { induction IH as [|kv items Hkv _ IHitems]; intros out Ho; [exact Ho|].
      cbn [fold_left]. apply IHitems. apply set_entry_ok; [exact Ho|].
      unfold entry_ok, written. cbn [fst snd].
      destruct (String.eqb (fst kv) PII_VALUE_KEY); [reflexivity|exact Hkv]. }
    now apply G.
  - cbn [sanitize_for_log redacted]. rewrite forallb_map'.
    apply forallb_forall. rewrite Forall_forall in IH. exact IH.
  - cbn [sanitize_for_log redacted]. rewrite forallb_map'.
    apply forallb_forall. rewrite Forall_forall in IH. exact IH.
Qed.

(** With distinct keys the loop writes the entries one after the other. *)
Lemma get_none_set {V : Type} (d : dict V) (k : string) (v : V) :
  ~ In k (map fst d) -> set d k v = d ++ [(k, v)].
Proof.
  induction d as [|[k' v'] d IH]; cbn [set map fst In app]; intros N; [reflexivity|].
  destruct (String.eqb k k') eqn:E.
  - apply String.eqb_eq in E. subst k'. exfalso. apply N. now left.
  - f_equal. apply IH. intros H. apply N. now right.
Qed.

Lemma fold_set_distinct (f : string * obj -> obj) (items : dict obj) :
  forall out,
    NoDup (map fst out ++ map fst items) ->
    fold_left (fun out kv => set out (fst kv) (f kv)) items out
    = out ++ map (fun kv => (fst kv, f kv)) items.
Proof.
  induction items as [|kv items IH]; intros out N; cbn [fold_left map].
  - now rewrite app_nil_r.
  - cbn [map] in N.
    assert (Nk : ~ In (fst kv) (map fst out)).
    { apply NoDup_remove_2 in N. intros H. apply N. apply in_or_app. now left. }
    rewrite (get_none_set out _ _ Nk), IH.
    + now rewrite <- app_assoc.
    + rewrite map_app. cbn [map fst]. now rewrite <- app_assoc.
Qed.

Lemma sanitize_dict_distinct (items : dict obj) :
  NoDup (map fst items) ->
  sanitize_for_log (Dict items) = Dict (map (fun kv => (fst kv, written kv)) items).
Proof.
  intros N. rewrite sanitize_dict. f_equal.
  now rewrite (fold_set_distinct written items []).
Qed.

Lemma distinct_dict (items : dict obj) :
  distinct_keys (Dict items)
  <-> NoDup (map fst items) /\ Forall (fun kv => distinct_keys (snd kv)) items.
Proof.
  cbn [distinct_keys]. split; intros [N H]; (split; [exact N|]).
  - induction items as [|kv items IH]; constructor.
    + apply H.
    + apply IH; [now apply NoDup_cons_iff in N|apply H].
  - induction H as [|kv items Hkv _ IH]; [exact I|].
    split; [exact Hkv|]. apply IH. now apply NoDup_cons_iff in N.
Qed.

Lemma distinct_list (elems : list obj) :
  distinct_keys (PyList elems) <-> Forall distinct_keys elems.
Proof.
  cbn [distinct_keys]. split; intros H.
  - induction elems as [|x elems IH]; constructor; [apply H|apply IH, H].
  - induction H as [|x elems Hx _ IH]; [exact I|]. split; assumption.
Qed.

Lemma distinct_tuple (elems : list obj) :
  distinct_keys (PyTuple elems) <-> Forall distinct_keys elems.
Proof. exact (distinct_list elems). Qed.

Lemma map_fixed {A : Type} (f : A -> A) (l : list A) :
  Forall (fun x => f x = x) l -> map f l = l.
Proof. induction 1; simpl; congruence. Qed.

(** X24: sanitize_for_log returns an object in which no mapping has the key
    value as it is (the keys of every mapping being distinct, as the keys
    of a dict are); in particular strings in lists and tuples are not
    redacted. *)
Theorem sanitize_changes_nothing_without_value_key :
  forall o : obj,
    distinct_keys o -> value_free o = true -> sanitize_for_log o = o.
Proof.
  induction o as [v|items IH|elems IH|elems IH] using obj_induction; intros D F.
  - reflexivity.
  - apply distinct_dict in D as [N D]. rewrite (sanitize_dict_distinct _ N). f_equal.
    cbn [value_free] in F. rewrite forallb_forall in F.
    rewrite Forall_forall in IH, D. apply map_fixed, Forall_forall.
    intros [k v] H. specialize (F _ H). cbn [fst snd] in F.
    apply andb_true_iff in F as [Fk Fv]. apply negb_true_iff in Fk.
    unfold written. cbn [fst snd]. rewrite Fk. f_equal.
    apply (IH _ H); [apply (D _ H)|exact Fv].
  - apply distinct_list in D. cbn [sanitize_for_log value_free] in *. f_equal.
    rewrite forallb_forall in F. rewrite Forall_forall in IH, D.
    apply map_fixed, Forall_forall. intros x H. apply IH; auto.
  - apply distinct_tuple in D. cbn [sanitize_for_log value_free] in *. f_equal.
    rewrite forallb_forall in F. rewrite Forall_forall in IH, D.
    apply map_fixed, Forall_forall. intros x H. apply IH; auto.
Qed.

Lemma value_free_witness :
  value_free plain_object = true /\ sanitize_for_log plain_object = plain_object.
Proof.
  split; [reflexivity|].
  apply (sanitize_changes_nothing_without_value_key plain_object).
  - simpl. repeat split. repeat constructor; simpl; intuition discriminate.
  - reflexivity.
Defined.

Lemma sanitize_keeps_distinct (o : obj) :
  distinct_keys o -> distinct_keys (sanitize_for_log o).
Proof.
  induction o as [v|items IH|elems IH|elems IH] using obj_induction; intros D.
  - exact I.
  - apply distinct_dict in D as [N D]. rewrite (sanitize_dict_distinct _ N).
    apply distinct_dict. rewrite map_map. cbn [fst]. split; [exact N|].
    rewrite Forall_map. rewrite Forall_forall in *. intros kv H. cbn [snd].
    unfold written. destruct (String.eqb (fst kv) PII_VALUE_KEY); [exact I|].
    apply IH; auto.
  - apply distinct_list in D. cbn [sanitize_for_log]. apply distinct_list.
    rewrite Forall_map. rewrite Forall_forall in *. auto.
  - apply distinct_tuple in D. cbn [sanitize_for_log]. apply distinct_tuple.
    rewrite Forall_map. rewrite Forall_forall in *. auto.
Qed.

(** X25: sanitizing the result of sanitize_for_log again changes nothing
    (the keys of every mapping being distinct, as the keys of a dict
    are). *)
Theorem sanitize_for_log_is_idempotent :
  forall o : obj,
    distinct_keys o ->
    sanitize_for_log (sanitize_for_log o) = sanitize_for_log o.
Proof.
  induction o as [v|items IH|elems IH|elems IH] using obj_induction; intros D.
  - reflexivity.
  - apply distinct_dict in D as [N D]. rewrite (sanitize_dict_distinct _ N).
    rewrite sanitize_dict_distinct by (rewrite map_map; exact N). f_equal.
    rewrite map_map. apply map_ext_in. intros kv H. cbn [fst]. f_equal.
    unfold written. cbn [fst snd].
    destruct (String.eqb (fst kv) PII_VALUE_KEY); [reflexivity|].
    rewrite Forall_forall in IH, D. apply IH; auto.
  - apply distinct_list in D. cbn [sanitize_for_log]. f_equal.
    rewrite map_map. apply map_ext_in. intros x H.
    rewrite Forall_forall in IH, D. apply IH; auto.
  - apply distinct_tuple in D. cbn [sanitize_for_log]. f_equal.
    rewrite map_map. apply map_ext_in. intros x H.
    rewrite Forall_forall in IH, D. apply IH; auto.
Qed.

Lemma idempotent_witness :
  sanitize_for_log (sanitize_for_log nested_object) = sanitize_for_log nested_object.
Proof.
  apply (sanitize_for_log_is_idempotent nested_object).
  simpl. repeat split; repeat constructor; simpl; intuition discriminate.
Defined.

(** X26: for a dictionary of plain values with distinct keys,
    sanitize_for_log replaces the entry under value by the placeholder and
    keeps every other entry, and the order of the keys. *)
Theorem sanitize_flat_dict_redacts_value_only :
  forall d : dict pyval,
    NoDup (map fst d) ->
    sanitize_for_log (of_dict d)
    = of_dict (map (fun kv => (fst kv,
                               if String.eqb (fst kv) PII_VALUE_KEY
                               then PyStr REDACTED_PLACEHOLDER else snd kv)) d).
Proof.
  intros d N. unfold of_dict.
  rewrite sanitize_dict_distinct by (rewrite map_map; exact N). f_equal.
  rewrite !map_map. apply map_ext. intros [k v]. cbn [fst snd]. f_equal.
  unfold written. cbn [fst snd]. now destruct (String.eqb k PII_VALUE_KEY).
Qed.

Lemma flat_dict_witness :
  sanitize_for_log (of_dict email_item)
  = of_dict (map (fun kv => (fst kv,
                             if String.eqb (fst kv) PII_VALUE_KEY
                             then PyStr REDACTED_PLACEHOLDER else snd kv))
                 email_item).
Proof.
  apply (sanitize_flat_dict_redacts_value_only email_item).
  repeat constructor; simpl; intuition discriminate.
Defined.

End Sanitize.
(* ----------------------------------------------------------------- *)
(** ** utils/temp_storage.py *)

Section StoreTheorems.

Variable Payload : Type.
Implicit Types (st : temp_storage.storage Payload) (e : temp_storage.entry Payload).

Lemma find_none_filter st (f g : temp_storage.entry Payload -> bool) :
  (forall e, In e st -> f e = false) -> find f (filter g st) = None.
Proof.
  intros H. induction st as [|e st IH]; [reflexivity|]. cbn [filter].
  destruct (g e); cbn [find].
  - rewrite (H e) by now left. apply IH. intros e' He'. apply H. now right.
  - apply IH. intros e' He'. apply H. now right.
Qed.

Lemma find_app_none {A : Type} (f : A -> bool) (l l' : list A) :
  find f l = None -> find f (l ++ l') = find f l'.
Proof.
  induction l as [|x l IH]; [reflexivity|]. cbn [find app].
  destruct (f x); [discriminate|exact IH].
Qed.

Lemma find_app_some {A : Type} (f : A -> bool) (l l' : list A) (x : A) :
  find f l = Some x -> find f (l ++ l') = Some x.
Proof.
  induction l as [|y l IH]; [discriminate|]. cbn [find app].
  destruct (f y); [auto|exact IH].
Qed.

(** X27: add returns the identifier given, or else the generated one; if no
    stored entry has that identifier, get returns the payload added as
    long as the time read minus the time stored is below the time to live. *)
Theorem stored_payload_is_read_back :
  forall st (now_prune now_store now_read : float) (fresh : string)
         (p : Payload) (scan_id : option string) (ttl : float),
    let added := temp_storage.add now_prune now_store fresh p scan_id ttl st in
    (forall e, In e st ->
               String.eqb (temp_storage.scan_id e) (fst added) = false) ->
    (now_read - now_store <? ttl)%float = true ->
    fst added = match scan_id with Some s => s | None => fresh end
    /\ fst (temp_storage.get now_read (fst added) (snd added)) = Some p.
Proof.
  intros st t1 t2 t3 fresh p scan_id ttl added. subst added.
  unfold temp_storage.add. cbn [fst snd].
  set (sid := match scan_id with Some s => s | None => fresh end).
  intros Hnew Hlive. split; [reflexivity|].
  unfold temp_storage.get, temp_storage._prune_expired. cbn [fst].
  rewrite filter_app. cbn [filter].
  change (temp_storage.live t3 (temp_storage.Build_entry Payload sid t2 ttl p))
    with (t3 - t2 <? ttl)%float.
  rewrite Hlive. rewrite find_app_none.
  - cbn [find temp_storage.scan_id]. now rewrite String.eqb_refl.
  - apply find_none_filter. intros e He. apply Hnew.
    apply filter_In in He. tauto.
Qed.


(** X29: add does not replace: if get, reading the clock at a given time,
    returns a payload for an identifier from the store as add prunes it,
    it returns the same payload, at that time, from the store that add
    leaves after adding a new payload under that identifier. *)
Theorem add_does_not_replace_live_entry :
  forall st (now_prune now_store now_read : float) (fresh : string)
         (p old : Payload) (sid : string) (ttl : float),
    fst (temp_storage.get now_read sid (temp_storage._prune_expired now_prune st))
    = Some old ->
    fst (temp_storage.get now_read sid
           (snd (temp_storage.add now_prune now_store fresh p (Some sid) ttl st)))
    = Some old.
Proof.
  intros st t1 t2 t3 fresh p old sid ttl H.
  unfold temp_storage.add, temp_storage.get, temp_storage._prune_expired in *.
  cbn [fst snd] in *. rewrite filter_app.
  destruct (find _ (filter (temp_storage.live t3) (filter (temp_storage.live t1) st)))
    as [e|] eqn:F; [|discriminate].
  now rewrite (find_app_some _ _ _ _ F).
Qed.

End StoreTheorems.

Lemma read_back_witness :
  fst (temp_storage.add 10 10 "u" "payload" (Some "scan") 600 []) = "scan"
  /\ fst (temp_storage.get 20
            (fst (temp_storage.add 10 10 "u" "payload" (Some "scan") 600 []))
            (snd (temp_storage.add 10 10 "u" "payload" (Some "scan") 600 [])))
     = Some "payload".
Proof.
  apply (stored_payload_is_read_back string [] 10 10 20 "u" "payload"
           (Some "scan") 600).
  - intros e [].
  - reflexivity.
Defined.

Lemma no_replace_witness :
  fst (temp_storage.get 20 "scan"
         (snd (temp_storage.add 10 10 "u" "new" (Some "scan") 600
                 [temp_storage.Build_entry string "scan" 0 600 "old"])))
  = Some "old".
Proof.
  apply (add_does_not_replace_live_entry string
           [temp_storage.Build_entry string "scan" 0 600 "old"]
           10 10 20 "u" "new" "old" "scan" 600).
  reflexivity.
Defined.
